(** * rbxl: the typed-value layer of the binary place/model codec

    A shallow embedding of [rbxl/values.go] and [rbxl/arrays.go].

    Conventions of the embedding.
    - A Go [byte] is a [Z] in [0, 256); [uint32]/[uint64] are [Z] in
      [0, 2^32) / [0, 2^64); [int32]/[int64] are [Z] in the signed ranges.
      Wrap-around is written out with [to_u32], [to_i32], ...
    - A [float32] (resp. [float64]) is represented by its IEEE-754 bit
      pattern, i.e. the [uint32] that [math.Float32bits] returns.  The codec
      never does arithmetic on floats; it only moves their bits around.
    - A Go [int] used for lengths and indices is a [nat] once it is known to
      be non-negative, and a [Z] where the code tests its sign.
    - A function that mutates a slice in place is a function from the old
      contents to the new contents.
    - A Go function returning [error] returns a [result]: [Ok], [Err], or
      [Panic] for a run-time panic (index or slice bounds out of range). *)

From Stdlib Require Import ZArith Lia.
From stdpp Require Import base list numbers.

Local Open Scope Z_scope.

(** ** Results *)

Inductive error : Type :=
  | ErrLengthNotPositive        (* "length must be greater than 0" *)
  | ErrLengthNotDivisor         (* "length must be a divisor of array length" *)
  | ErrSizeNotPositive          (* "size must be greater than 0" *)
  | ErrSizeNotDivisor           (* "size must be a divisor of array length" *)
  | ErrArrayLength (n : Z)      (* "array length must be n" *)
  | ErrArrayLengthAtLeast (n : Z) (* "array length must be (at least | greater than or equal to) n" *)
  | ErrStringLength (have want : Z) (* "string length (..) does not match integer length (..)" *)
  | ErrExpectedArrayLength (n : Z)  (* "expected array length of n (...)" *)
  | ErrExpectedMore (n : Z)     (* "expected n more bytes in array" *)
  | ErrNotDivisible (len size : Z) (* "length of array (..) is not divisible by value byte size (..)" *)
  | ErrMustBeDivisible (size : Z)  (* "array must be divisible by size" *)
  | ErrInvalidType (t : Z)      (* "invalid type (..)" / "type identifier .. is not a valid Type." *)
  | ErrElementType (i : nat) (have want : Z) (* "element i is of type .. where .. is expected" *)
  | ErrPositionCount            (* "number of positions does not match number of matrices" *)
  | ErrNotImplemented.          (* "not implemented" *)

Inductive result (A : Type) : Type :=
  | Ok (a : A)
  | Err (e : error)
  | Panic.
Arguments Ok {A} a.
Arguments Err {A} e.
Arguments Panic {A}.

(** Sequencing: an error or a panic ends the call.  With this instance
    [x ← r; k] is stdpp's notation for [mbind (λ x, k) r]. *)
#[global] Instance result_bind : MBind result := λ A B k r,
  match r with
  | Ok a => k a
  | Err e => Err e
  | Panic => Panic
  end.

#[global] Instance result_fmap : FMap result := λ A B f r,
  match r with
  | Ok a => Ok (f a)
  | Err e => Err e
  | Panic => Panic
  end.

Definition is_ok {A} (r : result A) : bool :=
  match r with Ok _ => true | _ => false end.

Definition is_err {A} (r : result A) : bool :=
  match r with Err _ => true | _ => false end.

Definition is_panic {A} (r : result A) : bool :=
  match r with Panic => true | _ => false end.

(** ** Bytes, words and loops *)

Abbreviation byte := Z (only parsing).

Definition is_byte (b : Z) : Prop := 0 ≤ b < 256.
Definition is_u32 (n : Z) : Prop := 0 ≤ n < 2^32.
Definition is_u64 (n : Z) : Prop := 0 ≤ n < 2^64.
Definition is_i16 (n : Z) : Prop := -2^15 ≤ n < 2^15.
Definition is_i32 (n : Z) : Prop := -2^31 ≤ n < 2^31.
Definition is_i64 (n : Z) : Prop := -2^63 ≤ n < 2^63.

(** Conversions between integer types: truncation to [w] bits, read as
    unsigned or as two's complement. *)
Definition to_unsigned (w : Z) (n : Z) : Z := n mod 2^w.
Definition to_signed (w : Z) (n : Z) : Z := (n + 2^(w-1)) mod 2^w - 2^(w-1).

Definition to_u8 := to_unsigned 8.
Definition to_u16 := to_unsigned 16.
Definition to_u32 := to_unsigned 32.
Definition to_u64 := to_unsigned 64.
Definition to_i16 := to_signed 16.
Definition to_i32 := to_signed 32.
Definition to_i64 := to_signed 64.

(** [b[i]] for an index known to be in range. *)
Definition get (l : list byte) (i : nat) : byte := default 0 (l !! i).

(** [for i := 0; i < n; i++ { s = body(i, s) }] *)
Definition for_range {S : Type} (n : nat) (body : nat → S → S) (s : S) : S :=
  foldl (λ s i, body i s) s (seq 0 n).

(** ** Scalar primitives (values.go) *)

Definition encodeZigzag32 (n : Z) : Z :=
  to_u32 (Z.lxor (to_i32 (Z.shiftl n 1)) (Z.shiftr n 31)).

Definition decodeZigzag32 (n : Z) : Z :=
  to_i32 (Z.lxor (Z.shiftr n 1)
                 (to_u32 (Z.shiftr (to_i32 (Z.shiftl (to_i32 (Z.land n 1)) 31)) 31))).

Definition encodeZigzag64 (n : Z) : Z :=
  to_u64 (Z.lxor (to_i64 (Z.shiftl n 1)) (Z.shiftr n 63)).

Definition decodeZigzag64 (n : Z) : Z :=
  to_i64 (Z.lxor (Z.shiftr n 1)
                 (to_u64 (Z.shiftr (to_i64 (Z.shiftl (to_i64 (Z.land n 1)) 63)) 63))).

(** [f] is the bit pattern [math.Float32bits(f)]. *)
Definition encodeRobloxFloat (f : Z) : Z :=
  let n := f in
  Z.lor (to_u32 (Z.shiftl n 1)) (Z.shiftr n 31).

(** The result is the bit pattern handed to [math.Float32frombits]. *)
Definition decodeRobloxFloat (n : Z) : Z :=
  let f := Z.lor (Z.shiftr n 1) (to_u32 (Z.shiftl n 31)) in
  f.

(** Number of set bits among the low 32 bits. *)
Definition popcount32 (n : Z) : nat :=
  length (filter (λ i, Z.testbit n (Z.of_nat i) = true) (seq 0 32)).

(** A binary32 pattern is a NaN when its exponent is all ones and its
    fraction is not zero. *)
Definition is_NaN32 (n : Z) : bool :=
  (Z.land (Z.shiftr n 23) 255 =? 255) && negb (Z.land n (2^23 - 1) =? 0).

(** ** The interleave primitive (arrays.go) *)

(** [bytes[i], bytes[j] = bytes[j], bytes[i]] *)
Definition swap (i j : nat) (bytes : list byte) : list byte :=
  let x := get bytes j in
  let y := get bytes i in
  <[j := y]> (<[i := x]> bytes).

(** The branch taken when [rows == cols]. *)
Definition transposeSquare (rows cols : nat) (bytes : list byte) : list byte :=
  for_range rows (λ r bytes,
    for_range r (λ c bytes,
      swap (r * cols + c)%nat (c * cols + r)%nat bytes) bytes) bytes.

(** The branch taken otherwise, through the scratch buffer [tmp]. *)
Definition transposeRect (rows cols : nat) (bytes : list byte) : list byte :=
  let tmp := replicate (length bytes) 0 in
  let tmp :=
    for_range rows (λ r tmp,
      for_range cols (λ c tmp,
        <[(c * rows + r)%nat := get bytes (r * cols + c)%nat]> tmp) tmp) tmp in
  for_range (length tmp) (λ i bytes, <[i := get tmp i]> bytes) bytes.

(** [Ok bytes'] : the call returned [nil] and left [bytes'] in the slice.
    [Err e]     : the call returned [e]; the slice is untouched. *)
Definition interleave (bytes : list byte) (length_ : Z) : result (list byte) :=
  if length_ <=? 0 then Err ErrLengthNotPositive
  else if negb (Z.rem (Z.of_nat (length bytes)) length_ =? 0)
  then Err ErrLengthNotDivisor
  else
    let cols := Z.to_nat length_ in
    let rows := (length bytes / cols)%nat in
    if (rows =? cols)%nat
    then Ok (transposeSquare rows cols bytes)
    else Ok (transposeRect rows cols bytes).

Definition deinterleave (bytes : list byte) (size : Z) : result (list byte) :=
  if size <=? 0 then Err ErrSizeNotPositive
  else if negb (Z.rem (Z.of_nat (length bytes)) size =? 0)
  then Err ErrSizeNotDivisor
  else interleave bytes (Z.quot (Z.of_nat (length bytes)) size).

(** Both branches are meant to realise this index map: the buffer is a
    [rows × cols] matrix and [output[c*rows + r] = input[r*cols + c]]. *)
Definition is_transpose (rows cols : nat) (input output : list byte) : Prop :=
  length output = length input ∧
  ∀ r c, (r < rows)%nat → (c < cols)%nat →
    output !! (c * rows + r)%nat = input !! (r * cols + c)%nat.

(** ** Slices and encoding/binary *)

(** [make([]byte, n)] *)
Definition make (n : nat) : list byte := replicate n 0.

(** [b[lo:hi]].  A slice is modelled by its contents, so its capacity is its
    length and slicing past the length panics.  Every slice expression of
    the source stays within the length it has tested, except those of
    [ValuePhysicalProperties.FromBytes], whose model is given the rest of the
    backing array explicitly. *)
Definition slice (b : list byte) (lo hi : nat) : result (list byte) :=
  if (lo <=? hi)%nat && (hi <=? length b)%nat
  then Ok (take (hi - lo) (drop lo b))
  else Panic.

(** [b[lo:]] *)
Definition slice_from (b : list byte) (lo : nat) : result (list byte) :=
  slice b lo (length b).

(** [copy(dst[lo:hi], src)]: copies [min(hi - lo, len(src))] bytes. *)
Definition copy_to (dst : list byte) (lo hi : nat) (src : list byte) : list byte :=
  let n := ((hi - lo) `min` length src)%nat in
  take lo dst ++ take n src ++ drop (lo + n)%nat dst.

(** [copy(dst[off:], src)] *)
Definition copy_at (dst : list byte) (off : nat) (src : list byte) : list byte :=
  copy_to dst off (length dst) src.

(** [for i, x := range l { s, err = body(i, x, s); if err != nil { return err } }],
    started at index [i]. *)
Fixpoint for_each_from {A S : Type} (i : nat) (l : list A)
    (body : nat → A → S → result S) (s : S) : result S :=
  match l with
  | [] => Ok s
  | x :: l' => s' ← body i x s; for_each_from (Datatypes.S i) l' body s'
  end.

Definition for_each {A S : Type} (l : list A)
    (body : nat → A → S → result S) (s : S) : result S :=
  for_each_from 0 l body s.

(** [for cond(s) { s = body(s) }] with early [return]s.  [step s] is
    [inr r] when the loop is left with [r] (the condition is false, or the
    body returns), and [inl s'] when the next iteration starts in [s'].
    [fuel] bounds the number of iterations; every use below passes a bound
    that the loop cannot reach, so the [Panic] of the first case stands for
    no behaviour of the program. *)
Fixpoint loop {S R : Type} (fuel : nat) (step : S → result (S + R)) (s : S)
  : result R :=
  match fuel with
  | O => Panic
  | Datatypes.S fuel =>
      r ← step s;
      match r with
      | inl s' => loop fuel step s'
      | inr r => Ok r
      end
  end.

(** [byte(v)] *)
Definition byte_of (v : Z) : byte := to_u8 v.

(** [binary.BigEndian.PutUint32(b[off:off+4], v)] *)
Definition BigEndian_PutUint32 (b : list byte) (off : nat) (v : Z) : list byte :=
  let b := <[off := byte_of (Z.shiftr v 24)]> b in
  let b := <[(off + 1)%nat := byte_of (Z.shiftr v 16)]> b in
  let b := <[(off + 2)%nat := byte_of (Z.shiftr v 8)]> b in
  <[(off + 3)%nat := byte_of v]> b.

(** [binary.BigEndian.Uint32(b[off:off+4])] *)
Definition BigEndian_Uint32 (b : list byte) (off : nat) : Z :=
  Z.lor (get b (off + 3))
    (Z.lor (Z.shiftl (get b (off + 2)) 8)
       (Z.lor (Z.shiftl (get b (off + 1)) 16) (Z.shiftl (get b off) 24))).

(** [binary.LittleEndian.PutUint16(b[off:off+2], v)] *)
Definition LittleEndian_PutUint16 (b : list byte) (off : nat) (v : Z) : list byte :=
  let b := <[off := byte_of v]> b in
  <[(off + 1)%nat := byte_of (Z.shiftr v 8)]> b.

(** [binary.LittleEndian.Uint16(b[off:off+2])] *)
Definition LittleEndian_Uint16 (b : list byte) (off : nat) : Z :=
  Z.lor (get b off) (Z.shiftl (get b (off + 1)) 8).

(** [binary.LittleEndian.PutUint32(b[off:off+4], v)] *)
Definition LittleEndian_PutUint32 (b : list byte) (off : nat) (v : Z) : list byte :=
  let b := <[off := byte_of v]> b in
  let b := <[(off + 1)%nat := byte_of (Z.shiftr v 8)]> b in
  let b := <[(off + 2)%nat := byte_of (Z.shiftr v 16)]> b in
  <[(off + 3)%nat := byte_of (Z.shiftr v 24)]> b.

(** [binary.LittleEndian.Uint32(b[off:off+4])] *)
Definition LittleEndian_Uint32 (b : list byte) (off : nat) : Z :=
  Z.lor (get b off)
    (Z.lor (Z.shiftl (get b (off + 1)) 8)
       (Z.lor (Z.shiftl (get b (off + 2)) 16) (Z.shiftl (get b (off + 3)) 24))).

(** [binary.BigEndian.PutUint64(b, v)] *)
Definition BigEndian_PutUint64 (b : list byte) (off : nat) (v : Z) : list byte :=
  for_range 8 (λ i b, <[(off + i)%nat := byte_of (Z.shiftr v (56 - 8 * Z.of_nat i))]> b) b.

(** [binary.BigEndian.Uint64(b)] *)
Definition BigEndian_Uint64 (b : list byte) (off : nat) : Z :=
  for_range 8 (λ i acc,
    Z.lor acc (Z.shiftl (get b (off + i)) (56 - 8 * Z.of_nat i))) 0.

(** [binary.LittleEndian.PutUint64(b, v)] *)
Definition LittleEndian_PutUint64 (b : list byte) (off : nat) (v : Z) : list byte :=
  for_range 8 (λ i b, <[(off + i)%nat := byte_of (Z.shiftr v (8 * Z.of_nat i))]> b) b.

(** [binary.LittleEndian.Uint64(b)] *)
Definition LittleEndian_Uint64 (b : list byte) (off : nat) : Z :=
  for_range 8 (λ i acc,
    Z.lor acc (Z.shiftl (get b (off + i)) (8 * Z.of_nat i))) 0.

(** [v.F.FromBytes(b)] used as a statement: the returned error is dropped,
    and since every [FromBytes] returns its error before it assigns, the
    field keeps the value it had. *)
Definition ignore_err {A} (old : A) (r : result A) : result A :=
  match r with
  | Ok a => Ok a
  | Err _ => Ok old
  | Panic => Panic
  end.

(** ** Type tags (values.go) *)

Abbreviation Type_ := Z (only parsing).

Definition TypeInvalid : Type_ := 0x0.
Definition TypeString : Type_ := 0x1.
Definition TypeBool : Type_ := 0x2.
Definition TypeInt : Type_ := 0x3.
Definition TypeFloat : Type_ := 0x4.
Definition TypeDouble : Type_ := 0x5.
Definition TypeUDim : Type_ := 0x6.
Definition TypeUDim2 : Type_ := 0x7.
Definition TypeRay : Type_ := 0x8.
Definition TypeFaces : Type_ := 0x9.
Definition TypeAxes : Type_ := 0xA.
Definition TypeBrickColor : Type_ := 0xB.
Definition TypeColor3 : Type_ := 0xC.
Definition TypeVector2 : Type_ := 0xD.
Definition TypeVector3 : Type_ := 0xE.
Definition TypeVector2int16 : Type_ := 0xF.
Definition TypeCFrame : Type_ := 0x10.
Definition TypeToken : Type_ := 0x12.
Definition TypeReference : Type_ := 0x13.
Definition TypeVector3int16 : Type_ := 0x14.
Definition TypeNumberSequence : Type_ := 0x15.
Definition TypeColorSequence : Type_ := 0x16.
Definition TypeNumberRange : Type_ := 0x17.
Definition TypeRect2D : Type_ := 0x18.
Definition TypePhysicalProperties : Type_ := 0x19.
Definition TypeColor3uint8 : Type_ := 0x1A.
Definition TypeInt64 : Type_ := 0x1B.
Definition TypeSharedString : Type_ := 0x1C.

Definition Valid (t : Type_) : bool :=
  (TypeString <=? t) && (t <=? TypeSharedString) && negb (t =? 0x11).

(** [switch t { case a, b, c: ... }] *)
Definition case_of (t : Type_) (cases : list Type_) : bool :=
  existsb (Z.eqb t) cases.

(** ** Values (values.go)

    Every [float32]/[float64] field holds the bit pattern of the float. *)

Record ValueUDim := mkUDim { UDim_Scale : Z; UDim_Offset : Z }.

Record ValueUDim2 := mkUDim2 {
  UDim2_ScaleX : Z; UDim2_ScaleY : Z; UDim2_OffsetX : Z; UDim2_OffsetY : Z }.

Record ValueRay := mkRay {
  Ray_OriginX : Z; Ray_OriginY : Z; Ray_OriginZ : Z;
  Ray_DirectionX : Z; Ray_DirectionY : Z; Ray_DirectionZ : Z }.

Record ValueFaces := mkFaces {
  Faces_Right : bool; Faces_Top : bool; Faces_Back : bool;
  Faces_Left : bool; Faces_Bottom : bool; Faces_Front : bool }.

Record ValueAxes := mkAxes { Axes_X : bool; Axes_Y : bool; Axes_Z : bool }.

Record ValueColor3 := mkColor3 { Color3_R : Z; Color3_G : Z; Color3_B : Z }.

Record ValueVector2 := mkVector2 { Vector2_X : Z; Vector2_Y : Z }.

Record ValueVector3 := mkVector3 { Vector3_X : Z; Vector3_Y : Z; Vector3_Z : Z }.

Record ValueVector2int16 := mkVector2int16 { Vector2int16_X : Z; Vector2int16_Y : Z }.

(** [Rotation] is a [[9]float32]: a list of nine bit patterns. *)
Record ValueCFrame := mkCFrame {
  CFrame_Special : byte; CFrame_Rotation : list Z; CFrame_Position : ValueVector3 }.

Record ValueVector3int16 := mkVector3int16 {
  Vector3int16_X : Z; Vector3int16_Y : Z; Vector3int16_Z : Z }.

Record ValueNumberSequenceKeypoint := mkNSK {
  NSK_Time : Z; NSK_Value : Z; NSK_Envelope : Z }.

Record ValueColorSequenceKeypoint := mkCSK {
  CSK_Time : Z; CSK_Value : ValueColor3; CSK_Envelope : Z }.

Record ValueNumberRange := mkNumberRange { NumberRange_Min : Z; NumberRange_Max : Z }.

Record ValueRect2D := mkRect2D { Rect2D_Min : ValueVector2; Rect2D_Max : ValueVector2 }.

Record ValuePhysicalProperties := mkPhysicalProperties {
  PP_CustomPhysics : byte;
  PP_Density : Z; PP_Friction : Z; PP_Elasticity : Z;
  PP_FrictionWeight : Z; PP_ElasticityWeight : Z }.

Record ValueColor3uint8 := mkColor3uint8 {
  Color3uint8_R : byte; Color3uint8_G : byte; Color3uint8_B : byte }.

(** The interface [Value]: one constructor per implementing type. *)
Inductive Value : Type :=
  | VString (v : list byte)
  | VBool (v : bool)
  | VInt (v : Z)
  | VFloat (v : Z)
  | VDouble (v : Z)
  | VUDim (v : ValueUDim)
  | VUDim2 (v : ValueUDim2)
  | VRay (v : ValueRay)
  | VFaces (v : ValueFaces)
  | VAxes (v : ValueAxes)
  | VBrickColor (v : Z)
  | VColor3 (v : ValueColor3)
  | VVector2 (v : ValueVector2)
  | VVector3 (v : ValueVector3)
  | VVector2int16 (v : ValueVector2int16)
  | VCFrame (v : ValueCFrame)
  | VToken (v : Z)
  | VReference (v : Z)
  | VVector3int16 (v : ValueVector3int16)
  | VNumberSequence (v : list ValueNumberSequenceKeypoint)
  | VColorSequence (v : list ValueColorSequenceKeypoint)
  | VNumberRange (v : ValueNumberRange)
  | VRect2D (v : ValueRect2D)
  | VPhysicalProperties (v : ValuePhysicalProperties)
  | VColor3uint8 (v : ValueColor3uint8)
  | VInt64 (v : Z)
  | VSharedString (v : Z).

(** [v.Type()] *)
Definition Type_of (v : Value) : Type_ :=
  match v with
  | VString _ => TypeString
  | VBool _ => TypeBool
  | VInt _ => TypeInt
  | VFloat _ => TypeFloat
  | VDouble _ => TypeDouble
  | VUDim _ => TypeUDim
  | VUDim2 _ => TypeUDim2
  | VRay _ => TypeRay
  | VFaces _ => TypeFaces
  | VAxes _ => TypeAxes
  | VBrickColor _ => TypeBrickColor
  | VColor3 _ => TypeColor3
  | VVector2 _ => TypeVector2
  | VVector3 _ => TypeVector3
  | VVector2int16 _ => TypeVector2int16
  | VCFrame _ => TypeCFrame
  | VToken _ => TypeToken
  | VReference _ => TypeReference
  | VVector3int16 _ => TypeVector3int16
  | VNumberSequence _ => TypeNumberSequence
  | VColorSequence _ => TypeColorSequence
  | VNumberRange _ => TypeNumberRange
  | VRect2D _ => TypeRect2D
  | VPhysicalProperties _ => TypePhysicalProperties
  | VColor3uint8 _ => TypeColor3uint8
  | VInt64 _ => TypeInt64
  | VSharedString _ => TypeSharedString
  end.

(** *** String *)

Definition ValueString_Bytes (v : list byte) : list byte :=
  let b := make (length v + 4) in
  let b := LittleEndian_PutUint32 b 0 (to_u32 (Z.of_nat (length v))) in
  copy_at b 4 v.

Definition ValueString_FromBytes (b : list byte) : result (list byte) :=
  if (length b <? 4)%nat then Err (ErrArrayLengthAtLeast 4)
  else
    let length_ := LittleEndian_Uint32 b 0 in
    str ← slice_from b 4;
    if negb (to_u32 (Z.of_nat (length str)) =? length_)
    then Err (ErrStringLength (Z.of_nat (length str)) length_)
    else Ok (copy_at (make (length str)) 0 str).

(** *** Bool *)

Definition ValueBool_Bytes (v : bool) : list byte :=
  if v then [1] else [0].

Definition ValueBool_FromBytes (b : list byte) : result bool :=
  if negb (length b =? 1)%nat then Err (ErrArrayLength 1)
  else Ok (negb (get b 0 =? 0)).

(** *** Int *)

Definition ValueInt_Bytes (v : Z) : list byte :=
  BigEndian_PutUint32 (make 4) 0 (encodeZigzag32 v).

Definition ValueInt_FromBytes (b : list byte) : result Z :=
  if negb (length b =? 4)%nat then Err (ErrArrayLength 4)
  else Ok (decodeZigzag32 (BigEndian_Uint32 b 0)).

(** *** Float *)

Definition ValueFloat_Bytes (v : Z) : list byte :=
  BigEndian_PutUint32 (make 4) 0 (encodeRobloxFloat v).

Definition ValueFloat_FromBytes (b : list byte) : result Z :=
  if negb (length b =? 4)%nat then Err (ErrArrayLength 4)
  else Ok (decodeRobloxFloat (BigEndian_Uint32 b 0)).

(** *** Double *)

Definition ValueDouble_Bytes (v : Z) : list byte :=
  LittleEndian_PutUint64 (make 8) 0 v.

Definition ValueDouble_FromBytes (b : list byte) : result Z :=
  if negb (length b =? 8)%nat then Err (ErrArrayLength 8)
  else Ok (LittleEndian_Uint64 b 0).

(** *** UDim *)

Definition ValueUDim_Bytes (v : ValueUDim) : list byte :=
  let b := make 8 in
  let b := copy_to b 0 4 (ValueFloat_Bytes (UDim_Scale v)) in
  copy_to b 4 8 (ValueInt_Bytes (UDim_Offset v)).

Definition ValueUDim_FromBytes (v : ValueUDim) (b : list byte) : result ValueUDim :=
  if negb (length b =? 8)%nat then Err (ErrArrayLength 8)
  else
    scale ← ignore_err (UDim_Scale v) (slice b 0 4 ≫= ValueFloat_FromBytes);
    offset ← ignore_err (UDim_Offset v) (slice b 4 8 ≫= ValueInt_FromBytes);
    Ok (mkUDim scale offset).

Definition ValueUDim_fieldLen : list nat := [4; 4]%nat.

Definition ValueUDim_fieldSet (v : ValueUDim) (i : nat) (b : list byte)
  : result ValueUDim :=
  match i with
  | 0%nat => x ← ValueFloat_FromBytes b; Ok (mkUDim x (UDim_Offset v))
  | 1%nat => x ← ValueInt_FromBytes b; Ok (mkUDim (UDim_Scale v) x)
  | _ => Ok v
  end.

Definition ValueUDim_fieldGet (v : ValueUDim) (i : nat) : list byte :=
  match i with
  | 0%nat => ValueFloat_Bytes (UDim_Scale v)
  | 1%nat => ValueInt_Bytes (UDim_Offset v)
  | _ => []
  end.

(** *** UDim2 *)

Definition ValueUDim2_Bytes (v : ValueUDim2) : list byte :=
  let b := make 16 in
  let b := copy_to b 0 4 (ValueFloat_Bytes (UDim2_ScaleX v)) in
  let b := copy_to b 4 8 (ValueFloat_Bytes (UDim2_ScaleY v)) in
  let b := copy_to b 8 12 (ValueInt_Bytes (UDim2_OffsetX v)) in
  copy_to b 12 16 (ValueInt_Bytes (UDim2_OffsetY v)).

Definition ValueUDim2_FromBytes (v : ValueUDim2) (b : list byte) : result ValueUDim2 :=
  if negb (length b =? 16)%nat then Err (ErrArrayLength 16)
  else
    sx ← ignore_err (UDim2_ScaleX v) (slice b 0 4 ≫= ValueFloat_FromBytes);
    sy ← ignore_err (UDim2_ScaleY v) (slice b 4 8 ≫= ValueFloat_FromBytes);
    ox ← ignore_err (UDim2_OffsetX v) (slice b 8 12 ≫= ValueInt_FromBytes);
    oy ← ignore_err (UDim2_OffsetY v) (slice b 12 16 ≫= ValueInt_FromBytes);
    Ok (mkUDim2 sx sy ox oy).

Definition ValueUDim2_fieldLen : list nat := [4; 4; 4; 4]%nat.

Definition ValueUDim2_fieldSet (v : ValueUDim2) (i : nat) (b : list byte)
  : result ValueUDim2 :=
  match i with
  | 0%nat => x ← ValueFloat_FromBytes b;
             Ok (mkUDim2 x (UDim2_ScaleY v) (UDim2_OffsetX v) (UDim2_OffsetY v))
  | 1%nat => x ← ValueFloat_FromBytes b;
             Ok (mkUDim2 (UDim2_ScaleX v) x (UDim2_OffsetX v) (UDim2_OffsetY v))
  | 2%nat => x ← ValueInt_FromBytes b;
             Ok (mkUDim2 (UDim2_ScaleX v) (UDim2_ScaleY v) x (UDim2_OffsetY v))
  | 3%nat => x ← ValueInt_FromBytes b;
             Ok (mkUDim2 (UDim2_ScaleX v) (UDim2_ScaleY v) (UDim2_OffsetX v) x)
  | _ => Ok v
  end.

Definition ValueUDim2_fieldGet (v : ValueUDim2) (i : nat) : list byte :=
  match i with
  | 0%nat => ValueFloat_Bytes (UDim2_ScaleX v)
  | 1%nat => ValueFloat_Bytes (UDim2_ScaleY v)
  | 2%nat => ValueInt_Bytes (UDim2_OffsetX v)
  | 3%nat => ValueInt_Bytes (UDim2_OffsetY v)
  | _ => []
  end.

(** *** Ray *)

Definition ValueRay_Bytes (v : ValueRay) : list byte :=
  let b := make 24 in
  let b := LittleEndian_PutUint32 b 0 (Ray_OriginX v) in
  let b := LittleEndian_PutUint32 b 4 (Ray_OriginY v) in
  let b := LittleEndian_PutUint32 b 8 (Ray_OriginZ v) in
  let b := LittleEndian_PutUint32 b 12 (Ray_DirectionX v) in
  let b := LittleEndian_PutUint32 b 16 (Ray_DirectionY v) in
  LittleEndian_PutUint32 b 20 (Ray_DirectionZ v).

Definition ValueRay_FromBytes (b : list byte) : result ValueRay :=
  if negb (length b =? 24)%nat then Err (ErrArrayLength 24)
  else Ok (mkRay (LittleEndian_Uint32 b 0) (LittleEndian_Uint32 b 4)
                 (LittleEndian_Uint32 b 8) (LittleEndian_Uint32 b 12)
                 (LittleEndian_Uint32 b 16) (LittleEndian_Uint32 b 20)).

(** *** Faces and Axes *)

(** [for i, flag := range flags { if flag { b = b | (1 << uint(i)) } }] *)
Definition pack_flags (flags : list bool) : byte :=
  for_range (length flags) (λ i b,
    if default false (flags !! i)
    then to_u8 (Z.lor b (Z.shiftl 1 (Z.of_nat i)))
    else b) 0.

(** [b&(1<<i) != 0] *)
Definition flag_of (b : byte) (i : Z) : bool :=
  negb (Z.land b (Z.shiftl 1 i) =? 0).

Definition ValueFaces_Bytes (v : ValueFaces) : list byte :=
  let flags := [Faces_Right v; Faces_Top v; Faces_Back v;
                Faces_Left v; Faces_Bottom v; Faces_Front v] in
  [pack_flags flags].

Definition ValueFaces_FromBytes (b : list byte) : result ValueFaces :=
  if negb (length b =? 1)%nat then Err (ErrArrayLength 1)
  else Ok (mkFaces (flag_of (get b 0) 0) (flag_of (get b 0) 1)
                   (flag_of (get b 0) 2) (flag_of (get b 0) 3)
                   (flag_of (get b 0) 4) (flag_of (get b 0) 5)).

Definition ValueAxes_Bytes (v : ValueAxes) : list byte :=
  let flags := [Axes_X v; Axes_Y v; Axes_Z v] in
  [pack_flags flags].

Definition ValueAxes_FromBytes (b : list byte) : result ValueAxes :=
  if negb (length b =? 1)%nat then Err (ErrArrayLength 1)
  else Ok (mkAxes (flag_of (get b 0) 0) (flag_of (get b 0) 1)
                  (flag_of (get b 0) 2)).

(** *** BrickColor *)

Definition ValueBrickColor_Bytes (v : Z) : list byte :=
  BigEndian_PutUint32 (make 4) 0 v.

Definition ValueBrickColor_FromBytes (b : list byte) : result Z :=
  if negb (length b =? 4)%nat then Err (ErrArrayLength 4)
  else Ok (BigEndian_Uint32 b 0).

(** *** Color3 *)

Definition ValueColor3_Bytes (v : ValueColor3) : list byte :=
  let b := make 12 in
  let b := copy_to b 0 4 (ValueFloat_Bytes (Color3_R v)) in
  let b := copy_to b 4 8 (ValueFloat_Bytes (Color3_G v)) in
  copy_to b 8 12 (ValueFloat_Bytes (Color3_B v)).

Definition ValueColor3_FromBytes (v : ValueColor3) (b : list byte) : result ValueColor3 :=
  if negb (length b =? 12)%nat then Err (ErrArrayLength 12)
  else
    r ← ignore_err (Color3_R v) (slice b 0 4 ≫= ValueFloat_FromBytes);
    g ← ignore_err (Color3_G v) (slice b 4 8 ≫= ValueFloat_FromBytes);
    b' ← ignore_err (Color3_B v) (slice b 8 12 ≫= ValueFloat_FromBytes);
    Ok (mkColor3 r g b').

Definition ValueColor3_fieldLen : list nat := [4; 4; 4]%nat.

Definition ValueColor3_fieldSet (v : ValueColor3) (i : nat) (b : list byte)
  : result ValueColor3 :=
  match i with
  | 0%nat => x ← ValueFloat_FromBytes b; Ok (mkColor3 x (Color3_G v) (Color3_B v))
  | 1%nat => x ← ValueFloat_FromBytes b; Ok (mkColor3 (Color3_R v) x (Color3_B v))
  | 2%nat => x ← ValueFloat_FromBytes b; Ok (mkColor3 (Color3_R v) (Color3_G v) x)
  | _ => Ok v
  end.

Definition ValueColor3_fieldGet (v : ValueColor3) (i : nat) : list byte :=
  match i with
  | 0%nat => ValueFloat_Bytes (Color3_R v)
  | 1%nat => ValueFloat_Bytes (Color3_G v)
  | 2%nat => ValueFloat_Bytes (Color3_B v)
  | _ => []
  end.

(** *** Vector2 *)

Definition ValueVector2_Bytes (v : ValueVector2) : list byte :=
  let b := make 8 in
  let b := copy_to b 0 4 (ValueFloat_Bytes (Vector2_X v)) in
  copy_to b 4 8 (ValueFloat_Bytes (Vector2_Y v)).

Definition ValueVector2_FromBytes (v : ValueVector2) (b : list byte) : result ValueVector2 :=
  if negb (length b =? 8)%nat then Err (ErrArrayLength 8)
  else
    x ← ignore_err (Vector2_X v) (slice b 0 4 ≫= ValueFloat_FromBytes);
    y ← ignore_err (Vector2_Y v) (slice b 4 8 ≫= ValueFloat_FromBytes);
    Ok (mkVector2 x y).

Definition ValueVector2_fieldLen : list nat := [4; 4]%nat.

Definition ValueVector2_fieldSet (v : ValueVector2) (i : nat) (b : list byte)
  : result ValueVector2 :=
  match i with
  | 0%nat => x ← ValueFloat_FromBytes b; Ok (mkVector2 x (Vector2_Y v))
  | 1%nat => x ← ValueFloat_FromBytes b; Ok (mkVector2 (Vector2_X v) x)
  | _ => Ok v
  end.

Definition ValueVector2_fieldGet (v : ValueVector2) (i : nat) : list byte :=
  match i with
  | 0%nat => ValueFloat_Bytes (Vector2_X v)
  | 1%nat => ValueFloat_Bytes (Vector2_Y v)
  | _ => []
  end.

(** *** Vector3 *)

Definition ValueVector3_Bytes (v : ValueVector3) : list byte :=
  let b := make 12 in
  let b := copy_to b 0 4 (ValueFloat_Bytes (Vector3_X v)) in
  let b := copy_to b 4 8 (ValueFloat_Bytes (Vector3_Y v)) in
  copy_to b 8 12 (ValueFloat_Bytes (Vector3_Z v)).

Definition ValueVector3_FromBytes (v : ValueVector3) (b : list byte) : result ValueVector3 :=
  if negb (length b =? 12)%nat then Err (ErrArrayLength 12)
  else
    x ← ignore_err (Vector3_X v) (slice b 0 4 ≫= ValueFloat_FromBytes);
    y ← ignore_err (Vector3_Y v) (slice b 4 8 ≫= ValueFloat_FromBytes);
    z ← ignore_err (Vector3_Z v) (slice b 8 12 ≫= ValueFloat_FromBytes);
    Ok (mkVector3 x y z).

Definition ValueVector3_fieldLen : list nat := [4; 4; 4]%nat.

Definition ValueVector3_fieldSet (v : ValueVector3) (i : nat) (b : list byte)
  : result ValueVector3 :=
  match i with
  | 0%nat => x ← ValueFloat_FromBytes b; Ok (mkVector3 x (Vector3_Y v) (Vector3_Z v))
  | 1%nat => x ← ValueFloat_FromBytes b; Ok (mkVector3 (Vector3_X v) x (Vector3_Z v))
  | 2%nat => x ← ValueFloat_FromBytes b; Ok (mkVector3 (Vector3_X v) (Vector3_Y v) x)
  | _ => Ok v
  end.

Definition ValueVector3_fieldGet (v : ValueVector3) (i : nat) : list byte :=
  match i with
  | 0%nat => ValueFloat_Bytes (Vector3_X v)
  | 1%nat => ValueFloat_Bytes (Vector3_Y v)
  | 2%nat => ValueFloat_Bytes (Vector3_Z v)
  | _ => []
  end.

(** *** Vector2int16 *)

Definition ValueVector2int16_Bytes (v : ValueVector2int16) : list byte :=
  let b := make 4 in
  let b := LittleEndian_PutUint16 b 0 (to_u16 (Vector2int16_X v)) in
  LittleEndian_PutUint16 b 2 (to_u16 (Vector2int16_Y v)).

Definition ValueVector2int16_FromBytes (b : list byte) : result ValueVector2int16 :=
  if negb (length b =? 4)%nat then Err (ErrArrayLength 4)
  else Ok (mkVector2int16 (to_i16 (LittleEndian_Uint16 b 0))
                          (to_i16 (LittleEndian_Uint16 b 2))).

(** *** CFrame *)

Definition ValueCFrame_Bytes (v : ValueCFrame) : list byte :=
  let b :=
    if CFrame_Special v =? 0 then
      let b := make 49 in
      (* r := b[1:]; PutUint32(r[i*4:i*4+4], ...) *)
      for_range 9 (λ i b,
        LittleEndian_PutUint32 b (1 + i * 4) (get (CFrame_Rotation v) i)) b
    else
      let b := make 13 in
      <[0%nat := CFrame_Special v]> b in
  copy_at b (length b - 12) (ValueVector3_Bytes (CFrame_Position v)).

Definition ValueCFrame_FromBytes (v : ValueCFrame) (b : list byte) : result ValueCFrame :=
  match b with
  | [] => Panic                 (* b[0]: index out of range *)
  | b0 :: _ =>
    if (b0 =? 0) && negb (length b =? 49)%nat then Err (ErrArrayLength 49)
    else if negb (b0 =? 0) && negb (length b =? 13)%nat then Err (ErrArrayLength 13)
    else
      rotation ←
        (if b0 =? 0 then
           r ← slice_from b 1;
           (* len(r) = 48: the slices r[i*4:i*4+4] are in range *)
           Ok (for_range 9 (λ i rot, <[i := LittleEndian_Uint32 r (i * 4)]> rot)
                 (CFrame_Rotation v))
         else
           Ok (for_range 9 (λ i rot, <[i := 0]> rot) (CFrame_Rotation v)));
      position ← ignore_err (CFrame_Position v)
        (slice_from b (length b - 12) ≫= ValueVector3_FromBytes (CFrame_Position v));
      Ok (mkCFrame b0 rotation position)
  end.

(** *** Token *)

Definition ValueToken_Bytes (v : Z) : list byte :=
  BigEndian_PutUint32 (make 4) 0 v.

Definition ValueToken_FromBytes (b : list byte) : result Z :=
  if negb (length b =? 4)%nat then Err (ErrArrayLength 4)
  else Ok (BigEndian_Uint32 b 0).

(** *** Reference *)

Definition ValueReference_Bytes (v : Z) : list byte :=
  BigEndian_PutUint32 (make 4) 0 (encodeZigzag32 v).

Definition ValueReference_FromBytes (b : list byte) : result Z :=
  if negb (length b =? 4)%nat then Err (ErrArrayLength 4)
  else Ok (decodeZigzag32 (BigEndian_Uint32 b 0)).

(** *** Vector3int16 *)

Definition ValueVector3int16_Bytes (v : ValueVector3int16) : list byte :=
  let b := make 6 in
  let b := LittleEndian_PutUint16 b 0 (to_u16 (Vector3int16_X v)) in
  let b := LittleEndian_PutUint16 b 2 (to_u16 (Vector3int16_Y v)) in
  LittleEndian_PutUint16 b 4 (to_u16 (Vector3int16_Z v)).

Definition ValueVector3int16_FromBytes (b : list byte) : result ValueVector3int16 :=
  if negb (length b =? 6)%nat then Err (ErrArrayLength 6)
  else Ok (mkVector3int16 (to_i16 (LittleEndian_Uint16 b 0))
                          (to_i16 (LittleEndian_Uint16 b 2))
                          (to_i16 (LittleEndian_Uint16 b 4))).

(** *** NumberSequence *)

Definition sizeNSK : nat := 3 * 4.

(** The body of [for i, nsk := range v] in [ValueNumberSequence.Bytes]:
    [ba := b[4:]; bk := ba[i*sizeNSK:]], three [PutUint32] into [bk]. *)
Definition putKeypointNS (i : nat) (nsk : ValueNumberSequenceKeypoint)
    (b : list byte) : list byte :=
  let bk := (4 + i * sizeNSK)%nat in
  let b := LittleEndian_PutUint32 b bk (NSK_Time nsk) in
  let b := LittleEndian_PutUint32 b (bk + 4) (NSK_Value nsk) in
  LittleEndian_PutUint32 b (bk + 8) (NSK_Envelope nsk).

Definition ValueNumberSequence_Bytes (v : list ValueNumberSequenceKeypoint) : list byte :=
  let b := make (4 + length v * sizeNSK) in
  let b := LittleEndian_PutUint32 b 0 (to_u32 (Z.of_nat (length v))) in
  foldl (λ b f, f b) b (imap putKeypointNS v).

Definition ValueNumberSequence_FromBytes (b : list byte)
  : result (list ValueNumberSequenceKeypoint) :=
  if (length b <? 4)%nat then Err (ErrArrayLengthAtLeast 4)
  else
    let length_ := Z.to_nat (LittleEndian_Uint32 b 0) in
    ba ← slice_from b 4;
    if negb (length ba =? sizeNSK * length_)%nat
    then Err (ErrExpectedArrayLength (Z.of_nat (4 + sizeNSK * length_)))
    else
      (* a := make(ValueNumberSequence, length); a[i] = ... for every i *)
      Ok ((λ i,
             let bk := (i * sizeNSK)%nat in
             mkNSK (LittleEndian_Uint32 ba bk)
                   (LittleEndian_Uint32 ba (bk + 4))
                   (LittleEndian_Uint32 ba (bk + 8))) <$> seq 0 length_).

(** *** ColorSequence *)

Definition sizeCSK : nat := 4 + 3 * 4 + 4.

(** The body of [for i, csk := range v] in [ValueColorSequence.Bytes]. *)
Definition putKeypointCS (i : nat) (csk : ValueColorSequenceKeypoint)
    (b : list byte) : list byte :=
  let bk := (4 + i * sizeCSK)%nat in
  let b := LittleEndian_PutUint32 b bk (CSK_Time csk) in
  let b := LittleEndian_PutUint32 b (bk + 4) (Color3_R (CSK_Value csk)) in
  let b := LittleEndian_PutUint32 b (bk + 8) (Color3_G (CSK_Value csk)) in
  let b := LittleEndian_PutUint32 b (bk + 12) (Color3_B (CSK_Value csk)) in
  LittleEndian_PutUint32 b (bk + 16) (CSK_Envelope csk).

Definition ValueColorSequence_Bytes (v : list ValueColorSequenceKeypoint) : list byte :=
  let b := make (4 + length v * sizeCSK) in
  let b := LittleEndian_PutUint32 b 0 (to_u32 (Z.of_nat (length v))) in
  foldl (λ b f, f b) b (imap putKeypointCS v).

(** The local [c3], filled by [c3.FromBytes(bk[4:16])], is never read. *)
Definition ValueColorSequence_FromBytes (b : list byte)
  : result (list ValueColorSequenceKeypoint) :=
  if (length b <? 4)%nat then Err (ErrArrayLengthAtLeast 4)
  else
    let length_ := Z.to_nat (LittleEndian_Uint32 b 0) in
    ba ← slice_from b 4;
    if negb (length ba =? sizeCSK * length_)%nat
    then Err (ErrExpectedArrayLength (Z.of_nat (4 + sizeCSK * length_)))
    else
      Ok ((λ i,
             let bk := (i * sizeCSK)%nat in
             mkCSK (LittleEndian_Uint32 ba bk)
                   (mkColor3 (LittleEndian_Uint32 ba (bk + 4))
                             (LittleEndian_Uint32 ba (bk + 8))
                             (LittleEndian_Uint32 ba (bk + 12)))
                   (LittleEndian_Uint32 ba (bk + 16))) <$> seq 0 length_).

(** *** NumberRange *)

Definition ValueNumberRange_Bytes (v : ValueNumberRange) : list byte :=
  let b := make 8 in
  let b := LittleEndian_PutUint32 b 0 (NumberRange_Min v) in
  LittleEndian_PutUint32 b 4 (NumberRange_Max v).

Definition ValueNumberRange_FromBytes (b : list byte) : result ValueNumberRange :=
  if negb (length b =? 8)%nat then Err (ErrArrayLength 8)
  else Ok (mkNumberRange (LittleEndian_Uint32 b 0) (LittleEndian_Uint32 b 4)).

(** *** Rect2D *)

Definition ValueRect2D_Bytes (v : ValueRect2D) : list byte :=
  let b := make 16 in
  let b := copy_to b 0 8 (ValueVector2_Bytes (Rect2D_Min v)) in
  copy_to b 8 16 (ValueVector2_Bytes (Rect2D_Max v)).

Definition ValueRect2D_FromBytes (v : ValueRect2D) (b : list byte) : result ValueRect2D :=
  if negb (length b =? 16)%nat then Err (ErrArrayLength 16)
  else
    min_ ← ignore_err (Rect2D_Min v)
      (slice b 0 8 ≫= ValueVector2_FromBytes (Rect2D_Min v));
    max_ ← ignore_err (Rect2D_Max v)
      (slice b 8 16 ≫= ValueVector2_FromBytes (Rect2D_Max v));
    Ok (mkRect2D min_ max_).

Definition ValueRect2D_fieldLen : list nat := [4; 4; 4; 4]%nat.

Definition ValueRect2D_fieldSet (v : ValueRect2D) (i : nat) (b : list byte)
  : result ValueRect2D :=
  match i with
  | 0%nat => x ← ValueFloat_FromBytes b;
             Ok (mkRect2D (mkVector2 x (Vector2_Y (Rect2D_Min v))) (Rect2D_Max v))
  | 1%nat => x ← ValueFloat_FromBytes b;
             Ok (mkRect2D (mkVector2 (Vector2_X (Rect2D_Min v)) x) (Rect2D_Max v))
  | 2%nat => x ← ValueFloat_FromBytes b;
             Ok (mkRect2D (Rect2D_Min v) (mkVector2 x (Vector2_Y (Rect2D_Max v))))
  | 3%nat => x ← ValueFloat_FromBytes b;
             Ok (mkRect2D (Rect2D_Min v) (mkVector2 (Vector2_X (Rect2D_Max v)) x))
  | _ => Ok v
  end.

Definition ValueRect2D_fieldGet (v : ValueRect2D) (i : nat) : list byte :=
  match i with
  | 0%nat => ValueFloat_Bytes (Vector2_X (Rect2D_Min v))
  | 1%nat => ValueFloat_Bytes (Vector2_Y (Rect2D_Min v))
  | 2%nat => ValueFloat_Bytes (Vector2_X (Rect2D_Max v))
  | 3%nat => ValueFloat_Bytes (Vector2_Y (Rect2D_Max v))
  | _ => []
  end.

(** *** PhysicalProperties *)

Definition ValuePhysicalProperties_Bytes (v : ValuePhysicalProperties) : list byte :=
  if negb (PP_CustomPhysics v =? 0) then
    let b := make 21 in
    let b := <[0%nat := PP_CustomPhysics v]> b in
    (* q := b[1:] *)
    let b := LittleEndian_PutUint32 b (1 + 0 * 4) (PP_Density v) in
    let b := LittleEndian_PutUint32 b (1 + 1 * 4) (PP_Friction v) in
    let b := LittleEndian_PutUint32 b (1 + 2 * 4) (PP_Elasticity v) in
    let b := LittleEndian_PutUint32 b (1 + 3 * 4) (PP_FrictionWeight v) in
    LittleEndian_PutUint32 b (1 + 4 * 4) (PP_ElasticityWeight v)
  else make 1.

(** [b] is the contents of the slice and [spare] holds the bytes of its
    backing array between [len(b)] and [cap(b)].  [p := b[1:]] keeps that
    capacity, and Go bounds [p[lo:hi]] by the capacity and not by the
    length: on a one-byte [b] the five floats are read from [spare], and the
    slice expression panics only where [hi] exceeds the capacity. *)
Definition ValuePhysicalProperties_FromBytes_cap (b spare : list byte)
  : result ValuePhysicalProperties :=
  match b with
  | [] => Panic                 (* b[0]: index out of range *)
  | b0 :: _ =>
    if (b0 =? 0) && negb (length b =? 21)%nat then Err (ErrArrayLength 21)
    else if negb (b0 =? 0) && negb (length b =? 1)%nat then Err (ErrArrayLength 1)
    else if negb (b0 =? 0) then
      p ← slice_from b 1;
      let backing := p ++ spare in
      p0 ← slice backing (0 * 4) (0 * 4 + 4);
      p1 ← slice backing (1 * 4) (1 * 4 + 4);
      p2 ← slice backing (2 * 4) (2 * 4 + 4);
      p3 ← slice backing (3 * 4) (3 * 4 + 4);
      p4 ← slice backing (4 * 4) (4 * 4 + 4);
      Ok (mkPhysicalProperties b0
            (LittleEndian_Uint32 p0 0) (LittleEndian_Uint32 p1 0)
            (LittleEndian_Uint32 p2 0) (LittleEndian_Uint32 p3 0)
            (LittleEndian_Uint32 p4 0))
    else Ok (mkPhysicalProperties b0 0 0 0 0 0)
  end.

(** [FromBytes] on a slice whose capacity is its length, as a slice literal
    and the result of [Bytes] are. *)
Definition ValuePhysicalProperties_FromBytes (b : list byte)
  : result ValuePhysicalProperties :=
  ValuePhysicalProperties_FromBytes_cap b [].

(** *** Color3uint8 *)

Definition ValueColor3uint8_Bytes (v : ValueColor3uint8) : list byte :=
  let b := make 3 in
  let b := <[0%nat := Color3uint8_R v]> b in
  let b := <[1%nat := Color3uint8_G v]> b in
  <[2%nat := Color3uint8_B v]> b.

Definition ValueColor3uint8_FromBytes (b : list byte) : result ValueColor3uint8 :=
  if negb (length b =? 3)%nat then Err (ErrArrayLength 3)
  else Ok (mkColor3uint8 (get b 0) (get b 1) (get b 2)).

Definition ValueColor3uint8_fieldLen : list nat := [1; 1; 1]%nat.

(** [b[0]] panics on an empty slice. *)
Definition ValueColor3uint8_fieldSet (v : ValueColor3uint8) (i : nat) (b : list byte)
  : result ValueColor3uint8 :=
  match i with
  | 0%nat => match b with
             | [] => Panic
             | x :: _ => Ok (mkColor3uint8 x (Color3uint8_G v) (Color3uint8_B v))
             end
  | 1%nat => match b with
             | [] => Panic
             | x :: _ => Ok (mkColor3uint8 (Color3uint8_R v) x (Color3uint8_B v))
             end
  | 2%nat => match b with
             | [] => Panic
             | x :: _ => Ok (mkColor3uint8 (Color3uint8_R v) (Color3uint8_G v) x)
             end
  | _ => Ok v
  end.

Definition ValueColor3uint8_fieldGet (v : ValueColor3uint8) (i : nat) : list byte :=
  match i with
  | 0%nat => [Color3uint8_R v]
  | 1%nat => [Color3uint8_G v]
  | 2%nat => [Color3uint8_B v]
  | _ => []
  end.

(** *** Int64 *)

Definition ValueInt64_Bytes (v : Z) : list byte :=
  BigEndian_PutUint64 (make 8) 0 (encodeZigzag64 v).

Definition ValueInt64_FromBytes (b : list byte) : result Z :=
  if negb (length b =? 8)%nat then Err (ErrArrayLength 8)
  else Ok (decodeZigzag64 (BigEndian_Uint64 b 0)).

(** *** SharedString *)

Definition ValueSharedString_Bytes (v : Z) : list byte :=
  BigEndian_PutUint32 (make 4) 0 v.

Definition ValueSharedString_FromBytes (b : list byte) : result Z :=
  if negb (length b =? 4)%nat then Err (ErrArrayLength 4)
  else Ok (BigEndian_Uint32 b 0).

(** ** Method dispatch on the interface [Value] *)

(** [v.Bytes()] *)
Definition Bytes (v : Value) : list byte :=
  match v with
  | VString v => ValueString_Bytes v
  | VBool v => ValueBool_Bytes v
  | VInt v => ValueInt_Bytes v
  | VFloat v => ValueFloat_Bytes v
  | VDouble v => ValueDouble_Bytes v
  | VUDim v => ValueUDim_Bytes v
  | VUDim2 v => ValueUDim2_Bytes v
  | VRay v => ValueRay_Bytes v
  | VFaces v => ValueFaces_Bytes v
  | VAxes v => ValueAxes_Bytes v
  | VBrickColor v => ValueBrickColor_Bytes v
  | VColor3 v => ValueColor3_Bytes v
  | VVector2 v => ValueVector2_Bytes v
  | VVector3 v => ValueVector3_Bytes v
  | VVector2int16 v => ValueVector2int16_Bytes v
  | VCFrame v => ValueCFrame_Bytes v
  | VToken v => ValueToken_Bytes v
  | VReference v => ValueReference_Bytes v
  | VVector3int16 v => ValueVector3int16_Bytes v
  | VNumberSequence v => ValueNumberSequence_Bytes v
  | VColorSequence v => ValueColorSequence_Bytes v
  | VNumberRange v => ValueNumberRange_Bytes v
  | VRect2D v => ValueRect2D_Bytes v
  | VPhysicalProperties v => ValuePhysicalProperties_Bytes v
  | VColor3uint8 v => ValueColor3uint8_Bytes v
  | VInt64 v => ValueInt64_Bytes v
  | VSharedString v => ValueSharedString_Bytes v
  end.

(** [v.FromBytes(b)]: [Ok v'] when the call returns [nil] and leaves [v'] in
    the receiver; [Err e] when it returns [e] (the receiver is unchanged). *)
Definition FromBytes (v : Value) (b : list byte) : result Value :=
  match v with
  | VString _ => VString <$> ValueString_FromBytes b
  | VBool _ => VBool <$> ValueBool_FromBytes b
  | VInt _ => VInt <$> ValueInt_FromBytes b
  | VFloat _ => VFloat <$> ValueFloat_FromBytes b
  | VDouble _ => VDouble <$> ValueDouble_FromBytes b
  | VUDim v => VUDim <$> ValueUDim_FromBytes v b
  | VUDim2 v => VUDim2 <$> ValueUDim2_FromBytes v b
  | VRay _ => VRay <$> ValueRay_FromBytes b
  | VFaces _ => VFaces <$> ValueFaces_FromBytes b
  | VAxes _ => VAxes <$> ValueAxes_FromBytes b
  | VBrickColor _ => VBrickColor <$> ValueBrickColor_FromBytes b
  | VColor3 v => VColor3 <$> ValueColor3_FromBytes v b
  | VVector2 v => VVector2 <$> ValueVector2_FromBytes v b
  | VVector3 v => VVector3 <$> ValueVector3_FromBytes v b
  | VVector2int16 _ => VVector2int16 <$> ValueVector2int16_FromBytes b
  | VCFrame v => VCFrame <$> ValueCFrame_FromBytes v b
  | VToken _ => VToken <$> ValueToken_FromBytes b
  | VReference _ => VReference <$> ValueReference_FromBytes b
  | VVector3int16 _ => VVector3int16 <$> ValueVector3int16_FromBytes b
  | VNumberSequence _ => VNumberSequence <$> ValueNumberSequence_FromBytes b
  | VColorSequence _ => VColorSequence <$> ValueColorSequence_FromBytes b
  | VNumberRange _ => VNumberRange <$> ValueNumberRange_FromBytes b
  | VRect2D v => VRect2D <$> ValueRect2D_FromBytes v b
  | VPhysicalProperties _ => VPhysicalProperties <$> ValuePhysicalProperties_FromBytes b
  | VColor3uint8 _ => VColor3uint8 <$> ValueColor3uint8_FromBytes b
  | VInt64 _ => VInt64 <$> ValueInt64_FromBytes b
  | VSharedString _ => VSharedString <$> ValueSharedString_FromBytes b
  end.

(** [valueGenerators[typ]()]: the zero value of the type, [None] when the
    map has no entry. *)
Definition newValue (typ : Type_) : option Value :=
  if typ =? TypeString then Some (VString [])
  else if typ =? TypeBool then Some (VBool false)
  else if typ =? TypeInt then Some (VInt 0)
  else if typ =? TypeFloat then Some (VFloat 0)
  else if typ =? TypeDouble then Some (VDouble 0)
  else if typ =? TypeUDim then Some (VUDim (mkUDim 0 0))
  else if typ =? TypeUDim2 then Some (VUDim2 (mkUDim2 0 0 0 0))
  else if typ =? TypeRay then Some (VRay (mkRay 0 0 0 0 0 0))
  else if typ =? TypeFaces then Some (VFaces (mkFaces false false false false false false))
  else if typ =? TypeAxes then Some (VAxes (mkAxes false false false))
  else if typ =? TypeBrickColor then Some (VBrickColor 0)
  else if typ =? TypeColor3 then Some (VColor3 (mkColor3 0 0 0))
  else if typ =? TypeVector2 then Some (VVector2 (mkVector2 0 0))
  else if typ =? TypeVector3 then Some (VVector3 (mkVector3 0 0 0))
  else if typ =? TypeVector2int16 then Some (VVector2int16 (mkVector2int16 0 0))
  else if typ =? TypeCFrame
  then Some (VCFrame (mkCFrame 0 (replicate 9 0) (mkVector3 0 0 0)))
  else if typ =? TypeToken then Some (VToken 0)
  else if typ =? TypeReference then Some (VReference 0)
  else if typ =? TypeVector3int16 then Some (VVector3int16 (mkVector3int16 0 0 0))
  else if typ =? TypeNumberSequence then Some (VNumberSequence [])
  else if typ =? TypeColorSequence then Some (VColorSequence [])
  else if typ =? TypeNumberRange then Some (VNumberRange (mkNumberRange 0 0))
  else if typ =? TypeRect2D
  then Some (VRect2D (mkRect2D (mkVector2 0 0) (mkVector2 0 0)))
  else if typ =? TypePhysicalProperties
  then Some (VPhysicalProperties (mkPhysicalProperties 0 0 0 0 0 0))
  else if typ =? TypeColor3uint8 then Some (VColor3uint8 (mkColor3uint8 0 0 0))
  else if typ =? TypeInt64 then Some (VInt64 0)
  else if typ =? TypeSharedString then Some (VSharedString 0)
  else None.

(** *** The interface [fielder] *)

(** [_, ok := v.(fielder)] *)
Definition is_fielder (v : Value) : bool :=
  match v with
  | VUDim _ | VUDim2 _ | VColor3 _ | VVector2 _ | VVector3 _
  | VRect2D _ | VColor3uint8 _ => true
  | _ => false
  end.

Definition fieldLen (v : Value) : list nat :=
  match v with
  | VUDim _ => ValueUDim_fieldLen
  | VUDim2 _ => ValueUDim2_fieldLen
  | VColor3 _ => ValueColor3_fieldLen
  | VVector2 _ => ValueVector2_fieldLen
  | VVector3 _ => ValueVector3_fieldLen
  | VRect2D _ => ValueRect2D_fieldLen
  | VColor3uint8 _ => ValueColor3uint8_fieldLen
  | _ => []
  end.

Definition fieldSet (v : Value) (i : nat) (b : list byte) : result Value :=
  match v with
  | VUDim v => VUDim <$> ValueUDim_fieldSet v i b
  | VUDim2 v => VUDim2 <$> ValueUDim2_fieldSet v i b
  | VColor3 v => VColor3 <$> ValueColor3_fieldSet v i b
  | VVector2 v => VVector2 <$> ValueVector2_fieldSet v i b
  | VVector3 v => VVector3 <$> ValueVector3_fieldSet v i b
  | VRect2D v => VRect2D <$> ValueRect2D_fieldSet v i b
  | VColor3uint8 v => VColor3uint8 <$> ValueColor3uint8_fieldSet v i b
  | _ => Panic
  end.

Definition fieldGet (v : Value) (i : nat) : list byte :=
  match v with
  | VUDim v => ValueUDim_fieldGet v i
  | VUDim2 v => ValueUDim2_fieldGet v i
  | VColor3 v => ValueColor3_fieldGet v i
  | VVector2 v => ValueVector2_fieldGet v i
  | VVector3 v => ValueVector3_fieldGet v i
  | VRect2D v => ValueRect2D_fieldGet v i
  | VColor3uint8 v => ValueColor3uint8_fieldGet v i
  | _ => []
  end.

(** ** The array codec (arrays.go) *)

(** [nbytes[f]], [ofields[f]] *)
Definition at_nat (l : list nat) (i : nat) : nat := default 0%nat (l !! i).

(** [for _, n := range nbytes { tbytes += n }] *)
Definition total_bytes (nbytes : list nat) : nat :=
  foldl (λ tbytes n, (tbytes + n)%nat) 0%nat nbytes.

(** [ofields[0] = 0; ofields[i+1] = ofields[i] + n*nvalues], the list being
    started at the offset [o]. *)
Fixpoint offsets (o : nat) (nbytes : list nat) (nvalues : nat) : list nat :=
  o :: match nbytes with
       | [] => []
       | n :: nbytes => offsets (o + n * nvalues) nbytes nvalues
       end.

(** [fields[i] = b[ofields[i]:ofields[i+1]]]: a field slice is a window
    [(lo, hi)] into the array [b] it shares its bytes with. *)
Definition windows (ofields : list nat) : list (nat * nat) :=
  zip ofields (drop 1 ofields).

(** Run an in-place operation on the window [b[lo:hi]] of [b]. *)
Definition on_window (b : list byte) (lo hi : nat)
    (f : list byte → result (list byte)) : result (list byte) :=
  seg ← f (take (hi - lo) (drop lo b));
  Ok (take lo b ++ seg ++ drop hi b).

Definition interleaveFields (id : Type_) (a : list Value) : result (list byte) :=
  match a with
  | [] => Ok []
  | v0 :: _ =>
    _ ← for_each a (λ i v (_ : unit),
          if negb (is_fielder v) then Panic       (* v.(fielder) *)
          else if negb (Type_of v =? id)
          then Err (ErrElementType i (Type_of v) id)
          else Ok ()) ();
    let nbytes := fieldLen v0 in
    let nvalues := length a in
    let tbytes := total_bytes nbytes in
    let ofields := offsets 0 nbytes nvalues in
    let b := make (tbytes * nvalues) in
    let fields := windows ofields in
    b ← for_each a (λ i v b,
          for_each fields (λ f '(lo, hi) b,
            let fb := fieldGet v f in
            if negb (length fb =? at_nat nbytes f)%nat then Panic
            else Ok (copy_to b (lo + i * at_nat nbytes f) hi fb)) b) b;
    for_each fields (λ i '(lo, hi) b,
      on_window b lo hi (λ field, interleave field (Z.of_nat (at_nat nbytes i)))) b
  end.

(** The pair is what the call returns and what it leaves in [b]: the field
    slices are deinterleaved in place. *)
Definition deinterleaveFields_run (id : Type_) (b : list byte)
  : result (list Value) * list byte :=
  if (length b =? 0)%nat then (Ok [], b)
  else
    match newValue id with
    | None => (Err (ErrInvalidType id), b)
    | Some zero =>
      if negb (is_fielder zero) then (Panic, b)   (* newValue().(fielder) *)
      else
        let nbytes := fieldLen zero in
        let tbytes := total_bytes nbytes in
        if (tbytes =? 0)%nat then (Panic, b)     (* len(b)%tbytes: division by zero *)
        else if negb (length b `mod` tbytes =? 0)%nat
        then (Err (ErrNotDivisible (Z.of_nat (length b)) (Z.of_nat tbytes)), b)
        else
          let nvalues := (length b / tbytes)%nat in
          let ofields := offsets 0 nbytes nvalues in
          let fields := windows ofields in
          (* Deinterleave each field slice independently; an error leaves the
             earlier field slices deinterleaved. *)
          let '(err, b) :=
            foldl (λ '(err, b) '(i, (lo, hi)),
                     match err with
                     | Ok () =>
                         match on_window b lo hi
                                 (λ field, deinterleave field (Z.of_nat (at_nat nbytes i))) with
                         | Ok b' => (Ok (), b')
                         | Err e => (Err e, b)
                         | Panic => (Panic, b)
                         end
                     | _ => (err, b)
                     end)
                  (Ok (), b) (zip (seq 0 (length fields)) fields) in
          match err with
          | Err e => (Err e, b)
          | Panic => (Panic, b)
          | Ok () =>
            (for_each (seq 0 nvalues) (λ _ i a,
               v ← for_each fields (λ f '(lo, hi) v,
                      let n := at_nat nbytes f in
                      fb ← slice b (lo + i * n) (lo + i * n + n);
                      ignore_err v (fieldSet v f fb)) zero;
               Ok (a ++ [v])) [], b)
          end
    end.

Definition deinterleaveFields (id : Type_) (b : list byte) : result (list Value) :=
  (deinterleaveFields_run id b).1.

Definition appendValueBytes (id : Type_) (a : list Value) : result (list byte) :=
  for_each a (λ i v b,
    if negb (Type_of v =? id) then Err (ErrElementType i (Type_of v) id)
    else Ok (b ++ Bytes v)) [].

(** [gen()] where [gen := valueGenerators[id]]; calling a nil func panics. *)
Definition gen (id : Type_) : result Value :=
  match newValue id with
  | Some v => Ok v
  | None => Panic
  end.

Definition appendByteValues (id : Type_) (b : list byte) (size : Z) (field : nat)
  : result (list Value) :=
  if size <? 0 then
    loop (S (length b)) (λ '(ba, a),
      if (0 <? length ba)%nat then
        if (length ba <? 4)%nat then Err (ErrExpectedMore 4)
        else
          let size := Z.to_nat (LittleEndian_Uint32 ba 0) in
          rest ← slice_from ba 4;
          if (length rest <? size * field)%nat
          then Err (ErrExpectedMore (Z.of_nat (size * field)))
          else
            v ← gen id;
            chunk ← slice ba 0 (4 + size * field);
            v ← FromBytes v chunk;
            ba ← slice_from ba (4 + size * field);
            Ok (inl (ba, a ++ [v]))
      else Ok (inr a)) (b, [])
  else
    let size := Z.to_nat size in
    loop (S (length b)) (λ '(i, a),
      if (i + size <=? length b)%nat then
        v ← gen id;
        chunk ← slice b i (i + size);
        v ← FromBytes v chunk;
        Ok (inl ((i + size)%nat, a ++ [v]))
      else Ok (inr a)) (0%nat, []).

Definition ValuesToBytes (t : Type_) (a : list Value) : result (list byte) :=
  if negb (Valid t) then Err (ErrInvalidType t)
  else
    _ ← for_each a (λ i v (_ : unit),
          if negb (Type_of v =? t) then Err (ErrElementType i (Type_of v) t)
          else Ok ()) ();
    if case_of t [TypeString; TypeBool; TypeDouble; TypeRay; TypeFaces; TypeAxes;
                  TypeVector3int16; TypeNumberSequence; TypeColorSequence;
                  TypeNumberRange]
    then appendValueBytes t a
    else if case_of t [TypeInt; TypeFloat; TypeBrickColor; TypeToken; TypeSharedString]
    then b ← appendValueBytes t a; interleave b 4
    else if case_of t [TypeInt64]
    then b ← appendValueBytes t a; interleave b 8
    else if case_of t [TypeUDim; TypeUDim2; TypeColor3; TypeVector2; TypeVector3;
                       TypeRect2D; TypeColor3uint8]
    then interleaveFields t a
    else if case_of t [TypeCFrame]
    then
      (* p[i] is assigned for i = 0, 1, ...: p is built by appending *)
      '(b, p) ← for_each a (λ i cf '(b, p),
          match cf with
          | VCFrame cf =>
            let b := b ++ [CFrame_Special cf] in
            let b :=
              if CFrame_Special cf =? 0 then
                let r := make (9 * 4) in
                let r := for_range 9 (λ i r,
                  LittleEndian_PutUint32 r (i * 4) (get (CFrame_Rotation cf) i)) r in
                b ++ r
              else b in
            Ok (b, p ++ [VVector3 (CFrame_Position cf)])
          | _ => Panic            (* cf.( *ValueCFrame) *)
          end) ([], []);
      (* pb, _ := interleaveFields(TypeVector3, p) *)
      pb ← ignore_err [] (interleaveFields TypeVector3 p);
      Ok (b ++ pb)
    else if case_of t [TypeReference]
    then
      if (length a =? 0)%nat then Ok []
      else
        let size := 4%nat in
        let b := make (length a * size) in
        '(b, _) ← for_each a (λ i ref '(b, prev),
          match ref with
          | VReference ref =>
            let b :=
              if (i =? 0)%nat
              then copy_to b (i * size) (i * size + size) (ValueReference_Bytes ref)
              else copy_to b (i * size) (i * size + size)
                     (ValueReference_Bytes (to_i32 (ref - prev))) in
            Ok (b, ref)
          | _ => Panic            (* ref.( *ValueReference) *)
          end) (b, 0);
        interleave b (Z.of_nat size)
    else if case_of t [TypePhysicalProperties]
    then
      '(b, _) ← for_each a (λ _ pp '(b, q),
          match pp with
          | VPhysicalProperties pp =>
            let b := b ++ [PP_CustomPhysics pp] in
            if negb (PP_CustomPhysics pp =? 0) then
              let q := LittleEndian_PutUint32 q (0 * 4) (PP_Density pp) in
              let q := LittleEndian_PutUint32 q (1 * 4) (PP_Friction pp) in
              let q := LittleEndian_PutUint32 q (2 * 4) (PP_Elasticity pp) in
              let q := LittleEndian_PutUint32 q (3 * 4) (PP_FrictionWeight pp) in
              let q := LittleEndian_PutUint32 q (4 * 4) (PP_ElasticityWeight pp) in
              Ok (b ++ q, q)
            else Ok (b, q)
          | _ => Panic            (* pp.( *ValuePhysicalProperties) *)
          end) ([], make 20);
      Ok b
    else if case_of t [TypeVector2int16]
    then Err ErrNotImplemented
    else Ok [].

(** The first loop of the [TypeCFrame] case of [ValuesFromBytes]: it reads
    the matrix data.  [i] is the position in [b], [n] the expected size of
    the position data.  The result is the final [i] and the matrices. *)
Definition readMatrices (b : list byte) : result (nat * list ValueCFrame) :=
  loop (S (length b)) (λ '(i, n, cfs),
    if (n <? length b - i)%nat then
      match b !! i with
      | None => Panic
      | Some special =>
        let i := S i in
        if special =? 0 then
          let q := (9 * 4)%nat in
          r ← slice_from b i;
          if (length r <? q)%nat then Err (ErrExpectedMore (Z.of_nat q))
          else
            let rotation := for_range 9 (λ k rot,
              <[k := LittleEndian_Uint32 r (k * 4)]> rot) (replicate 9 0) in
            Ok (inl ((i + q)%nat, (n + 12)%nat,
                     cfs ++ [mkCFrame special rotation (mkVector3 0 0 0)]))
        else
          Ok (inl (i, (n + 12)%nat,
                   cfs ++ [mkCFrame special (replicate 9 0) (mkVector3 0 0 0)]))
      end
    else Ok (inr (i, cfs))) (0%nat, 0%nat, []).

(** The pair is what the call returns and what it leaves in [b]. *)
Definition ValuesFromBytes_run (t : Type_) (b : list byte)
  : result (list Value) * list byte :=
  if negb (Valid t) then (Err (ErrInvalidType t), b)
  else if case_of t [TypeBool; TypeFaces; TypeAxes]
  then (appendByteValues t b 1 0, b)
  else if case_of t [TypeVector3int16]
  then (appendByteValues t b 6 0, b)
  else if case_of t [TypeDouble; TypeNumberRange]
  then (appendByteValues t b 8 0, b)
  else if case_of t [TypeRay]
  then (appendByteValues t b 24 0, b)
  else if case_of t [TypeString]
  then (appendByteValues t b (-1) 1, b)
  else if case_of t [TypeNumberSequence]
  then (appendByteValues t b (-1) sizeNSK, b)
  else if case_of t [TypeColorSequence]
  then (appendByteValues t b (-1) sizeCSK, b)
  else if case_of t [TypeInt; TypeFloat; TypeBrickColor; TypeToken; TypeSharedString]
  then
    let bc := copy_at (make (length b)) 0 b in
    (bc ← deinterleave bc 4; appendByteValues t bc 4 0, b)
  else if case_of t [TypeInt64]
  then
    let bc := copy_at (make (length b)) 0 b in
    (bc ← deinterleave bc 8; appendByteValues t bc 8 0, b)
  else if case_of t [TypeUDim; TypeUDim2; TypeColor3; TypeVector2; TypeVector3;
                     TypeRect2D; TypeColor3uint8]
  then deinterleaveFields_run t b
  else if case_of t [TypeCFrame]
  then
    match readMatrices b with
    | Err e => (Err e, b)
    | Panic => (Panic, b)
    | Ok (i, cfs) =>
      (* deinterleaveFields(TypeVector3, b[i:]) works on the tail of b *)
      let '(a, tail) := deinterleaveFields_run TypeVector3 (drop i b) in
      let b := take i b ++ tail in
      match a with
      | Err e => (Err e, b)
      | Panic => (Panic, b)
      | Ok a =>
        if negb (length a =? length cfs)%nat then (Err ErrPositionCount, b)
        else
          (for_each a (λ i p a',
             match p, cfs !! i with
             | VVector3 p, Some cf =>
                 Ok (a' ++ [VCFrame (mkCFrame (CFrame_Special cf) (CFrame_Rotation cf) p)])
             | _, _ => Panic
             end) [], b)
      end
    end
  else if case_of t [TypeReference]
  then
    if (length b =? 0)%nat then (Ok [], b)
    else
      let size := 4%nat in
      if negb (length b `mod` size =? 0)%nat
      then (Err (ErrMustBeDivisible (Z.of_nat size)), b)
      else
        let bc := copy_at (make (length b)) 0 b in
        (bc ← deinterleave bc (Z.of_nat size);
         for_each (seq 0 (length bc / size)) (λ _ i a,
           chunk ← slice bc (i * size) (i * size + size);
           ref ← ignore_err 0 (ValueReference_FromBytes chunk);
           ref ← (if (0 <? i)%nat then
                    match a !! (i - 1)%nat with
                    | Some (VReference r) => Ok (to_i32 (r + ref))
                    | _ => Panic
                    end
                  else Ok ref);
           Ok (a ++ [VReference ref])) [], b)
  else if case_of t [TypePhysicalProperties]
  then
    (loop (S (length b)) (λ '(i, a),
       if (i <? length b)%nat then
         match b !! i with
         | None => Panic
         | Some custom =>
           let i := S i in
           if negb (custom =? 0) then
             let size := (5 * 4)%nat in
             p ← slice_from b i;
             if (length p <? size)%nat then Err (ErrExpectedMore (Z.of_nat size))
             else
               Ok (inl ((i + size)%nat,
                        a ++ [VPhysicalProperties
                                (mkPhysicalProperties custom
                                   (LittleEndian_Uint32 p (0 * 4))
                                   (LittleEndian_Uint32 p (1 * 4))
                                   (LittleEndian_Uint32 p (2 * 4))
                                   (LittleEndian_Uint32 p (3 * 4))
                                   (LittleEndian_Uint32 p (4 * 4)))]))
           else
             Ok (inl (i, a ++ [VPhysicalProperties
                                 (mkPhysicalProperties custom 0 0 0 0 0)]))
         end
       else Ok (inr a)) (0%nat, []), b)
  else if case_of t [TypeVector2int16]
  then (Err ErrNotImplemented, b)
  else (Ok [], b).

Definition ValuesFromBytes (t : Type_) (b : list byte) : result (list Value) :=
  (ValuesFromBytes_run t b).1.

(** The contents of the caller's [b] after [ValuesFromBytes(t, b)]. *)
Definition ValuesFromBytes_buffer (t : Type_) (b : list byte) : list byte :=
  (ValuesFromBytes_run t b).2.

(** ** Auxiliary notions used in the statements and invariants below *)

(** The state of the in-place transposition when the outer loop is in row
    [r0] and the inner loop has reached column [c0]: the positions [(i, j)]
    that already hold their transposed value. *)
Definition transposed_upto (r0 c0 i j : nat) : bool :=
  bool_decide ((i < r0 ∧ j < r0) ∨ (i = r0 ∧ j < c0) ∨ (j = r0 ∧ i < c0))%nat.

(** Bit [i] of [n], as a number. *)
Definition bit_count (n : Z) (i : nat) : nat := Nat.b2n (Z.testbit n (Z.of_nat i)).

(** The zigzag codecs of width [w]: [encodeZigzag32] and [encodeZigzag64]
    are the instances at 32 and 64 (see [encodeZigzag32_generic]). *)
Definition encodeZigzag (w : Z) (n : Z) : Z :=
  to_unsigned w (Z.lxor (to_signed w (Z.shiftl n 1)) (Z.shiftr n (w - 1))).

Definition decodeZigzag (w : Z) (n : Z) : Z :=
  to_signed w (Z.lxor (Z.shiftr n 1)
    (to_unsigned w (Z.shiftr (to_signed w
       (Z.shiftl (to_signed w (Z.land n 1)) (w - 1))) (w - 1)))).

(** ** Well-formed values

    What the Go types guarantee of a value: every integer lies in the range
    of its type, every [float32] bit pattern in that of [uint32], a
    [[9]float32] has nine elements.  The length prefix of the format has 32
    bits, so a string or a sequence that the format can hold has fewer than
    [2^32] elements. *)

Definition wf_Vector2 (v : ValueVector2) : Prop :=
  is_u32 (Vector2_X v) ∧ is_u32 (Vector2_Y v).

Definition wf_Vector3 (v : ValueVector3) : Prop :=
  is_u32 (Vector3_X v) ∧ is_u32 (Vector3_Y v) ∧ is_u32 (Vector3_Z v).

Definition wf_Color3 (v : ValueColor3) : Prop :=
  is_u32 (Color3_R v) ∧ is_u32 (Color3_G v) ∧ is_u32 (Color3_B v).

Definition wf_NSK (k : ValueNumberSequenceKeypoint) : Prop :=
  is_u32 (NSK_Time k) ∧ is_u32 (NSK_Value k) ∧ is_u32 (NSK_Envelope k).

Definition wf_CSK (k : ValueColorSequenceKeypoint) : Prop :=
  is_u32 (CSK_Time k) ∧ wf_Color3 (CSK_Value k) ∧ is_u32 (CSK_Envelope k).

Definition wf_Value (v : Value) : Prop :=
  match v with
  | VString s => Forall is_byte s ∧ Z.of_nat (length s) < 2^32
  | VBool _ => True
  | VInt n => is_i32 n
  | VFloat f => is_u32 f
  | VDouble f => is_u64 f
  | VUDim v => is_u32 (UDim_Scale v) ∧ is_i32 (UDim_Offset v)
  | VUDim2 v => is_u32 (UDim2_ScaleX v) ∧ is_u32 (UDim2_ScaleY v) ∧
                is_i32 (UDim2_OffsetX v) ∧ is_i32 (UDim2_OffsetY v)
  | VRay v => is_u32 (Ray_OriginX v) ∧ is_u32 (Ray_OriginY v) ∧
              is_u32 (Ray_OriginZ v) ∧ is_u32 (Ray_DirectionX v) ∧
              is_u32 (Ray_DirectionY v) ∧ is_u32 (Ray_DirectionZ v)
  | VFaces _ => True
  | VAxes _ => True
  | VBrickColor n => is_u32 n
  | VColor3 v => wf_Color3 v
  | VVector2 v => wf_Vector2 v
  | VVector3 v => wf_Vector3 v
  | VVector2int16 v => is_i16 (Vector2int16_X v) ∧ is_i16 (Vector2int16_Y v)
  | VCFrame v => is_byte (CFrame_Special v) ∧
                 length (CFrame_Rotation v) = 9%nat ∧
                 Forall is_u32 (CFrame_Rotation v) ∧
                 wf_Vector3 (CFrame_Position v)
  | VToken n => is_u32 n
  | VReference n => is_i32 n
  | VVector3int16 v => is_i16 (Vector3int16_X v) ∧ is_i16 (Vector3int16_Y v) ∧
                       is_i16 (Vector3int16_Z v)
  | VNumberSequence l => Forall wf_NSK l ∧ Z.of_nat (length l) < 2^32
  | VColorSequence l => Forall wf_CSK l ∧ Z.of_nat (length l) < 2^32
  | VNumberRange v => is_u32 (NumberRange_Min v) ∧ is_u32 (NumberRange_Max v)
  | VRect2D v => wf_Vector2 (Rect2D_Min v) ∧ wf_Vector2 (Rect2D_Max v)
  | VPhysicalProperties v =>
      is_byte (PP_CustomPhysics v) ∧ is_u32 (PP_Density v) ∧
      is_u32 (PP_Friction v) ∧ is_u32 (PP_Elasticity v) ∧
      is_u32 (PP_FrictionWeight v) ∧ is_u32 (PP_ElasticityWeight v)
  | VColor3uint8 v => is_byte (Color3uint8_R v) ∧ is_byte (Color3uint8_G v) ∧
                      is_byte (Color3uint8_B v)
  | VInt64 n => is_i64 n
  | VSharedString n => is_u32 n
  end.

(** What decoding makes of a value whose discriminator hides fields: the
    rotation of a [CFrame] with [Special != 0] and the five floats of a
    [PhysicalProperties] with [CustomPhysics == 0] are not stored and come
    back as zero. *)
Definition normalize (v : Value) : Value :=
  match v with
  | VCFrame cf =>
      if CFrame_Special cf =? 0 then v
      else VCFrame (mkCFrame (CFrame_Special cf) (replicate 9 0) (CFrame_Position cf))
  | VPhysicalProperties pp =>
      if PP_CustomPhysics pp =? 0
      then VPhysicalProperties (mkPhysicalProperties (PP_CustomPhysics pp) 0 0 0 0 0)
      else v
  | _ => v
  end.

(** The kinds whose array is the concatenation of the values' bytes,
    interleaved as a whole with stride 4 or 8. *)
Definition stride_interleaved (t : Type_) : bool :=
  case_of t [TypeInt; TypeFloat; TypeBrickColor; TypeToken; TypeSharedString;
             TypeInt64].

(** What [interleave(bytes, cols)] leaves in a buffer of [rows * cols]
    bytes (see [interleave_eq]). *)
Definition transpose (rows cols : nat) (bytes : list byte) : list byte :=
  if (rows =? cols)%nat then transposeSquare rows cols bytes
  else transposeRect rows cols bytes.

(** Column [f] of an array of fielders: the bytes of field [f] of every
    value, one after the other. *)
Definition column (a : list Value) (f : nat) : list byte :=
  concat ((λ v, fieldGet v f) <$> a).

(** Column [f] while [interleaveFields] copies the fields into [b], when the
    first [i] values are done: the rest of the column is still zero. *)
Definition column_upto (a : list Value) (nbytes : list nat) (i f : nat) : list byte :=
  column (take i a) f ++ replicate (at_nat nbytes f * (length a - i)) 0.

(** The inner loop of the last loop of [deinterleaveFields], once the field
    slices hold the bytes [fieldGet v f]: it sets the fields of a new value
    one by one. *)
Definition rebuild (zero v : Value) : result Value :=
  for_each (fieldLen zero) (λ f (_ : nat) u, ignore_err u (fieldSet u f (fieldGet v f))) zero.

(** The matrix part that the [TypeCFrame] case of [ValuesToBytes] writes for
    one value: [Special], followed by the nine floats of the rotation when
    [Special == 0]. *)
Definition CFrame_matrix (cf : ValueCFrame) : list byte :=
  CFrame_Special cf ::
  (if CFrame_Special cf =? 0 then
     for_range 9 (λ i r,
       LittleEndian_PutUint32 r (i * 4) (get (CFrame_Rotation cf) i)) (make (9 * 4))
   else []).

(** The matrix that the first loop of the [TypeCFrame] case of
    [ValuesFromBytes] reads back: the position is still zero. *)
Definition CFrame_read (cf : ValueCFrame) : ValueCFrame :=
  mkCFrame (CFrame_Special cf)
    (if CFrame_Special cf =? 0 then CFrame_Rotation cf else replicate 9 0)
    (mkVector3 0 0 0).

(** * Properties *)

(** ** Loops and the interleave primitive *)

Section Interleave.
Local Close Scope Z_scope.

Lemma for_range_S {S} n (body : nat → S → S) s :
  for_range (Datatypes.S n) body s = body n (for_range n body s).
Proof. unfold for_range. rewrite seq_S, foldl_app. reflexivity. Qed.

Lemma for_range_ind {S} (P : nat → S → Prop) n (body : nat → S → S) s :
  P 0%nat s →
  (∀ i s, (i < n)%nat → P i s → P (Datatypes.S i) (body i s)) →
  P n (for_range n body s).
Proof.
  intros H0 Hstep. induction n as [|n IH].
  - exact H0.
  - rewrite for_range_S. apply Hstep; [lia|]. apply IH.
    intros i s' Hi. apply Hstep. lia.
Qed.

Lemma for_range_inv {S} (P : nat → S → Prop) (Q : S → Prop) n (body : nat → S → S) s :
  P 0%nat s →
  (∀ i s, (i < n)%nat → P i s → P (Datatypes.S i) (body i s)) →
  (∀ s, P n s → Q s) →
  Q (for_range n body s).
Proof. intros H0 Hstep HQ. apply HQ. by apply for_range_ind. Qed.

Lemma index_inj (n r c r' c' : nat) :
  (r < n)%nat → (r' < n)%nat → (c * n + r = c' * n + r')%nat → c = c' ∧ r = r'.
Proof.
  intros Hr Hr' Heq.
  apply (Nat.div_mod_unique n c c' r r'); lia.
Qed.

Lemma index_lt (rows cols r c : nat) :
  (r < rows)%nat → (c < cols)%nat → (c * rows + r < rows * cols)%nat.
Proof. intros. nia. Qed.

Lemma index_decompose (rows cols k : nat) :
  (k < rows * cols)%nat →
  ∃ r c, (r < rows)%nat ∧ (c < cols)%nat ∧ k = (c * rows + r)%nat.
Proof.
  intros Hk. assert (rows ≠ 0)%nat by lia.
  exists (k mod rows)%nat, (k / rows)%nat. split; [|split].
  - apply Nat.mod_upper_bound; lia.
  - apply Nat.Div0.div_lt_upper_bound. lia.
  - rewrite (Nat.div_mod_eq k rows) at 1. lia.
Qed.

Lemma get_lookup (l : list byte) i x : l !! i = Some x → get l i = x.
Proof. unfold get. intros ->. reflexivity. Qed.

Lemma lookup_get (l : list byte) i : (i < length l)%nat → l !! i = Some (get l i).
Proof.
  intros Hi. destruct (lookup_lt_is_Some_2 l i Hi) as [x Hx].
  rewrite Hx. f_equal. symmetry. by apply get_lookup.
Qed.

Lemma length_swap i j l : length (swap i j l) = length l.
Proof. unfold swap. by rewrite !length_insert. Qed.

Lemma transposeRect_spec rows cols (bytes : list byte) :
  length bytes = (rows * cols)%nat →
  length (transposeRect rows cols bytes) = length bytes ∧
  ∀ r c, (r < rows)%nat → (c < cols)%nat →
    transposeRect rows cols bytes !! (c * rows + r)%nat = bytes !! (r * cols + c)%nat.
Proof.
  intros Hlen. unfold transposeRect.
  set (N := length bytes).
  set (fill := for_range rows _ (replicate N 0%Z)).
  assert (Hfill : length fill = N ∧
    ∀ r c, (r < rows)%nat → (c < cols)%nat →
      fill !! (c * rows + r)%nat = Some (get bytes (r * cols + c)%nat)).
  { subst fill.
    apply (for_range_ind (λ r0 (tmp : list byte), length tmp = N ∧
      ∀ r c, (r < r0)%nat → (c < cols)%nat →
        tmp !! (c * rows + r)%nat = Some (get bytes (r * cols + c)%nat))).
    - split; [apply length_replicate | intros; lia].
    - intros r0 tmp Hr0 [Hl Hinv].
      apply (for_range_inv (λ c0 (tmp : list byte), length tmp = N ∧
        ∀ r c, (r < r0 ∨ (r = r0 ∧ c < c0))%nat → (c < cols)%nat →
          tmp !! (c * rows + r)%nat = Some (get bytes (r * cols + c)%nat))).
      + split; [done|]. intros r c [Hr|[_ Hc]] Hc'; [by apply Hinv | lia].
      + intros c0 tmp' Hc0 [Hl' Hinv']. split; [by rewrite length_insert|].
        intros r c Hrc Hc.
        destruct (decide (r = r0 ∧ c = c0)) as [[-> ->]|Hne].
        * apply list_lookup_insert_eq. rewrite Hl'. unfold N. rewrite Hlen.
          by apply index_lt.
        * rewrite list_lookup_insert_ne.
          -- apply Hinv'; [|done]. lia.
          -- intros Heq. apply index_inj in Heq; lia.
      + intros tmp' [Hl' Hinv']. split; [done|].
        intros r c Hr Hc. apply Hinv'; [|done]. lia. }
  destruct Hfill as [Hfl Hfill].
  assert (Hcopy : for_range (length fill) (λ i bs, <[i:=get fill i]> bs) bytes = fill).
  { assert (length (for_range (length fill) (λ i bs, <[i:=get fill i]> bs) bytes) = N ∧
      ∀ j, (j < length fill)%nat →
        for_range (length fill) (λ i bs, <[i:=get fill i]> bs) bytes !! j = fill !! j)
      as [Hl Hj].
    { apply (for_range_ind (λ i0 (bs : list byte), length bs = N ∧
        ∀ j, (j < i0)%nat → bs !! j = fill !! j)).
      - split; [done | intros; lia].
      - intros i bs Hi [Hl Hinv]. split; [by rewrite length_insert|].
        intros j Hj. destruct (decide (j = i)) as [->|Hne].
        + rewrite list_lookup_insert_eq by lia. symmetry. by apply lookup_get.
        + rewrite list_lookup_insert_ne by done. apply Hinv. lia. }
    apply list_eq. intros j. destruct (decide (j < length fill)%nat).
    - by apply Hj.
    - rewrite !lookup_ge_None_2; [done | lia | lia]. }
  rewrite Hcopy. split; [done|].
  intros r c Hr Hc. rewrite Hfill by done. symmetry. apply lookup_get.
  rewrite Hlen. nia.
Qed.


Lemma lookup_swap_l i j (l : list byte) :
  (i < length l)%nat → (j < length l)%nat → i ≠ j → swap i j l !! i = l !! j.
Proof.
  intros Hi Hj Hne. unfold swap.
  rewrite list_lookup_insert_ne by done.
  rewrite list_lookup_insert_eq by done. symmetry. by apply lookup_get.
Qed.

Lemma lookup_swap_r i j (l : list byte) :
  (i < length l)%nat → (j < length l)%nat → swap i j l !! j = l !! i.
Proof.
  intros Hi Hj. unfold swap.
  rewrite list_lookup_insert_eq by (by rewrite length_insert).
  symmetry. by apply lookup_get.
Qed.

Lemma lookup_swap_ne i j k (l : list byte) :
  k ≠ i → k ≠ j → swap i j l !! k = l !! k.
Proof.
  intros Hi Hj. unfold swap. by rewrite !list_lookup_insert_ne by done.
Qed.

Lemma transposeSquare_spec n (bytes : list byte) :
  length bytes = (n * n)%nat →
  length (transposeSquare n n bytes) = length bytes ∧
  ∀ r c, (r < n)%nat → (c < n)%nat →
    transposeSquare n n bytes !! (c * n + r)%nat = bytes !! (r * n + c)%nat.
Proof.
  intros Hlen. unfold transposeSquare.
  apply (for_range_inv (λ r0 (bs : list byte), length bs = length bytes ∧
    ∀ i j, (i < n)%nat → (j < n)%nat →
      bs !! (i * n + j)%nat =
      bytes !! (if transposed_upto r0 0 i j then j * n + i else i * n + j)%nat)).
  - split; [done|]. intros i j Hi Hj.
    unfold transposed_upto. rewrite bool_decide_eq_false_2; [done | lia].
  - intros r0 bs Hr0 [Hl Hinv].
    apply (for_range_inv (λ c0 (bs : list byte), length bs = length bytes ∧
      ∀ i j, (i < n)%nat → (j < n)%nat →
        bs !! (i * n + j)%nat =
        bytes !! (if transposed_upto r0 c0 i j then j * n + i else i * n + j)%nat)).
    + done.
    + intros c0 bs' Hc0 [Hl' Hinv']. split; [by rewrite length_swap|].
      intros i j Hi Hj.
      assert (Hri : (r0 * n + c0 < length bs')%nat) by (rewrite Hl', Hlen; nia).
      assert (Hrj : (c0 * n + r0 < length bs')%nat) by (rewrite Hl', Hlen; nia).
      destruct (decide (i = r0 ∧ j = c0)) as [[-> ->]|Hne1].
      { rewrite lookup_swap_l; [|done|done|].
        - rewrite Hinv' by lia. unfold transposed_upto.
          rewrite bool_decide_eq_false_2 by lia.
          rewrite bool_decide_eq_true_2 by lia. done.
        - intros Heq. apply index_inj in Heq; lia. }
      destruct (decide (i = c0 ∧ j = r0)) as [[-> ->]|Hne2].
      { rewrite lookup_swap_r by done.
        rewrite Hinv' by lia. unfold transposed_upto.
        rewrite bool_decide_eq_false_2 by lia.
        rewrite bool_decide_eq_true_2 by lia. done. }
      rewrite lookup_swap_ne.
      * rewrite Hinv' by done. unfold transposed_upto.
        destruct (bool_decide _) eqn:E1.
        -- apply bool_decide_eq_true_1 in E1.
           rewrite bool_decide_eq_true_2 by lia. done.
        -- apply bool_decide_eq_false_1 in E1.
           rewrite bool_decide_eq_false_2 by lia. done.
      * intros Heq. apply index_inj in Heq; lia.
      * intros Heq. apply index_inj in Heq; lia.
    + intros bs' [Hl' Hinv']. split; [done|].
      intros i j Hi Hj. rewrite Hinv' by done.
      destruct (decide (i = j)) as [->|Hij];
        [by destruct (transposed_upto _ _ _ _), (transposed_upto _ _ _ _)|].
      unfold transposed_upto.
      destruct (bool_decide _) eqn:E1.
      -- apply bool_decide_eq_true_1 in E1.
         rewrite bool_decide_eq_true_2 by lia. done.
      -- apply bool_decide_eq_false_1 in E1.
         rewrite bool_decide_eq_false_2 by lia. done.
  - intros bs [Hl Hinv]. split; [done|].
    intros r c Hr Hc. rewrite Hinv by done. unfold transposed_upto.
    rewrite bool_decide_eq_true_2 by lia. done.
Qed.

(** Two buffers of [rows * cols] bytes that agree at every matrix position
    are equal. *)
Lemma matrix_ext rows cols (l1 l2 : list byte) :
  length l1 = (rows * cols)%nat → length l2 = (rows * cols)%nat →
  (∀ r c, (r < rows)%nat → (c < cols)%nat →
     l1 !! (c * rows + r)%nat = l2 !! (c * rows + r)%nat) →
  l1 = l2.
Proof.
  intros H1 H2 H. apply list_eq. intros k.
  destruct (decide (k < rows * cols)%nat) as [Hk|Hk].
  - destruct (index_decompose rows cols k Hk) as (r & c & Hr & Hc & ->).
    by apply H.
  - rewrite !lookup_ge_None_2; [done | lia | lia].
Qed.

Lemma is_transpose_unique rows cols input o1 o2 :
  length input = (rows * cols)%nat →
  is_transpose rows cols input o1 → is_transpose rows cols input o2 → o1 = o2.
Proof.
  intros Hlen [Hl1 H1] [Hl2 H2].
  apply (matrix_ext rows cols); [lia | lia |].
  intros r c Hr Hc. by rewrite H1, H2.
Qed.

Lemma is_transpose_inv rows cols input mid output :
  length input = (rows * cols)%nat →
  is_transpose rows cols input mid → is_transpose cols rows mid output →
  output = input.
Proof.
  intros Hlen [Hl1 H1] [Hl2 H2].
  apply (matrix_ext cols rows); [lia | lia |].
  intros c r Hc Hr. rewrite H2, H1 by done. done.
Qed.

Lemma interleave_eq (bytes : list byte) (rows cols : nat) :
  length bytes = (rows * cols)%nat → (0 < cols)%nat →
  interleave bytes (Z.of_nat cols) =
  Ok (if (rows =? cols)%nat then transposeSquare rows cols bytes
      else transposeRect rows cols bytes).
Proof.
  intros Hlen Hc. unfold interleave.
  destruct (Z.leb_spec (Z.of_nat cols) 0) as [|_]; [lia|].
  rewrite Z.rem_mod_nonneg by lia.
  replace (Z.of_nat (length bytes) `mod` Z.of_nat cols)%Z with 0%Z.
  2:{ rewrite Hlen, Nat2Z.inj_mul, Z.mod_mul; lia. }
  cbn [Z.eqb negb]. rewrite Nat2Z.id.
  replace (length bytes / cols)%nat with rows.
  2:{ rewrite Hlen. symmetry. apply Nat.div_mul. lia. }
  by destruct (rows =? cols)%nat.
Qed.

Lemma interleave_spec (bytes : list byte) (rows cols : nat) :
  length bytes = (rows * cols)%nat → (0 < cols)%nat →
  ∃ out, interleave bytes (Z.of_nat cols) = Ok out ∧
         is_transpose rows cols bytes out.
Proof.
  intros Hlen Hc. rewrite (interleave_eq bytes rows cols) by done.
  eexists. split; [done|].
  destruct (Nat.eqb_spec rows cols) as [->|Hne].
  - by apply transposeSquare_spec.
  - by apply transposeRect_spec.
Qed.

Lemma deinterleave_eq (bytes : list byte) (rows cols : nat) :
  length bytes = (rows * cols)%nat → (0 < cols)%nat →
  deinterleave bytes (Z.of_nat cols) = interleave bytes (Z.of_nat rows).
Proof.
  intros Hlen Hc. unfold deinterleave.
  destruct (Z.leb_spec (Z.of_nat cols) 0) as [|_]; [lia|].
  rewrite Z.rem_mod_nonneg by lia.
  replace (Z.of_nat (length bytes) `mod` Z.of_nat cols)%Z with 0%Z.
  2:{ rewrite Hlen, Nat2Z.inj_mul, Z.mod_mul; lia. }
  cbn [Z.eqb negb]. rewrite Z.quot_div_nonneg by lia.
  by rewrite Hlen, Nat2Z.inj_mul, Z.div_mul by lia.
Qed.

Lemma deinterleave_spec (bytes : list byte) (rows cols : nat) :
  length bytes = (rows * cols)%nat → (0 < cols)%nat → (0 < rows)%nat →
  ∃ out, deinterleave bytes (Z.of_nat cols) = Ok out ∧
         is_transpose cols rows bytes out.
Proof.
  intros Hlen Hc Hr. rewrite (deinterleave_eq bytes rows cols) by done.
  apply interleave_spec; lia.
Qed.

Lemma deinterleave_interleave (bytes : list byte) (rows cols : nat) :
  length bytes = (rows * cols)%nat → (0 < cols)%nat → (0 < rows)%nat →
  ∃ mid, interleave bytes (Z.of_nat cols) = Ok mid ∧
         length mid = length bytes ∧
         deinterleave mid (Z.of_nat cols) = Ok bytes.
Proof.
  intros Hlen Hc Hr.
  destruct (interleave_spec bytes rows cols Hlen Hc) as (mid & Hmid & Ht).
  exists mid. split; [done|]. split; [apply Ht|].
  destruct (deinterleave_spec mid rows cols) as (out & Hout & Ht');
    [destruct Ht; lia | done | done |].
  rewrite Hout. f_equal. by eapply is_transpose_inv.
Qed.

Lemma divide_length (bytes : list byte) (stride : Z) :
  (0 < stride)%Z → (stride | Z.of_nat (length bytes))%Z →
  ∃ rows, length bytes = (rows * Z.to_nat stride)%nat.
Proof.
  intros Hs [k Hk]. exists (Z.to_nat k). nia.
Qed.


End Interleave.

(** ** Scalar primitives *)

Lemma testbit_high (x w i : Z) : 0 ≤ x < 2^w → w ≤ i → Z.testbit x i = false.
Proof.
  intros Hx Hi. destruct (Z.eq_dec x 0) as [->|Hne]; [apply Z.bits_0|].
  assert (0 ≤ w).
  { destruct (Z.le_gt_cases 0 w); [done|]. rewrite Z.pow_neg_r in Hx; lia. }
  apply Z.bits_above_log2; [lia|].
  assert (Z.log2 x < w) by (apply Z.log2_lt_pow2; lia). lia.
Qed.

Lemma to_u32_range n : is_u32 (to_u32 n).
Proof. unfold is_u32, to_u32, to_unsigned. apply Z.mod_pos_bound. lia. Qed.

Lemma testbit_to_u32 n i :
  Z.testbit (to_u32 n) i = if i <? 32 then Z.testbit n i else false.
Proof.
  unfold to_u32, to_unsigned. destruct (Z.ltb_spec i 32).
  - destruct (Z.le_gt_cases 0 i).
    + by apply Z.mod_pow2_bits_low.
    + by rewrite !Z.testbit_neg_r by lia.
  - apply Z.mod_pow2_bits_high. lia.
Qed.

Lemma testbit_encodeRobloxFloat x i :
  is_u32 x → 0 ≤ i →
  Z.testbit (encodeRobloxFloat x) i =
  if i =? 0 then Z.testbit x 31 else if i <? 32 then Z.testbit x (i - 1) else false.
Proof.
  intros Hx Hi. unfold encodeRobloxFloat.
  rewrite Z.lor_spec, testbit_to_u32, Z.shiftr_spec, Z.shiftl_spec by lia.
  destruct (Z.eqb_spec i 0) as [->|Hne].
  - cbn [Z.ltb Z.compare]. rewrite Z.testbit_neg_r by lia. done.
  - rewrite (testbit_high x 32 (i + 31)) by (done || lia).
    rewrite orb_false_r. done.
Qed.

Lemma encodeRobloxFloat_range x : is_u32 x → is_u32 (encodeRobloxFloat x).
Proof.
  intros Hx. unfold is_u32.
  assert (0 ≤ encodeRobloxFloat x).
  { unfold encodeRobloxFloat. apply Z.lor_nonneg. split.
    - apply to_u32_range.
    - apply Z.shiftr_nonneg. apply Hx. }
  split; [done|].
  destruct (Z.eq_dec (encodeRobloxFloat x) 0) as [->|Hne]; [lia|].
  apply Z.log2_lt_pow2; [lia|].
  destruct (Z.lt_ge_cases (Z.log2 (encodeRobloxFloat x)) 32) as [|Hge]; [done|].
  pose proof (Z.bit_log2 (encodeRobloxFloat x) ltac:(lia)) as Hb.
  rewrite testbit_encodeRobloxFloat in Hb by (done || lia).
  destruct (Z.eqb_spec (Z.log2 (encodeRobloxFloat x)) 0); [lia|].
  destruct (Z.ltb_spec (Z.log2 (encodeRobloxFloat x)) 32); [lia | done].
Qed.

Lemma decodeRobloxFloat_encodeRobloxFloat x :
  is_u32 x → decodeRobloxFloat (encodeRobloxFloat x) = x.
Proof.
  intros Hx. apply Z.bits_inj'. intros n Hn. unfold decodeRobloxFloat.
  rewrite Z.lor_spec, testbit_to_u32, Z.shiftr_spec, Z.shiftl_spec by lia.
  rewrite (testbit_encodeRobloxFloat x (n + 1)) by (done || lia).
  destruct (Z.eqb_spec (n + 1) 0); [lia|].
  replace (n + 1 - 1) with n by lia.
  destruct (Z.ltb_spec n 32) as [Hlt|Hge].
  - destruct (Z.eq_dec n 31) as [->|Hne].
    + change (31 + 1 <? 32) with false. change (31 - 31) with 0.
      rewrite (testbit_encodeRobloxFloat x 0) by (done || lia). done.
    + destruct (Z.ltb_spec (n + 1) 32); [|lia].
      rewrite (Z.testbit_neg_r _ (n - 31)) by lia. by rewrite orb_false_r.
  - destruct (Z.ltb_spec (n + 1) 32); [lia|].
    cbn [orb]. symmetry. by apply (testbit_high x 32).
Qed.


Lemma popcount32_sum n :
  popcount32 n = foldr (λ i acc, (bit_count n i + acc)%nat) 0%nat (seq 0 32).
Proof.
  unfold popcount32. generalize (seq 0 32). intros l.
  induction l as [|i l IH]; [done|].
  rewrite filter_cons. cbn [foldr]. unfold bit_count at 1.
  destruct (decide _) as [H|H].
  - rewrite H. cbn. by rewrite IH.
  - apply not_true_is_false in H. rewrite H. cbn. done.
Qed.

Lemma bit_count_encodeRobloxFloat x i :
  is_u32 x → (i < 32)%nat →
  bit_count (encodeRobloxFloat x) i = bit_count x (if (i =? 0)%nat then 31 else i - 1)%nat.
Proof.
  intros Hx Hi. unfold bit_count. f_equal.
  rewrite testbit_encodeRobloxFloat by (done || lia).
  destruct i as [|i]; [done|].
  destruct (Z.eqb_spec (Z.of_nat (S i)) 0); [lia|].
  destruct (Z.ltb_spec (Z.of_nat (S i)) 32); [|lia].
  cbn [Nat.eqb]. f_equal. lia.
Qed.

Lemma popcount32_encodeRobloxFloat x :
  is_u32 x → popcount32 (encodeRobloxFloat x) = popcount32 x.
Proof.
  intros Hx. rewrite !popcount32_sum. cbn [seq foldr].
  rewrite !(bit_count_encodeRobloxFloat x) by (done || lia).
  cbn [Nat.eqb Nat.sub]. lia.
Qed.

(** ** The interleave primitive: claims *)

Example interleave_doc_example :
  interleave [97; 98; 99; 100; 49; 50; 51; 52] 4
  = Ok [97; 49; 98; 50; 99; 51; 100; 52].
Proof. reflexivity. Qed.

Example interleave_square_example :
  interleave [1; 2; 3; 4; 5; 6; 7; 8; 9] 3 = Ok [1; 4; 7; 2; 5; 8; 3; 6; 9].
Proof. reflexivity. Qed.

(** C5 fails on the empty buffer.  Every positive stride divides its length
    and [interleave] accepts it, but [deinterleave], after its own two
    guards, hands [len(bytes) / size = 0] to [interleave], whose first guard
    rejects it: the round trip of the claim ends in the error
    [length must be greater than 0].  This is what makes [ValuesFromBytes]
    fail on the empty buffer for [Int], where [ValuesToBytes] has written
    the empty array as that buffer and where the paths of [Vector3] and
    [Reference] return the empty array. *)
Theorem C5_deinterleave_rejects_empty (stride : Z) :
  0 < stride →
  (stride | Z.of_nat (length (@nil byte))) ∧
  interleave [] stride = Ok [] ∧
  deinterleave [] stride = Err ErrLengthNotPositive ∧
  ValuesToBytes TypeInt [] = Ok [] ∧
  ValuesFromBytes TypeInt [] = Err ErrLengthNotPositive ∧
  ValuesFromBytes TypeVector3 [] = Ok [] ∧
  ValuesFromBytes TypeReference [] = Ok [].
Proof.
  intros Hs. split; [by exists 0|].
  split; [|split; [|repeat split; reflexivity]].
  - destruct (interleave_spec [] 0 (Z.to_nat stride)) as (out & Hout & Hlen & _);
      [done | lia |].
    rewrite Z2Nat.id in Hout by lia. rewrite Hout.
    by rewrite (nil_length_inv out Hlen).
  - unfold deinterleave.
    destruct (Z.leb_spec stride 0) as [|_]; [lia|].
    change (Z.of_nat (length (@nil byte))) with 0.
    rewrite Z.rem_0_l by lia. cbn [Z.eqb negb].
    rewrite Z.quot_0_l by lia. reflexivity.
Qed.

Lemma C5_deinterleave_rejects_empty_witness :
  interleave [] 4 = Ok [] ∧ deinterleave [] 4 = Err ErrLengthNotPositive.
Proof.
  destruct (C5_deinterleave_rejects_empty 4) as (_ & H1 & H2 & _); [lia|].
  split; [exact H1 | exact H2].
Defined.

(** For every non-empty buffer [buf] and every stride with [stride > 0] that
    divides [len(buf)], interleaving and then deinterleaving with that
    stride gives [buf] back; and whenever [stride] equals
    [len(buf) / stride], interleaving twice gives [buf] back. *)
Theorem interleave_roundtrip (buf : list byte) (stride : Z) :
  0 < stride → (stride | Z.of_nat (length buf)) →
  (buf ≠ [] →
   ∃ mid, interleave buf stride = Ok mid ∧ deinterleave mid stride = Ok buf) ∧
  (stride = Z.quot (Z.of_nat (length buf)) stride →
   ∃ mid, interleave buf stride = Ok mid ∧ interleave mid stride = Ok buf).
Proof.
  intros Hs Hd.
  destruct (divide_length buf stride Hs Hd) as [rows Hrows]. split.
  - intros Hne.
    assert (0 < rows)%nat.
    { destruct rows; [|lia]. destruct buf; [done | simpl in Hrows; lia]. }
    destruct (deinterleave_interleave buf rows (Z.to_nat stride))
      as (mid & H1 & _ & H2); [done | lia | done |].
    rewrite Z2Nat.id in H1, H2 by lia. eauto.
  - intros Hsq.
    assert (rows = Z.to_nat stride) as ->.
    { rewrite Z.quot_div_nonneg in Hsq by lia.
      rewrite Hrows, Nat2Z.inj_mul, Z2Nat.id, Z.div_mul in Hsq by lia. lia. }
    set (n := Z.to_nat stride) in *.
    destruct (interleave_spec buf n n) as (mid & H1 & Ht); [done | lia |].
    destruct (interleave_spec mid n n) as (out & H2 & Ht');
      [destruct Ht; lia | lia |].
    unfold n in H1, H2. rewrite Z2Nat.id in H1, H2 by lia.
    exists mid. split; [done|]. rewrite H2. f_equal.
    by eapply is_transpose_inv.
Qed.

Lemma interleave_roundtrip_witness :
  (∃ mid, interleave [1; 2; 3; 4] 2 = Ok mid ∧ deinterleave mid 2 = Ok [1; 2; 3; 4]) ∧
  (∃ mid, interleave [1; 2; 3; 4] 2 = Ok mid ∧ interleave mid 2 = Ok [1; 2; 3; 4]).
Proof.
  destruct (interleave_roundtrip [1; 2; 3; 4] 2) as [H1 H2];
    [lia | by exists 2 |].
  split; [by apply H1 | by apply H2].
Defined.

(** C10: on a buffer of [stride * stride] bytes the in-place swap branch and
    the scratch-buffer branch of [interleave] produce the same bytes, and
    both realise [output[c*rows + r] = input[r*cols + c]]. *)
Theorem C10_interleave_branches_agree (stride : nat) (bytes : list byte) :
  length bytes = (stride * stride)%nat →
  transposeSquare stride stride bytes = transposeRect stride stride bytes ∧
  is_transpose stride stride bytes (transposeSquare stride stride bytes) ∧
  is_transpose stride stride bytes (transposeRect stride stride bytes).
Proof.
  intros Hlen.
  pose proof (transposeSquare_spec stride bytes Hlen) as Hs.
  pose proof (transposeRect_spec stride stride bytes Hlen) as Hr.
  split; [|done]. by eapply is_transpose_unique.
Qed.

Lemma C10_interleave_branches_agree_witness :
  transposeSquare 2 2 [1; 2; 3; 4] = transposeRect 2 2 [1; 2; 3; 4] ∧
  is_transpose 2 2 [1; 2; 3; 4] (transposeSquare 2 2 [1; 2; 3; 4]) ∧
  is_transpose 2 2 [1; 2; 3; 4] (transposeRect 2 2 [1; 2; 3; 4]).
Proof. apply (C10_interleave_branches_agree 2 [1; 2; 3; 4]). reflexivity. Defined.

(** ** Scalar primitives: claims *)

(** C9: for every binary32 bit pattern [x] that is not a NaN,
    [decodeRobloxFloat (encodeRobloxFloat x)] is [x] bit for bit; and for
    every bit pattern [encodeRobloxFloat x] is the rotation of the 32 bits of
    [x] by one bit to the left (it is a 32-bit word, its bit 0 is the sign
    bit 31 of [x] and its bit [i] is bit [i - 1] of [x]), so it has as many
    set bits as [x]. *)
Theorem C9_roblox_float_roundtrip (x : Z) :
  is_u32 x →
  (is_NaN32 x = false → decodeRobloxFloat (encodeRobloxFloat x) = x) ∧
  is_u32 (encodeRobloxFloat x) ∧
  (∀ i, 0 ≤ i < 32 →
        Z.testbit (encodeRobloxFloat x) i = Z.testbit x ((i + 31) mod 32)) ∧
  popcount32 (encodeRobloxFloat x) = popcount32 x.
Proof.
  intros Hx. split; [|split; [|split]].
  - intros _. by apply decodeRobloxFloat_encodeRobloxFloat.
  - by apply encodeRobloxFloat_range.
  - intros i Hi. rewrite testbit_encodeRobloxFloat by (done || lia).
    destruct (Z.eqb_spec i 0) as [->|Hne]; [reflexivity|].
    destruct (Z.ltb_spec i 32) as [_|]; [|lia].
    f_equal. replace (i + 31) with (i - 1 + 1 * 32) by lia.
    rewrite Z.mod_add, Z.mod_small; lia.
  - by apply popcount32_encodeRobloxFloat.
Qed.

(** The witness is the negative zero [0x80000000], whose sign bit moves to
    bit 0. *)
Lemma C9_roblox_float_roundtrip_witness :
  decodeRobloxFloat (encodeRobloxFloat 0x80000000) = 0x80000000 ∧
  is_u32 (encodeRobloxFloat 0x80000000) ∧
  (∀ i, 0 ≤ i < 32 →
        Z.testbit (encodeRobloxFloat 0x80000000) i
        = Z.testbit 0x80000000 ((i + 31) mod 32)) ∧
  Z.testbit (encodeRobloxFloat 0x80000000) 0 = true ∧
  popcount32 (encodeRobloxFloat 0x80000000) = popcount32 0x80000000.
Proof.
  destruct (C9_roblox_float_roundtrip 0x80000000) as (H1 & H2 & H3 & H4).
  - unfold is_u32. lia.
  - split; [by apply H1|]. split; [exact H2|]. split; [exact H3|].
    split; [|exact H4]. rewrite (H3 0) by lia. reflexivity.
Defined.

Example encodeRobloxFloat_zeros :
  encodeRobloxFloat 0 = 0 ∧ encodeRobloxFloat 0x80000000 = 1.
Proof. split; reflexivity. Qed.

(** ** Single values: claims *)

(** C2 fails for every [PhysicalProperties] value: the two length tests of
    [ValuePhysicalProperties.FromBytes] are exchanged with respect to what
    [Bytes] writes (21 bytes when [CustomPhysics != 0], 1 byte otherwise),
    so decoding the encoding always returns an error. *)
Theorem C2_PhysicalProperties_roundtrip_fails (v zero : ValuePhysicalProperties) :
  FromBytes (VPhysicalProperties zero) (Bytes (VPhysicalProperties v))
  = Err (ErrArrayLength (if PP_CustomPhysics v =? 0 then 21 else 1)).
Proof.
  destruct v as [cp d f e fw ew]. cbn [FromBytes Bytes PP_CustomPhysics].
  unfold ValuePhysicalProperties_Bytes. cbn [PP_CustomPhysics].
  destruct (Z.eqb_spec cp 0) as [->|Hne]; [reflexivity|].
  cbn [negb]. unfold ValuePhysicalProperties_FromBytes, ValuePhysicalProperties_FromBytes_cap.
  cbn -[Z.eqb Z.shiftr byte_of]. 
  destruct (Z.eqb_spec cp 0) as [->|_]; [done|]. reflexivity.
Qed.

Example C2_failing_input :
  FromBytes (VPhysicalProperties (mkPhysicalProperties 0 0 0 0 0 0))
            (Bytes (VPhysicalProperties (mkPhysicalProperties 1 2 3 4 5 6)))
  = Err (ErrArrayLength 1) ∧
  FromBytes (VPhysicalProperties (mkPhysicalProperties 0 0 0 0 0 0))
            (Bytes (VPhysicalProperties (mkPhysicalProperties 0 0 0 0 0 0)))
  = Err (ErrArrayLength 21).
Proof. split; reflexivity. Qed.

(** C4 fails on the empty buffer: [ValueCFrame.FromBytes] and
    [ValuePhysicalProperties.FromBytes] read [b[0]] before any length test,
    and the latter slices [p[0:4]] out of an empty [p] on a one-byte input
    with a non-zero first byte and no spare capacity, as a slice literal
    is. *)
Theorem C4_FromBytes_panics :
  FromBytes (VCFrame (mkCFrame 0 (replicate 9 0) (mkVector3 0 0 0))) [] = Panic ∧
  FromBytes (VPhysicalProperties (mkPhysicalProperties 0 0 0 0 0 0)) [] = Panic ∧
  FromBytes (VPhysicalProperties (mkPhysicalProperties 0 0 0 0 0 0)) [1] = Panic.
Proof. repeat split; reflexivity. Qed.

(** ** Arrays: claims *)

(** C3 fails on the field-split kinds: [deinterleaveFields] deinterleaves
    the field slices of the caller's [b] in place, where the scalar kinds
    work on the copy [bc]. *)
Theorem C3_ValuesFromBytes_mutates_buffer :
  let b := [1; 2; 3; 4; 5; 6; 7; 8; 9; 10; 11; 12; 13; 14; 15; 16] in
  Valid TypeVector2 = true ∧
  is_ok (ValuesFromBytes TypeVector2 b) = true ∧
  ValuesFromBytes_buffer TypeVector2 b
  = [1; 3; 5; 7; 2; 4; 6; 8; 9; 11; 13; 15; 10; 12; 14; 16] ∧
  ValuesFromBytes_buffer TypeVector2 b ≠ b.
Proof. repeat split; try reflexivity. vm_compute. discriminate. Qed.

(** C6 fails on the fixed-size kinds that are read by [appendByteValues]:
    its loop [for i := 0; i+size <= len(b); i += size] stops in front of the
    trailing bytes and the values that fit are returned without an error.
    [Vector3], read by [deinterleaveFields], is rejected. *)
Theorem C6_trailing_bytes_accepted :
  ValuesFromBytes TypeDouble [1; 2; 3; 4; 5; 6; 7; 8; 9]
  = Ok [VDouble 0x0807060504030201] ∧
  ValuesFromBytes TypeNumberRange [1; 2; 3; 4; 5; 6; 7; 8; 9]
  = Ok [VNumberRange (mkNumberRange 0x04030201 0x08070605)] ∧
  ValuesFromBytes TypeVector3int16 [1; 0; 2; 0; 3; 0; 4]
  = Ok [VVector3int16 (mkVector3int16 1 2 3)] ∧
  ValuesFromBytes TypeRay (replicate 25 0) = Ok [VRay (mkRay 0 0 0 0 0 0)] ∧
  ValuesFromBytes TypeVector3 (replicate 13 0) = Err (ErrNotDivisible 13 12).
Proof. repeat split; reflexivity. Qed.

(** C7, as stated, names a blob of 14 bytes; three references make 12. *)
Lemma C7_counterexample :
  let refs := [VReference 10; VReference 12; VReference 9] in
  let blob := [0; 0; 0; 0; 0; 0; 0; 0; 0; 0; 0; 0x14; 0x04; 0x05] in
  ValuesToBytes TypeReference refs ≠ Ok blob ∧
  ValuesFromBytes TypeReference blob ≠ Ok refs.
Proof. split; vm_compute; discriminate. Qed.

(** C7 (amended): encoding [Reference(10), Reference(12), Reference(9)]
    stores the first value as its zigzag bytes and each later value as the
    zigzag of its difference to the previous one (differences 10, 2, -3;
    zigzag 20, 4, 5); the concatenation [00 00 00 14 00 00 00 04 00 00 00 05]
    interleaved with stride 4 is the 12-byte blob
    [00 00 00 00 00 00 00 00 00 14 04 05], and decoding that blob gives
    [10, 12, 9] back. *)
Theorem C7_reference_scenario :
  let refs := [VReference 10; VReference 12; VReference 9] in
  let blob := [0; 0; 0; 0; 0; 0; 0; 0; 0; 0x14; 0x04; 0x05] in
  encodeZigzag32 10 = 20 ∧
  encodeZigzag32 (to_i32 (12 - 10)) = 4 ∧
  encodeZigzag32 (to_i32 (9 - 12)) = 5 ∧
  ValueReference_Bytes 10 ++ ValueReference_Bytes (to_i32 (12 - 10))
    ++ ValueReference_Bytes (to_i32 (9 - 12))
  = [0; 0; 0; 0x14; 0; 0; 0; 0x04; 0; 0; 0; 0x05] ∧
  interleave [0; 0; 0; 0x14; 0; 0; 0; 0x04; 0; 0; 0; 0x05] 4 = Ok blob ∧
  ValuesToBytes TypeReference refs = Ok blob ∧
  ValuesFromBytes TypeReference blob = Ok refs.
Proof. repeat split; reflexivity. Qed.

(** C8: a one-element [CFrame] array with [Special = 2] and position
    (1.0, 2.0, 3.0) encodes to 13 bytes, the byte [02] followed by the 12
    bytes of the interleaved [Vector3] array of the position; reading the
    matrices stops after one matrix, when the 12 remaining bytes are exactly
    [len(matrices) * 12]; decoding gives one [CFrame] with [Special = 2], a
    zero rotation and the position. *)
Theorem C8_cframe_scenario (rotation : list Z) :
  let position := mkVector3 0x3F800000 0x40000000 0x40400000 in
  let blob := [0x02; 0x7F; 0; 0; 0; 0x80; 0; 0; 0; 0x80; 0x80; 0; 0] in
  ValuesToBytes TypeCFrame [VCFrame (mkCFrame 2 rotation position)] = Ok blob ∧
  length blob = 13%nat ∧
  interleaveFields TypeVector3 [VVector3 position] = Ok (drop 1 blob) ∧
  readMatrices blob
  = Ok (1%nat, [mkCFrame 2 (replicate 9 0) (mkVector3 0 0 0)]) ∧
  (length blob - 1 = 1 * 12)%nat ∧
  ValuesFromBytes TypeCFrame blob
  = Ok [VCFrame (mkCFrame 2 (replicate 9 0) position)].
Proof. repeat split; reflexivity. Qed.

(** ** Bytes and words *)

(** *** Bits of the byte conversions *)

Lemma testbit_byte_of x i :
  Z.testbit (byte_of x) i = if i <? 8 then Z.testbit x i else false.
Proof.
  unfold byte_of, to_u8, to_unsigned. destruct (Z.ltb_spec i 8).
  - destruct (Z.le_gt_cases 0 i).
    + by apply Z.mod_pow2_bits_low.
    + by rewrite !Z.testbit_neg_r by lia.
  - apply Z.mod_pow2_bits_high. lia.
Qed.

Lemma byte_of_range x : is_byte (byte_of x).
Proof. unfold is_byte, byte_of, to_u8, to_unsigned. apply Z.mod_pos_bound. lia. Qed.

Lemma testbit_shifted_byte x k i :
  0 ≤ k → 0 ≤ i →
  Z.testbit (Z.shiftl (byte_of (Z.shiftr x k)) k) i =
  if (k <=? i) && (i <? k + 8) then Z.testbit x i else false.
Proof.
  intros Hk Hi. rewrite Z.shiftl_spec by lia.
  destruct (Z.leb_spec k i) as [Hle|Hgt]; cbn [andb].
  - rewrite testbit_byte_of, Z.shiftr_spec by lia.
    replace (i - k + k) with i by lia.
    destruct (Z.ltb_spec (i - k) 8), (Z.ltb_spec i (k + 8)); (done || lia).
  - apply Z.testbit_neg_r. lia.
Qed.

Lemma testbit_byte_of0 x i :
  0 ≤ i → Z.testbit (byte_of x) i = if (0 <=? i) && (i <? 0 + 8) then Z.testbit x i else false.
Proof.
  intros Hi. rewrite testbit_byte_of.
  destruct (Z.leb_spec 0 i); [|lia]. done.
Qed.

(** Solve [combination of bytes = v] bit by bit. *)
Ltac bytes_to_bits w Hv :=
  apply Z.bits_inj'; intros n Hn;
  repeat rewrite Z.lor_spec;
  repeat rewrite testbit_shifted_byte by lia;
  repeat rewrite testbit_byte_of0 by lia;
  repeat match goal with
    | |- context [Z.leb ?a ?b] => destruct (Z.leb_spec a b); cbn [andb orb]
    | |- context [Z.ltb ?a ?b] => destruct (Z.ltb_spec a b); cbn [andb orb]
    end;
  rewrite ?orb_false_r, ?orb_false_l;
  try reflexivity; try lia;
  try (symmetry; apply (testbit_high _ w); [exact Hv | lia]).

Lemma combine_le32 v :
  is_u32 v →
  Z.lor (byte_of v)
    (Z.lor (Z.shiftl (byte_of (Z.shiftr v 8)) 8)
       (Z.lor (Z.shiftl (byte_of (Z.shiftr v 16)) 16)
              (Z.shiftl (byte_of (Z.shiftr v 24)) 24))) = v.
Proof. intros Hv. bytes_to_bits 32 Hv. Qed.

Lemma combine_be32 v :
  is_u32 v →
  Z.lor (byte_of v)
    (Z.lor (Z.shiftl (byte_of (Z.shiftr v 8)) 8)
       (Z.lor (Z.shiftl (byte_of (Z.shiftr v 16)) 16)
              (Z.shiftl (byte_of (Z.shiftr v 24)) 24))) = v.
Proof. apply combine_le32. Qed.

Lemma combine_le16 v :
  0 ≤ v < 2^16 →
  Z.lor (byte_of v) (Z.shiftl (byte_of (Z.shiftr v 8)) 8) = v.
Proof. intros Hv. bytes_to_bits 16 Hv. Qed.

Ltac bytes_to_bits_pruned w Hv :=
  apply Z.bits_inj'; intros n Hn;
  repeat rewrite Z.lor_spec;
  repeat rewrite testbit_shifted_byte by lia;
  repeat rewrite testbit_byte_of0 by lia;
  repeat match goal with
    | |- context [Z.leb ?a ?b] =>
        destruct (Z.leb_spec a b); cbn [andb orb]; try (exfalso; lia)
    | |- context [Z.ltb ?a ?b] =>
        destruct (Z.ltb_spec a b); cbn [andb orb]; try (exfalso; lia)
    end;
  rewrite ?orb_false_r, ?orb_false_l;
  try reflexivity;
  try (symmetry; apply (testbit_high _ w); [exact Hv | lia]).

Lemma combine_le64 v :
  is_u64 v →
  Z.lor (Z.lor (Z.lor (Z.lor (Z.lor (Z.lor (Z.lor (Z.lor 0
    (Z.shiftl (byte_of (Z.shiftr v 0)) 0))
    (Z.shiftl (byte_of (Z.shiftr v 8)) 8))
    (Z.shiftl (byte_of (Z.shiftr v 16)) 16))
    (Z.shiftl (byte_of (Z.shiftr v 24)) 24))
    (Z.shiftl (byte_of (Z.shiftr v 32)) 32))
    (Z.shiftl (byte_of (Z.shiftr v 40)) 40))
    (Z.shiftl (byte_of (Z.shiftr v 48)) 48))
    (Z.shiftl (byte_of (Z.shiftr v 56)) 56) = v.
Proof. intros Hv. rewrite Z.lor_0_l. bytes_to_bits_pruned 64 Hv. Qed.

Lemma combine_be64 v :
  is_u64 v →
  Z.lor (Z.lor (Z.lor (Z.lor (Z.lor (Z.lor (Z.lor (Z.lor 0
    (Z.shiftl (byte_of (Z.shiftr v 56)) 56))
    (Z.shiftl (byte_of (Z.shiftr v 48)) 48))
    (Z.shiftl (byte_of (Z.shiftr v 40)) 40))
    (Z.shiftl (byte_of (Z.shiftr v 32)) 32))
    (Z.shiftl (byte_of (Z.shiftr v 24)) 24))
    (Z.shiftl (byte_of (Z.shiftr v 16)) 16))
    (Z.shiftl (byte_of (Z.shiftr v 8)) 8))
    (Z.shiftl (byte_of (Z.shiftr v 0)) 0) = v.
Proof. intros Hv. rewrite Z.lor_0_l. bytes_to_bits_pruned 64 Hv. Qed.

(** *** Reading what was written *)

Lemma get_insert_eq (l : list byte) i x :
  (i < length l)%nat → get (<[i := x]> l) i = x.
Proof. intros Hi. unfold get. by rewrite list_lookup_insert_eq. Qed.

Lemma get_insert_ne (l : list byte) i j x :
  i ≠ j → get (<[i := x]> l) j = get l j.
Proof. intros Hne. unfold get. by rewrite list_lookup_insert_ne. Qed.

Lemma length_LittleEndian_PutUint32 b off v :
  length (LittleEndian_PutUint32 b off v) = length b.
Proof. unfold LittleEndian_PutUint32. by rewrite !length_insert. Qed.

Lemma length_BigEndian_PutUint32 b off v :
  length (BigEndian_PutUint32 b off v) = length b.
Proof. unfold BigEndian_PutUint32. by rewrite !length_insert. Qed.

Lemma length_LittleEndian_PutUint16 b off v :
  length (LittleEndian_PutUint16 b off v) = length b.
Proof. unfold LittleEndian_PutUint16. by rewrite !length_insert. Qed.

Lemma get_LittleEndian_PutUint32_ne b off v j :
  (j < off ∨ off + 4 ≤ j)%nat →
  get (LittleEndian_PutUint32 b off v) j = get b j.
Proof.
  intros Hj. unfold LittleEndian_PutUint32.
  by rewrite !get_insert_ne by lia.
Qed.

Lemma LittleEndian_Uint32_PutUint32 b off v :
  (off + 4 ≤ length b)%nat → is_u32 v →
  LittleEndian_Uint32 (LittleEndian_PutUint32 b off v) off = v.
Proof.
  intros Hoff Hv. unfold LittleEndian_Uint32, LittleEndian_PutUint32.
  rewrite (get_insert_eq _ (off + 3)) by (rewrite !length_insert; lia).
  rewrite (get_insert_ne _ (off + 3) (off + 2)) by lia.
  rewrite (get_insert_eq _ (off + 2)) by (rewrite !length_insert; lia).
  rewrite !(get_insert_ne _ _ (off + 1)) by lia.
  rewrite (get_insert_eq _ (off + 1)) by (rewrite !length_insert; lia).
  rewrite !(get_insert_ne _ _ off) by lia.
  rewrite (get_insert_eq _ off) by lia.
  by apply combine_le32.
Qed.

Lemma LittleEndian_Uint32_PutUint32_ne b off off' v :
  (off' + 4 ≤ off ∨ off + 4 ≤ off')%nat →
  LittleEndian_Uint32 (LittleEndian_PutUint32 b off v) off' = LittleEndian_Uint32 b off'.
Proof.
  intros H. unfold LittleEndian_Uint32.
  by rewrite !get_LittleEndian_PutUint32_ne by lia.
Qed.

Lemma BigEndian_Uint32_PutUint32 b off v :
  (off + 4 ≤ length b)%nat → is_u32 v →
  BigEndian_Uint32 (BigEndian_PutUint32 b off v) off = v.
Proof.
  intros Hoff Hv. unfold BigEndian_Uint32, BigEndian_PutUint32.
  rewrite (get_insert_eq _ (off + 3)) by (rewrite !length_insert; lia).
  rewrite (get_insert_ne _ (off + 3) (off + 2)) by lia.
  rewrite (get_insert_eq _ (off + 2)) by (rewrite !length_insert; lia).
  rewrite !(get_insert_ne _ _ (off + 1)) by lia.
  rewrite (get_insert_eq _ (off + 1)) by (rewrite !length_insert; lia).
  rewrite !(get_insert_ne _ _ off) by lia.
  rewrite (get_insert_eq _ off) by lia.
  by apply combine_be32.
Qed.

Lemma LittleEndian_Uint16_PutUint16 b off v :
  (off + 2 ≤ length b)%nat → 0 ≤ v < 2^16 →
  LittleEndian_Uint16 (LittleEndian_PutUint16 b off v) off = v.
Proof.
  intros Hoff Hv. unfold LittleEndian_Uint16, LittleEndian_PutUint16.
  rewrite (get_insert_eq _ (off + 1)) by (rewrite !length_insert; lia).
  rewrite !(get_insert_ne _ _ off) by lia.
  rewrite (get_insert_eq _ off) by lia.
  by apply combine_le16.
Qed.

Lemma LittleEndian_Uint16_PutUint16_ne b off off' v :
  (off' + 2 ≤ off ∨ off + 2 ≤ off')%nat →
  LittleEndian_Uint16 (LittleEndian_PutUint16 b off v) off' = LittleEndian_Uint16 b off'.
Proof.
  intros H. unfold LittleEndian_Uint16, LittleEndian_PutUint16.
  by rewrite !get_insert_ne by lia.
Qed.

Lemma LittleEndian_PutUint64_unfold b off v :
  LittleEndian_PutUint64 b off v =
  <[(off + 7)%nat := byte_of (Z.shiftr v 56)]>
  (<[(off + 6)%nat := byte_of (Z.shiftr v 48)]>
  (<[(off + 5)%nat := byte_of (Z.shiftr v 40)]>
  (<[(off + 4)%nat := byte_of (Z.shiftr v 32)]>
  (<[(off + 3)%nat := byte_of (Z.shiftr v 24)]>
  (<[(off + 2)%nat := byte_of (Z.shiftr v 16)]>
  (<[(off + 1)%nat := byte_of (Z.shiftr v 8)]>
  (<[(off + 0)%nat := byte_of (Z.shiftr v 0)]> b))))))).
Proof. reflexivity. Qed.

Lemma BigEndian_PutUint64_unfold b off v :
  BigEndian_PutUint64 b off v =
  <[(off + 7)%nat := byte_of (Z.shiftr v 0)]>
  (<[(off + 6)%nat := byte_of (Z.shiftr v 8)]>
  (<[(off + 5)%nat := byte_of (Z.shiftr v 16)]>
  (<[(off + 4)%nat := byte_of (Z.shiftr v 24)]>
  (<[(off + 3)%nat := byte_of (Z.shiftr v 32)]>
  (<[(off + 2)%nat := byte_of (Z.shiftr v 40)]>
  (<[(off + 1)%nat := byte_of (Z.shiftr v 48)]>
  (<[(off + 0)%nat := byte_of (Z.shiftr v 56)]> b))))))).
Proof. reflexivity. Qed.

Lemma LittleEndian_Uint64_unfold b off :
  LittleEndian_Uint64 b off =
  Z.lor (Z.lor (Z.lor (Z.lor (Z.lor (Z.lor (Z.lor (Z.lor 0
    (Z.shiftl (get b (off + 0)) 0))
    (Z.shiftl (get b (off + 1)) 8))
    (Z.shiftl (get b (off + 2)) 16))
    (Z.shiftl (get b (off + 3)) 24))
    (Z.shiftl (get b (off + 4)) 32))
    (Z.shiftl (get b (off + 5)) 40))
    (Z.shiftl (get b (off + 6)) 48))
    (Z.shiftl (get b (off + 7)) 56).
Proof. reflexivity. Qed.

Lemma BigEndian_Uint64_unfold b off :
  BigEndian_Uint64 b off =
  Z.lor (Z.lor (Z.lor (Z.lor (Z.lor (Z.lor (Z.lor (Z.lor 0
    (Z.shiftl (get b (off + 0)) 56))
    (Z.shiftl (get b (off + 1)) 48))
    (Z.shiftl (get b (off + 2)) 40))
    (Z.shiftl (get b (off + 3)) 32))
    (Z.shiftl (get b (off + 4)) 24))
    (Z.shiftl (get b (off + 5)) 16))
    (Z.shiftl (get b (off + 6)) 8))
    (Z.shiftl (get b (off + 7)) 0).
Proof. reflexivity. Qed.

Ltac get_inserts :=
  repeat first
    [ rewrite get_insert_eq by (rewrite ?length_insert; lia)
    | rewrite get_insert_ne by lia ].

Lemma LittleEndian_Uint64_PutUint64 b off v :
  (off + 8 ≤ length b)%nat → is_u64 v →
  LittleEndian_Uint64 (LittleEndian_PutUint64 b off v) off = v.
Proof.
  intros Hoff Hv.
  rewrite LittleEndian_Uint64_unfold, LittleEndian_PutUint64_unfold.
  get_inserts. by apply combine_le64.
Qed.

Lemma BigEndian_Uint64_PutUint64 b off v :
  (off + 8 ≤ length b)%nat → is_u64 v →
  BigEndian_Uint64 (BigEndian_PutUint64 b off v) off = v.
Proof.
  intros Hoff Hv.
  rewrite BigEndian_Uint64_unfold, BigEndian_PutUint64_unfold.
  get_inserts. by apply combine_be64.
Qed.

Lemma length_LittleEndian_PutUint64 b off v :
  length (LittleEndian_PutUint64 b off v) = length b.
Proof. rewrite LittleEndian_PutUint64_unfold. by rewrite !length_insert. Qed.

Lemma length_BigEndian_PutUint64 b off v :
  length (BigEndian_PutUint64 b off v) = length b.
Proof. rewrite BigEndian_PutUint64_unfold. by rewrite !length_insert. Qed.

(** *** Zigzag *)

Section Zigzag.
Variable w : Z.
Hypothesis Hw : 1 ≤ w.

Let h := 2 ^ (w - 1).

Local Lemma pow_w : 2 ^ w = 2 * h.
Proof.
  unfold h. replace w with (1 + (w - 1)) at 1 by lia.
  rewrite Z.pow_add_r by lia. done.
Qed.

Local Lemma h_pos : 0 < h.
Proof. unfold h. apply Z.pow_pos_nonneg; lia. Qed.

Lemma to_unsigned_small n : 0 ≤ n < 2 ^ w → to_unsigned w n = n.
Proof. intros. unfold to_unsigned. by apply Z.mod_small. Qed.

Lemma to_signed_small n : - h ≤ n < h → to_signed w n = n.
Proof.
  intros Hn. unfold to_signed. fold h. rewrite Z.mod_small; [lia|].
  rewrite pow_w. lia.
Qed.

Lemma to_unsigned_to_signed n : to_unsigned w (to_signed w n) = to_unsigned w n.
Proof.
  unfold to_unsigned, to_signed. fold h. rewrite pow_w.
  pose proof h_pos.
  rewrite <- (Z.mod_add (_ - h) 1 (2 * h)) by lia.
  replace ((n + h) `mod` (2 * h) - h + 1 * (2 * h)) with ((n + h) `mod` (2 * h) + h) by lia.
  rewrite Z.add_mod_idemp_l by lia.
  replace (n + h + h) with (n + 1 * (2 * h)) by lia.
  by rewrite Z.mod_add by lia.
Qed.

Lemma to_unsigned_congr a b k : a = b + k * 2 ^ w → to_unsigned w a = to_unsigned w b.
Proof.
  intros ->. unfold to_unsigned. rewrite Z.mod_add; [done|].
  rewrite pow_w. pose proof h_pos. lia.
Qed.

Lemma to_signed_congr a b k : a = b + k * 2 ^ w → to_signed w a = to_signed w b.
Proof.
  intros ->. unfold to_signed. f_equal.
  replace (b + k * 2 ^ w + 2 ^ (w - 1)) with (b + 2 ^ (w - 1) + k * 2 ^ w) by lia.
  rewrite Z.mod_add; [done|]. rewrite pow_w. pose proof h_pos. lia.
Qed.

Lemma to_unsigned_eq n : ∃ k, to_unsigned w n = n + k * 2 ^ w.
Proof.
  unfold to_unsigned. exists (- (n / 2 ^ w)).
  pose proof (Z.div_mod n (2 ^ w)) as H.
  rewrite pow_w in *. pose proof h_pos. lia.
Qed.

Lemma to_signed_eq n : ∃ k, to_signed w n = n + k * 2 ^ w.
Proof.
  unfold to_signed. exists (- ((n + 2 ^ (w - 1)) / 2 ^ w)).
  pose proof (Z.div_mod (n + 2 ^ (w - 1)) (2 ^ w)) as H.
  fold h in H |- *. rewrite pow_w in *. pose proof h_pos. lia.
Qed.

Lemma shiftr_sign n : - h ≤ n < h → Z.shiftr n (w - 1) = if n <? 0 then -1 else 0.
Proof.
  intros Hn. rewrite Z.shiftr_div_pow2 by lia. fold h. pose proof h_pos.
  destruct (Z.ltb_spec n 0).
  - symmetry. apply (Z.div_unique n h (-1) (n + h)); lia.
  - apply Z.div_small. lia.
Qed.

Lemma lxor_all_ones x :
  0 ≤ x < 2 ^ w → Z.lxor x (2 ^ w - 1) = 2 ^ w - 1 - x.
Proof.
  intros Hx.
  assert (Z.lxor x (Z.ones w) = Z.land (Z.lnot x) (Z.ones w)) as Heq.
  { apply Z.bits_inj'. intros n Hn.
    rewrite Z.lxor_spec, Z.land_spec, Z.lnot_spec by lia.
    destruct (Z.lt_ge_cases n w).
    - rewrite Z.ones_spec_low by lia. by destruct (Z.testbit x n).
    - rewrite Z.ones_spec_high by lia.
      rewrite (testbit_high x w n) by (done || lia). done. }
  rewrite Z.ones_equiv in Heq. unfold Z.pred in Heq.
  replace (2 ^ w - 1) with (2 ^ w + -1) by lia. rewrite Heq.
  replace (2 ^ w + -1) with (Z.pred (2 ^ w)) by lia.
  rewrite <- Z.ones_equiv, Z.land_ones by lia.
  unfold Z.lnot. rewrite Z.ones_equiv. unfold Z.pred.
  pose proof pow_w. pose proof h_pos.
  rewrite <- (Z.mod_add _ 1) by lia.
  rewrite Z.mod_small; lia.
Qed.

Lemma encodeZigzag_eq n :
  - h ≤ n < h → encodeZigzag w n = if n <? 0 then - 2 * n - 1 else 2 * n.
Proof.
  intros Hn. unfold encodeZigzag. rewrite shiftr_sign by done.
  rewrite Z.shiftl_mul_pow2 by lia. change (2 ^ 1) with 2.
  pose proof pow_w. pose proof h_pos.
  destruct (to_signed_eq (n * 2)) as [k Hk].
  destruct (Z.ltb_spec n 0).
  - rewrite Z.lxor_m1_r. unfold Z.lnot, Z.pred.
    rewrite (to_unsigned_congr _ (- 2 * n - 1) (- k)) by lia.
    apply to_unsigned_small. lia.
  - rewrite Z.lxor_0_r, to_unsigned_to_signed.
    rewrite to_unsigned_small; lia.
Qed.

Lemma decodeZigzag_eq u :
  0 ≤ u < 2 ^ w →
  decodeZigzag w u = if Z.even u then u / 2 else - (u / 2) - 1.
Proof.
  intros Hu. unfold decodeZigzag.
  pose proof pow_w. pose proof h_pos.
  change 1 with (Z.ones 1) at 2. rewrite Z.land_ones by lia. change (2 ^ 1) with 2.
  rewrite Z.shiftr_div_pow2 by lia. change (2 ^ 1) with 2.
  rewrite Zmod_even.
  pose proof (Z.div_mod u 2 ltac:(lia)) as Hdm.
  pose proof (Z.mod_pos_bound u 2 ltac:(lia)) as Hmb.
  destruct (Z.even u) eqn:He.
  - assert (h = 1 ∨ 1 < h) as [Hh1|Hh1] by lia.
    + rewrite (to_signed_small 0) by lia. rewrite Z.shiftl_0_l.
      rewrite (to_signed_small 0) by lia. rewrite Z.shiftr_0_l.
      rewrite (to_unsigned_small 0) by lia. rewrite Z.lxor_0_r.
      rewrite Zmod_even, He in Hdm. apply to_signed_small. lia.
    + rewrite (to_signed_small 0) by lia. rewrite Z.shiftl_0_l.
      rewrite (to_signed_small 0) by lia. rewrite Z.shiftr_0_l.
      rewrite (to_unsigned_small 0) by lia. rewrite Z.lxor_0_r.
      rewrite Zmod_even, He in Hdm. apply to_signed_small. lia.
  - rewrite Zmod_even, He in Hdm.
    assert (to_signed w (Z.shiftl (to_signed w 1) (w - 1)) = - h) as ->.
    { rewrite Z.shiftl_mul_pow2 by lia. fold h.
      destruct (to_signed_eq 1) as [k Hk]. rewrite Hk.
      rewrite (to_signed_congr _ (- h) (k * h + 1)) by lia.
      apply to_signed_small. lia. }
    rewrite shiftr_sign by lia.
    destruct (Z.ltb_spec (- h) 0); [|lia].
    rewrite (to_unsigned_congr (-1) (2 ^ w - 1) (-1)) by lia.
    rewrite (to_unsigned_small (2 ^ w - 1)) by lia.
    rewrite lxor_all_ones by lia.
    rewrite (to_signed_congr _ (- (u / 2) - 1) 1) by lia.
    apply to_signed_small. lia.
Qed.

Lemma encodeZigzag_range n : - h ≤ n < h → 0 ≤ encodeZigzag w n < 2 ^ w.
Proof.
  intros Hn. rewrite encodeZigzag_eq by done. pose proof pow_w.
  destruct (Z.ltb_spec n 0); lia.
Qed.

Lemma decodeZigzag_encodeZigzag n :
  - h ≤ n < h → decodeZigzag w (encodeZigzag w n) = n.
Proof.
  intros Hn. rewrite decodeZigzag_eq by (by apply encodeZigzag_range).
  rewrite encodeZigzag_eq by done.
  destruct (Z.ltb_spec n 0).
  - replace (- 2 * n - 1) with (1 + 2 * (- n - 1)) by lia.
    rewrite Z.even_add_mul_2. cbn [Z.even].
    replace (1 + 2 * (- n - 1)) with (1 + (- n - 1) * 2) by lia.
    rewrite Z.div_add by lia. change (1 / 2) with 0. lia.
  - replace (2 * n) with (0 + 2 * n) by lia.
    rewrite Z.even_add_mul_2. cbn [Z.even].
    replace (0 + 2 * n) with (n * 2) by lia.
    rewrite Z.div_mul by lia. done.
Qed.
End Zigzag.

Lemma encodeZigzag32_generic n : encodeZigzag32 n = encodeZigzag 32 n.
Proof. reflexivity. Qed.

Lemma decodeZigzag32_generic n : decodeZigzag32 n = decodeZigzag 32 n.
Proof. reflexivity. Qed.

Lemma encodeZigzag64_generic n : encodeZigzag64 n = encodeZigzag 64 n.
Proof. reflexivity. Qed.

Lemma decodeZigzag64_generic n : decodeZigzag64 n = decodeZigzag 64 n.
Proof. reflexivity. Qed.

Lemma decodeZigzag32_encodeZigzag32 n :
  is_i32 n → decodeZigzag32 (encodeZigzag32 n) = n.
Proof.
  intros Hn. rewrite encodeZigzag32_generic, decodeZigzag32_generic.
  apply decodeZigzag_encodeZigzag; [lia | exact Hn].
Qed.

Lemma encodeZigzag32_range n : is_i32 n → is_u32 (encodeZigzag32 n).
Proof.
  intros Hn. rewrite encodeZigzag32_generic.
  apply (encodeZigzag_range 32); [lia | exact Hn].
Qed.

Lemma decodeZigzag64_encodeZigzag64 n :
  is_i64 n → decodeZigzag64 (encodeZigzag64 n) = n.
Proof.
  intros Hn. rewrite encodeZigzag64_generic, decodeZigzag64_generic.
  apply decodeZigzag_encodeZigzag; [lia | exact Hn].
Qed.

Lemma encodeZigzag64_range n : is_i64 n → is_u64 (encodeZigzag64 n).
Proof.
  intros Hn. rewrite encodeZigzag64_generic.
  apply (encodeZigzag_range 64); [lia | exact Hn].
Qed.

Lemma to_i32_range n : is_i32 (to_i32 n).
Proof.
  unfold is_i32, to_i32, to_signed.
  pose proof (Z.mod_pos_bound (n + 2 ^ (32 - 1)) (2 ^ 32) ltac:(lia)). lia.
Qed.

Lemma to_i32_add_sub r p : is_i32 r → to_i32 (p + to_i32 (r - p)) = r.
Proof.
  intros Hr. destruct (to_signed_eq 32 ltac:(lia) (r - p)) as [k Hk].
  unfold to_i32. rewrite Hk.
  rewrite (to_signed_congr 32 ltac:(lia) _ r k) by lia.
  apply to_signed_small; [lia | exact Hr].
Qed.

Lemma to_i16_to_u16 n : is_i16 n → to_i16 (to_u16 n) = n.
Proof.
  intros Hn. unfold to_i16, to_u16.
  destruct (to_unsigned_eq 16 ltac:(lia) n) as [k Hk]. rewrite Hk.
  rewrite (to_signed_congr 16 ltac:(lia) _ n k) by lia.
  apply to_signed_small; [lia | exact Hn].
Qed.

Lemma to_u16_range n : 0 ≤ to_u16 n < 2 ^ 16.
Proof. unfold to_u16, to_unsigned. apply Z.mod_pos_bound. lia. Qed.

(** ** Single values *)

(** ** Single values: decoding what was encoded *)

Lemma length_make n : length (make n) = n.
Proof. apply length_replicate. Qed.

Lemma length_ValueInt_Bytes v : length (ValueInt_Bytes v) = 4%nat.
Proof. unfold ValueInt_Bytes. by rewrite length_BigEndian_PutUint32. Qed.

Lemma ValueInt_FromBytes_Bytes v :
  is_i32 v → ValueInt_FromBytes (ValueInt_Bytes v) = Ok v.
Proof.
  intros Hv. unfold ValueInt_FromBytes. rewrite length_ValueInt_Bytes.
  cbn [Nat.eqb negb]. unfold ValueInt_Bytes.
  rewrite BigEndian_Uint32_PutUint32;
    [| by rewrite length_make | by apply encodeZigzag32_range].
  by rewrite decodeZigzag32_encodeZigzag32.
Qed.

Lemma length_ValueReference_Bytes v : length (ValueReference_Bytes v) = 4%nat.
Proof. apply length_ValueInt_Bytes. Qed.

Lemma ValueReference_FromBytes_Bytes v :
  is_i32 v → ValueReference_FromBytes (ValueReference_Bytes v) = Ok v.
Proof. apply ValueInt_FromBytes_Bytes. Qed.

Lemma length_ValueFloat_Bytes v : length (ValueFloat_Bytes v) = 4%nat.
Proof. unfold ValueFloat_Bytes. by rewrite length_BigEndian_PutUint32. Qed.

Lemma ValueFloat_FromBytes_Bytes v :
  is_u32 v → ValueFloat_FromBytes (ValueFloat_Bytes v) = Ok v.
Proof.
  intros Hv. unfold ValueFloat_FromBytes. rewrite length_ValueFloat_Bytes.
  cbn [Nat.eqb negb]. unfold ValueFloat_Bytes.
  rewrite BigEndian_Uint32_PutUint32;
    [| by rewrite length_make | by apply encodeRobloxFloat_range].
  by rewrite decodeRobloxFloat_encodeRobloxFloat.
Qed.

Lemma length_ValueBrickColor_Bytes v : length (ValueBrickColor_Bytes v) = 4%nat.
Proof. unfold ValueBrickColor_Bytes. by rewrite length_BigEndian_PutUint32. Qed.

Lemma ValueBrickColor_FromBytes_Bytes v :
  is_u32 v → ValueBrickColor_FromBytes (ValueBrickColor_Bytes v) = Ok v.
Proof.
  intros Hv. unfold ValueBrickColor_FromBytes. rewrite length_ValueBrickColor_Bytes.
  cbn [Nat.eqb negb]. unfold ValueBrickColor_Bytes.
  by rewrite BigEndian_Uint32_PutUint32; [| by rewrite length_make |].
Qed.

Lemma length_ValueDouble_Bytes v : length (ValueDouble_Bytes v) = 8%nat.
Proof. unfold ValueDouble_Bytes. by rewrite length_LittleEndian_PutUint64. Qed.

Lemma ValueDouble_FromBytes_Bytes v :
  is_u64 v → ValueDouble_FromBytes (ValueDouble_Bytes v) = Ok v.
Proof.
  intros Hv. unfold ValueDouble_FromBytes. rewrite length_ValueDouble_Bytes.
  cbn [Nat.eqb negb]. unfold ValueDouble_Bytes.
  by rewrite LittleEndian_Uint64_PutUint64; [| by rewrite length_make |].
Qed.

Lemma length_ValueInt64_Bytes v : length (ValueInt64_Bytes v) = 8%nat.
Proof. unfold ValueInt64_Bytes. by rewrite length_BigEndian_PutUint64. Qed.

Lemma ValueInt64_FromBytes_Bytes v :
  is_i64 v → ValueInt64_FromBytes (ValueInt64_Bytes v) = Ok v.
Proof.
  intros Hv. unfold ValueInt64_FromBytes. rewrite length_ValueInt64_Bytes.
  cbn [Nat.eqb negb]. unfold ValueInt64_Bytes.
  rewrite BigEndian_Uint64_PutUint64;
    [| by rewrite length_make | by apply encodeZigzag64_range].
  by rewrite decodeZigzag64_encodeZigzag64.
Qed.

Lemma ValueBool_FromBytes_Bytes v : ValueBool_FromBytes (ValueBool_Bytes v) = Ok v.
Proof. by destruct v. Qed.

Lemma ValueFaces_FromBytes_Bytes v : ValueFaces_FromBytes (ValueFaces_Bytes v) = Ok v.
Proof. destruct v as [[] [] [] [] [] []]; reflexivity. Qed.

Lemma ValueAxes_FromBytes_Bytes v : ValueAxes_FromBytes (ValueAxes_Bytes v) = Ok v.
Proof. destruct v as [[] [] []]; reflexivity. Qed.

Ltac read_back32 :=
  repeat first
    [ rewrite LittleEndian_Uint32_PutUint32
        by (rewrite ?length_LittleEndian_PutUint32, ?length_insert, ?length_make;
            (lia || assumption))
    | rewrite LittleEndian_Uint32_PutUint32_ne by lia ].

Lemma length_ValueRay_Bytes v : length (ValueRay_Bytes v) = 24%nat.
Proof. unfold ValueRay_Bytes. by rewrite !length_LittleEndian_PutUint32. Qed.

Lemma ValueRay_FromBytes_Bytes v :
  wf_Value (VRay v) → ValueRay_FromBytes (ValueRay_Bytes v) = Ok v.
Proof.
  destruct v as [ox oy oz dx dy dz]. cbn [wf_Value].
  cbn [Ray_OriginX Ray_OriginY Ray_OriginZ Ray_DirectionX Ray_DirectionY Ray_DirectionZ].
  intros (? & ? & ? & ? & ? & ?).
  unfold ValueRay_FromBytes. rewrite length_ValueRay_Bytes. cbn [Nat.eqb negb].
  unfold ValueRay_Bytes.
  cbn [Ray_OriginX Ray_OriginY Ray_OriginZ Ray_DirectionX Ray_DirectionY Ray_DirectionZ].
  read_back32. done.
Qed.

Lemma length_ValueNumberRange_Bytes v : length (ValueNumberRange_Bytes v) = 8%nat.
Proof. unfold ValueNumberRange_Bytes. by rewrite !length_LittleEndian_PutUint32. Qed.

Lemma ValueNumberRange_FromBytes_Bytes v :
  wf_Value (VNumberRange v) →
  ValueNumberRange_FromBytes (ValueNumberRange_Bytes v) = Ok v.
Proof.
  destruct v as [lo hi]. cbn [wf_Value NumberRange_Min NumberRange_Max].
  intros (? & ?).
  unfold ValueNumberRange_FromBytes. rewrite length_ValueNumberRange_Bytes.
  cbn [Nat.eqb negb]. unfold ValueNumberRange_Bytes.
  cbn [NumberRange_Min NumberRange_Max]. read_back32. done.
Qed.

Ltac read_back16 :=
  repeat first
    [ rewrite LittleEndian_Uint16_PutUint16
        by (rewrite ?length_LittleEndian_PutUint16, ?length_make;
            (lia || apply to_u16_range))
    | rewrite LittleEndian_Uint16_PutUint16_ne by lia ].

Lemma length_ValueVector3int16_Bytes v : length (ValueVector3int16_Bytes v) = 6%nat.
Proof. unfold ValueVector3int16_Bytes. by rewrite !length_LittleEndian_PutUint16. Qed.

Lemma ValueVector3int16_FromBytes_Bytes v :
  wf_Value (VVector3int16 v) →
  ValueVector3int16_FromBytes (ValueVector3int16_Bytes v) = Ok v.
Proof.
  destruct v as [x y z]. cbn [wf_Value Vector3int16_X Vector3int16_Y Vector3int16_Z].
  intros (? & ? & ?).
  unfold ValueVector3int16_FromBytes. rewrite length_ValueVector3int16_Bytes.
  cbn [Nat.eqb negb]. unfold ValueVector3int16_Bytes.
  cbn [Vector3int16_X Vector3int16_Y Vector3int16_Z]. read_back16.
  by rewrite !to_i16_to_u16.
Qed.

Lemma length_ValueVector2int16_Bytes v : length (ValueVector2int16_Bytes v) = 4%nat.
Proof. unfold ValueVector2int16_Bytes. by rewrite !length_LittleEndian_PutUint16. Qed.

Lemma ValueVector2int16_FromBytes_Bytes v :
  wf_Value (VVector2int16 v) →
  ValueVector2int16_FromBytes (ValueVector2int16_Bytes v) = Ok v.
Proof.
  destruct v as [x y]. cbn [wf_Value Vector2int16_X Vector2int16_Y].
  intros (? & ?).
  unfold ValueVector2int16_FromBytes. rewrite length_ValueVector2int16_Bytes.
  cbn [Nat.eqb negb]. unfold ValueVector2int16_Bytes.
  cbn [Vector2int16_X Vector2int16_Y]. read_back16.
  by rewrite !to_i16_to_u16.
Qed.

(** ** Array loops *)

(** ** Loops over values and chunks *)

Section Arrays.
Local Close Scope Z_scope.

Lemma for_each_from_app {A St} i (l1 l2 : list A) (body : nat → A → St → result St) s :
  for_each_from i (l1 ++ l2) body s =
  (s' ← for_each_from i l1 body s; for_each_from (i + length l1) l2 body s').
Proof.
  revert i s. induction l1 as [|x l1 IH]; intros i s; cbn [for_each_from app length].
  - by rewrite Nat.add_0_r.
  - destruct (body i x s) as [s'| |]; cbn; [|done|done].
    rewrite IH. by replace (S i + length l1) with (i + S (length l1)) by lia.
Qed.

Lemma for_each_snoc {A St} (l : list A) x (body : nat → A → St → result St) s :
  for_each (l ++ [x]) body s = (s' ← for_each l body s; body (length l) x s').
Proof.
  unfold for_each. rewrite for_each_from_app. cbn [Nat.add].
  destruct (for_each_from 0 l body s) as [s'| |]; cbn; [|done|done].
  by destruct (body (length l) x s').
Qed.

(** An invariant rule for [for_each] when the body cannot fail. *)
Lemma for_each_inv {A St} (P : nat → St → Prop) (l : list A)
    (body : nat → A → St → result St) s :
  P 0 s →
  (∀ i x s, l !! i = Some x → P i s → ∃ s', body i x s = Ok s' ∧ P (S i) s') →
  ∃ s', for_each l body s = Ok s' ∧ P (length l) s'.
Proof.
  induction l as [|x l IH] using rev_ind; intros H0 Hstep.
  - exists s. done.
  - destruct IH as (s1 & Hs1 & HP1); [done | |].
    { intros i y s0 Hi. apply Hstep. by apply lookup_app_l_Some. }
    destruct (Hstep (length l) x s1) as (s2 & Hs2 & HP2); [| done |].
    { rewrite lookup_app_r by lia. by rewrite Nat.sub_diag. }
    exists s2. rewrite for_each_snoc, Hs1. cbn. rewrite Hs2.
    split; [done|]. rewrite length_app. cbn. by rewrite Nat.add_1_r.
Qed.

Lemma type_check_ok t (xs : list Value) :
  Forall (λ v, Type_of v = t) xs →
  for_each xs (λ i v (_ : unit),
    if negb (Type_of v =? t)%Z then Err (ErrElementType i (Type_of v) t)
    else Ok ()) () = Ok ().
Proof.
  intros Hxs.
  destruct (for_each_inv (λ _ _, True) xs
    (λ i v (_ : unit),
      if negb (Type_of v =? t)%Z then Err (ErrElementType i (Type_of v) t)
      else Ok ()) ()) as ([] & H & _); [done | | done].
  intros i x [] Hi _. exists (). split; [|done].
  rewrite Forall_lookup in Hxs. rewrite (Hxs i x Hi), Z.eqb_refl. done.
Qed.

Lemma appendValueBytes_concat t (xs : list Value) :
  Forall (λ v, Type_of v = t) xs →
  appendValueBytes t xs = Ok (concat (Bytes <$> xs)).
Proof.
  intros Hxs. unfold appendValueBytes.
  destruct (for_each_inv (λ i b, b = concat (Bytes <$> take i xs)) xs
    (λ i v b,
      if negb (Type_of v =? t)%Z then Err (ErrElementType i (Type_of v) t)
      else Ok (b ++ Bytes v)) []) as (b & H & Hb); [done | |].
  - intros i x b Hi ->. eexists. split.
    + rewrite Forall_lookup in Hxs. rewrite (Hxs i x Hi), Z.eqb_refl. done.
    + rewrite (take_S_r _ _ _ Hi), fmap_app, concat_app. cbn.
      by rewrite app_nil_r.
  - rewrite H, Hb, firstn_all. done.
Qed.

Lemma loop_unfold {St R} fuel (step : St → result (St + R)) s :
  loop (S fuel) step s =
  (r ← step s; match r with inl s' => loop fuel step s' | inr r => Ok r end).
Proof. reflexivity. Qed.

(** *** Slices of concatenations *)

Lemma slice_Ok (b : list byte) lo hi :
  lo ≤ hi → hi ≤ length b → slice b lo hi = Ok (take (hi - lo) (drop lo b)).
Proof.
  intros H1 H2. unfold slice.
  destruct (Nat.leb_spec lo hi); [|lia]. destruct (Nat.leb_spec hi (length b)); [|lia].
  done.
Qed.

Lemma slice_from_Ok (b : list byte) lo :
  lo ≤ length b → slice_from b lo = Ok (drop lo b).
Proof.
  intros H. unfold slice_from. rewrite slice_Ok by lia.
  by rewrite take_ge by (rewrite length_drop; lia).
Qed.

Lemma slice_middle (pre c post : list byte) :
  slice (pre ++ c ++ post) (length pre) (length pre + length c) = Ok c.
Proof.
  rewrite slice_Ok by (rewrite ?length_app; lia).
  rewrite drop_app_length.
  replace (length pre + length c - length pre) with (length c) by lia.
  by rewrite take_app_length.
Qed.

(** *** The fixed-size loop of [appendByteValues] *)

Lemma loop_fixed t (size : nat) zero (b post : list byte) :
  newValue t = Some zero → 0 < size → length post < size →
  ∀ (chunks : list (list byte)) (vals : list Value) (pre : list byte) a fuel,
    Forall2 (λ c v, length c = size ∧ FromBytes zero c = Ok v) chunks vals →
    b = pre ++ concat chunks ++ post →
    length chunks < fuel →
    loop fuel (λ '(i, a),
      if (i + size <=? length b) then
        v ← gen t;
        chunk ← slice b i (i + size);
        v ← FromBytes v chunk;
        Ok (inl ((i + size), a ++ [v]))
      else Ok (inr a)) (length pre, a) = Ok (a ++ vals).
Proof.
  intros Hzero Hsize Hpost chunks.
  remember (λ '(i, a),
      if (i + size <=? length b) then
        v ← gen t;
        chunk ← slice b i (i + size);
        v ← FromBytes v chunk;
        Ok (inl ((i + size), a ++ [v]))
      else Ok (inr a)) as step eqn:Hstep.
  assert (Hs : ∀ i (a : list Value), step (i, a) =
      if (i + size <=? length b) then
        chunk ← slice b i (i + size);
        v ← FromBytes zero chunk;
        Ok (inl ((i + size), a ++ [v]))
      else Ok (inr a)).
  { intros i a. subst step. unfold gen. by rewrite Hzero. }
  clear Hstep.
  induction chunks as [|c chunks IH]; intros vals pre a fuel HF Hb Hfuel.
  - apply Forall2_nil_inv_l in HF as ->. cbn in Hb.
    destruct fuel as [|fuel]; [cbn in Hfuel; lia|]. rewrite loop_unfold, Hs.
    destruct (Nat.leb_spec (length pre + size) (length b)) as [Hle|_].
    { rewrite Hb, length_app in Hle. lia. }
    cbn. by rewrite app_nil_r.
  - apply Forall2_cons_inv_l in HF as (v & vals' & [Hlen Hv] & HF & ->).
    destruct fuel as [|fuel]; [lia|]. rewrite loop_unfold, Hs.
    assert (length b = length pre + size + length (concat chunks ++ post)) as Hlb.
    { rewrite Hb. cbn. rewrite !length_app. lia. }
    destruct (Nat.leb_spec (length pre + size) (length b)); [|lia].
    assert (slice b (length pre) (length pre + size) = Ok c) as ->.
    { rewrite Hb. cbn [concat]. rewrite <- Hlen, <- (app_assoc c). apply slice_middle. }
    cbn. rewrite Hv. cbn.
    replace (length pre + size) with (length (pre ++ c)) by (rewrite length_app; lia).
    rewrite (IH vals' (pre ++ c) (a ++ [v]) fuel); [| done | | cbn in Hfuel; lia].
    + by rewrite <- app_assoc.
    + rewrite Hb. cbn. by rewrite <- !app_assoc.
Qed.

Lemma length_concat_ge (chunks : list (list byte)) n :
  Forall (λ c, n ≤ length c) chunks → n * length chunks ≤ length (concat chunks).
Proof.
  induction 1 as [|c chunks Hc _ IH]; cbn; [lia|].
  rewrite length_app. lia.
Qed.

(** The bytes [post] that do not make up a value are left unread. *)
Lemma appendByteValues_fixed_trailing t (size : nat) zero chunks vals post :
  newValue t = Some zero → 0 < size → length post < size →
  Forall2 (λ c v, length c = size ∧ FromBytes zero c = Ok v) chunks vals →
  appendByteValues t (concat chunks ++ post) (Z.of_nat size) 0 = Ok vals.
Proof.
  intros Hzero Hsize Hpost HF. unfold appendByteValues.
  destruct (Z.ltb_spec (Z.of_nat size) 0); [lia|].
  rewrite Nat2Z.id.
  rewrite (loop_fixed t size zero (concat chunks ++ post) post Hzero Hsize Hpost
             chunks vals [] []); [done | done | done |].
  assert (1 * length chunks ≤ length (concat chunks)).
  { apply length_concat_ge. eapply Forall2_Forall_l; [exact HF|].
    apply Forall_true. intros c v [Hl _]. lia. }
  rewrite length_app. lia.
Qed.

Lemma appendByteValues_fixed t (size : nat) zero chunks vals :
  newValue t = Some zero → 0 < size →
  Forall2 (λ c v, length c = size ∧ FromBytes zero c = Ok v) chunks vals →
  appendByteValues t (concat chunks) (Z.of_nat size) 0 = Ok vals.
Proof.
  intros Hzero Hsize HF.
  rewrite <- (app_nil_r (concat chunks)).
  apply (appendByteValues_fixed_trailing t size zero); [done | done | cbn; lia | done].
Qed.

(** *** The variable-length loop of [appendByteValues] *)

Lemma get_app_l (l1 l2 : list byte) i : i < length l1 → get (l1 ++ l2) i = get l1 i.
Proof. intros Hi. unfold get. by rewrite lookup_app_l. Qed.

Lemma LittleEndian_Uint32_app_l (l1 l2 : list byte) off :
  off + 4 ≤ length l1 →
  LittleEndian_Uint32 (l1 ++ l2) off = LittleEndian_Uint32 l1 off.
Proof.
  intros H. unfold LittleEndian_Uint32. by rewrite !get_app_l by lia.
Qed.

Lemma loop_variable t (field : nat) zero :
  newValue t = Some zero →
  ∀ (chunks : list (list byte)) (vals : list Value) a fuel,
    Forall2 (λ c v,
      4 ≤ length c ∧
      length c = 4 + Z.to_nat (LittleEndian_Uint32 c 0) * field ∧
      FromBytes zero c = Ok v) chunks vals →
    length chunks < fuel →
    loop fuel (λ '(ba, a),
      if (0 <? length ba) then
        if (length ba <? 4) then Err (ErrExpectedMore 4)
        else
          let size := Z.to_nat (LittleEndian_Uint32 ba 0) in
          rest ← slice_from ba 4;
          if (length rest <? size * field)
          then Err (ErrExpectedMore (Z.of_nat (size * field)))
          else
            v ← gen t;
            chunk ← slice ba 0 (4 + size * field);
            v ← FromBytes v chunk;
            ba ← slice_from ba (4 + size * field);
            Ok (inl (ba, a ++ [v]))
      else Ok (inr a)) (concat chunks, a) = Ok (a ++ vals).
Proof.
  intros Hzero chunks.
  remember (λ '(ba, a),
      if (0 <? length ba) then
        if (length ba <? 4) then Err (ErrExpectedMore 4)
        else
          let size := Z.to_nat (LittleEndian_Uint32 ba 0) in
          rest ← slice_from ba 4;
          if (length rest <? size * field)
          then Err (ErrExpectedMore (Z.of_nat (size * field)))
          else
            v ← gen t;
            chunk ← slice ba 0 (4 + size * field);
            v ← FromBytes v chunk;
            ba ← slice_from ba (4 + size * field);
            Ok (inl (ba, a ++ [v]))
      else Ok (inr a)) as step eqn:Hstep.
  assert (Hs : ∀ (ba : list byte) (a : list Value), step (ba, a) =
      if (0 <? length ba) then
        if (length ba <? 4) then Err (ErrExpectedMore 4)
        else
          let size := Z.to_nat (LittleEndian_Uint32 ba 0) in
          rest ← slice_from ba 4;
          if (length rest <? size * field)
          then Err (ErrExpectedMore (Z.of_nat (size * field)))
          else
            chunk ← slice ba 0 (4 + size * field);
            v ← FromBytes zero chunk;
            ba ← slice_from ba (4 + size * field);
            Ok (inl (ba, a ++ [v]))
      else Ok (inr a)).
  { intros ba a. subst step. unfold gen. by rewrite Hzero. }
  clear Hstep.
  induction chunks as [|c chunks IH]; intros vals a fuel HF Hfuel.
  - apply Forall2_nil_inv_l in HF as ->.
    destruct fuel as [|fuel]; [cbn in Hfuel; lia|]. rewrite loop_unfold, Hs.
    cbn. by rewrite app_nil_r.
  - apply Forall2_cons_inv_l in HF as (v & vals' & (H4 & Hlen & Hv) & HF & ->).
    destruct fuel as [|fuel]; [lia|]. rewrite loop_unfold, Hs. cbn [concat]. cbv zeta.
    set (ba := c ++ concat chunks).
    assert (length ba = length c + length (concat chunks)) as Hlba
      by (unfold ba; by rewrite length_app).
    destruct (Nat.ltb_spec 0 (length ba)); [|lia].
    destruct (Nat.ltb_spec (length ba) 4); [lia|].
    assert (LittleEndian_Uint32 ba 0 = LittleEndian_Uint32 c 0) as ->
      by (apply LittleEndian_Uint32_app_l; lia).
    set (size := Z.to_nat (LittleEndian_Uint32 c 0)) in *.
    rewrite (slice_from_Ok ba 4) by lia. cbn [mbind result_bind].
    destruct (Nat.ltb_spec (length (drop 4 ba)) (size * field)) as [Hlt|_].
    { rewrite length_drop in Hlt. lia. }
    assert (slice ba 0 (4 + size * field) = Ok c) as ->.
    { rewrite <- Hlen. unfold ba.
      pose proof (slice_middle [] c (concat chunks)) as Hsl. cbn in Hsl. exact Hsl. }
    cbn [mbind result_bind]. rewrite Hv. cbn [mbind result_bind].
    rewrite slice_from_Ok by lia. cbn [mbind result_bind].
    rewrite <- Hlen. unfold ba. rewrite drop_app_length.
    rewrite (IH vals' (a ++ [v]) fuel); [| done | cbn in Hfuel; lia].
    by rewrite <- app_assoc.
Qed.

Lemma appendByteValues_variable t (field : nat) zero chunks vals :
  newValue t = Some zero →
  Forall2 (λ c v,
    4 ≤ length c ∧
    length c = 4 + Z.to_nat (LittleEndian_Uint32 c 0) * field ∧
    FromBytes zero c = Ok v) chunks vals →
  appendByteValues t (concat chunks) (-1) field = Ok vals.
Proof.
  intros Hzero HF. unfold appendByteValues. cbn [Z.ltb Z.compare].
  rewrite (loop_variable t field zero Hzero chunks vals []); [done | done |].
  assert (1 * length chunks ≤ length (concat chunks)); [|lia].
  apply length_concat_ge. eapply Forall2_Forall_l; [exact HF|].
  apply Forall_true. intros c v (Hl & _). lia.
Qed.

End Arrays.

Section Variable_length.
Local Close Scope Z_scope.

(** *** [copy] *)

Lemma length_copy_to (dst src : list byte) lo hi :
  lo + (hi - lo) `min` length src ≤ length dst →
  length (copy_to dst lo hi src) = length dst.
Proof.
  intros H. unfold copy_to. rewrite !length_app, !length_take, length_drop. lia.
Qed.

Lemma copy_to_exact (dst src : list byte) lo hi :
  hi = lo + length src → hi ≤ length dst →
  copy_to dst lo hi src = take lo dst ++ src ++ drop hi dst.
Proof.
  intros -> H. unfold copy_to.
  replace ((lo + length src - lo) `min` length src) with (length src) by lia.
  by rewrite firstn_all.
Qed.

Lemma copy_at_tail (dst src : list byte) off :
  length dst = off + length src → copy_at dst off src = take off dst ++ src.
Proof.
  intros H. unfold copy_at. rewrite copy_to_exact by lia.
  by rewrite drop_ge, app_nil_r by lia.
Qed.

Lemma copy_at_make (src : list byte) :
  copy_at (make (length src)) 0 src = src.
Proof. rewrite copy_at_tail by (by rewrite length_make). done. Qed.

Lemma get_take (l : list byte) n i : i < n → get (take n l) i = get l i.
Proof. intros H. unfold get. by rewrite lookup_take_lt. Qed.

Lemma get_drop (l : list byte) n i : get (drop n l) i = get l (n + i).
Proof. unfold get. by rewrite lookup_drop. Qed.

Lemma LittleEndian_Uint32_take (l : list byte) n off :
  off + 4 ≤ n → LittleEndian_Uint32 (take n l) off = LittleEndian_Uint32 l off.
Proof. intros H. unfold LittleEndian_Uint32. by rewrite !get_take by lia. Qed.

Lemma LittleEndian_Uint32_drop (l : list byte) n off :
  LittleEndian_Uint32 (drop n l) off = LittleEndian_Uint32 l (n + off).
Proof.
  unfold LittleEndian_Uint32. rewrite !get_drop.
  by rewrite !Nat.add_assoc.
Qed.

(** *** String *)

Lemma length_ValueString_Bytes v : length (ValueString_Bytes v) = 4 + length v.
Proof.
  unfold ValueString_Bytes. rewrite copy_at_tail.
  - rewrite length_app, length_take, length_LittleEndian_PutUint32, length_make. lia.
  - rewrite length_LittleEndian_PutUint32, length_make. lia.
Qed.

Lemma ValueString_Bytes_eq v :
  ValueString_Bytes v =
  take 4 (LittleEndian_PutUint32 (make (length v + 4)) 0 (to_u32 (Z.of_nat (length v)))) ++ v.
Proof.
  unfold ValueString_Bytes. apply copy_at_tail.
  rewrite length_LittleEndian_PutUint32, length_make. lia.
Qed.

Lemma to_u32_small n : is_u32 n → to_u32 n = n.
Proof. intros H. unfold to_u32, to_unsigned. by apply Z.mod_small. Qed.

Lemma ValueString_header v :
  (Z.of_nat (length v) < 2^32)%Z →
  LittleEndian_Uint32 (ValueString_Bytes v) 0 = Z.of_nat (length v).
Proof.
  intros Hv. rewrite ValueString_Bytes_eq.
  rewrite LittleEndian_Uint32_app_l
    by (rewrite length_take, length_LittleEndian_PutUint32, length_make; lia).
  rewrite LittleEndian_Uint32_take by lia.
  rewrite LittleEndian_Uint32_PutUint32.
  - apply to_u32_small. unfold is_u32. lia.
  - rewrite length_make. lia.
  - apply to_u32_range.
Qed.

Lemma ValueString_FromBytes_Bytes v :
  (Z.of_nat (length v) < 2^32)%Z →
  ValueString_FromBytes (ValueString_Bytes v) = Ok v.
Proof.
  intros Hv. unfold ValueString_FromBytes.
  rewrite length_ValueString_Bytes.
  destruct (Nat.ltb_spec (4 + length v) 4); [lia|].
  rewrite ValueString_header by done.
  rewrite slice_from_Ok by (rewrite length_ValueString_Bytes; lia).
  cbn [mbind result_bind].
  assert (drop 4 (ValueString_Bytes v) = v) as ->.
  { rewrite ValueString_Bytes_eq. apply drop_app_length'.
    rewrite length_take, length_LittleEndian_PutUint32, length_make. lia. }
  rewrite to_u32_small by (unfold is_u32; lia).
  rewrite Z.eqb_refl. cbn [negb]. by rewrite copy_at_make.
Qed.

(** *** NumberSequence *)

Lemma foldl_imap_snoc {A B} (f : nat → A → B → B) (l : list A) x b0 :
  foldl (λ b g, g b) b0 (imap f (l ++ [x])) =
  f (length l) x (foldl (λ b g, g b) b0 (imap f l)).
Proof.
  rewrite imap_app, foldl_app. cbn. by rewrite Nat.add_0_r.
Qed.

Lemma putKeypointNSs_spec (v : list ValueNumberSequenceKeypoint) (b0 : list byte) :
  4 + length v * sizeNSK ≤ length b0 → Forall wf_NSK v →
  let b := foldl (λ b g, g b) b0 (imap putKeypointNS v) in
  length b = length b0 ∧
  (∀ j, j < 4 → get b j = get b0 j) ∧
  ∀ i x, v !! i = Some x →
    LittleEndian_Uint32 b (4 + i * sizeNSK) = NSK_Time x ∧
    LittleEndian_Uint32 b (4 + i * sizeNSK + 4) = NSK_Value x ∧
    LittleEndian_Uint32 b (4 + i * sizeNSK + 8) = NSK_Envelope x.
Proof.
  unfold sizeNSK. induction v as [|x v IH] using rev_ind; intros Hlen Hwf.
  - cbn. split; [done|]. split; [done|]. intros i x Hi. done.
  - rewrite length_app in Hlen. cbn [length] in Hlen.
    apply Forall_app in Hwf as [Hwf Hx]. rewrite Forall_singleton in Hx.
    destruct Hx as (Ht & Hv & He).
    destruct IH as (IHl & IHh & IHv); [lia | done |].
    cbv zeta. rewrite foldl_imap_snoc.
    set (b := foldl _ b0 (imap putKeypointNS v)) in *.
    unfold putKeypointNS, sizeNSK. cbv zeta. split; [|split].
    + by rewrite !length_LittleEndian_PutUint32.
    + intros j Hj. rewrite !get_LittleEndian_PutUint32_ne by lia. by apply IHh.
    + intros i y Hi. destruct (decide (i = length v)) as [->|Hne].
      * rewrite lookup_app_r, Nat.sub_diag in Hi by lia. injection Hi as <-.
        repeat split; read_back32; done.
      * rewrite lookup_app_l in Hi.
        2:{ apply lookup_lt_Some in Hi. rewrite length_app in Hi. cbn in Hi. lia. }
        pose proof (lookup_lt_Some _ _ _ Hi).
        destruct (IHv i y Hi) as (H1 & H2 & H3).
        repeat split; read_back32; done.
Qed.

Lemma fmap_seq_eq {A} (f : nat → A) (l : list A) :
  (∀ i x, l !! i = Some x → f i = x) → f <$> seq 0 (length l) = l.
Proof.
  intros H. apply list_eq. intros i. rewrite list_lookup_fmap.
  destruct (l !! i) as [x|] eqn:Hi.
  - rewrite lookup_seq_lt by (by eapply lookup_lt_Some). cbn. f_equal. by apply H.
  - rewrite lookup_seq_ge by (by apply lookup_ge_None). done.
Qed.

Lemma ValueNumberSequence_Bytes_spec v :
  Forall wf_NSK v → (Z.of_nat (length v) < 2^32)%Z →
  length (ValueNumberSequence_Bytes v) = 4 + length v * sizeNSK ∧
  LittleEndian_Uint32 (ValueNumberSequence_Bytes v) 0 = Z.of_nat (length v) ∧
  ValueNumberSequence_FromBytes (ValueNumberSequence_Bytes v) = Ok v.
Proof.
  intros Hwf Hlen. unfold ValueNumberSequence_Bytes. cbv zeta.
  set (b0 := LittleEndian_PutUint32 _ 0 _).
  assert (length b0 = 4 + length v * sizeNSK) as Hb0
    by (unfold b0; by rewrite length_LittleEndian_PutUint32, length_make).
  destruct (putKeypointNSs_spec v b0) as (Hl & Hh & Hv); [lia | done |].
  set (b := foldl _ b0 _) in *.
  assert (LittleEndian_Uint32 b 0 = Z.of_nat (length v)) as Hhdr.
  { unfold LittleEndian_Uint32. rewrite !Hh by lia.
    change (LittleEndian_Uint32 b0 0 = Z.of_nat (length v)). unfold b0.
    rewrite LittleEndian_Uint32_PutUint32;
      [| rewrite length_make; lia | apply to_u32_range].
    apply to_u32_small. unfold is_u32. lia. }
  split; [lia|]. split; [done|].
  unfold ValueNumberSequence_FromBytes. rewrite Hl, Hb0.
  destruct (Nat.ltb_spec (4 + length v * sizeNSK) 4); [lia|].
  rewrite Hhdr, Nat2Z.id.
  rewrite slice_from_Ok by lia. cbn [mbind result_bind].
  rewrite length_drop, Hl, Hb0.
  replace (4 + length v * sizeNSK - 4) with (sizeNSK * length v) by lia.
  rewrite Nat.eqb_refl. cbn [negb]. f_equal.
  apply fmap_seq_eq. intros i [t x e] Hi. cbv zeta.
  rewrite !LittleEndian_Uint32_drop.
  destruct (Hv i _ Hi) as (H1 & H2 & H3).
  cbn [NSK_Time NSK_Value NSK_Envelope] in *.
  rewrite <- H1, <- H2, <- H3. f_equal; f_equal; lia.
Qed.

(** *** ColorSequence *)

Lemma putKeypointCSs_spec (v : list ValueColorSequenceKeypoint) (b0 : list byte) :
  4 + length v * sizeCSK ≤ length b0 → Forall wf_CSK v →
  let b := foldl (λ b g, g b) b0 (imap putKeypointCS v) in
  length b = length b0 ∧
  (∀ j, j < 4 → get b j = get b0 j) ∧
  ∀ i x, v !! i = Some x →
    LittleEndian_Uint32 b (4 + i * sizeCSK) = CSK_Time x ∧
    LittleEndian_Uint32 b (4 + i * sizeCSK + 4) = Color3_R (CSK_Value x) ∧
    LittleEndian_Uint32 b (4 + i * sizeCSK + 8) = Color3_G (CSK_Value x) ∧
    LittleEndian_Uint32 b (4 + i * sizeCSK + 12) = Color3_B (CSK_Value x) ∧
    LittleEndian_Uint32 b (4 + i * sizeCSK + 16) = CSK_Envelope x.
Proof.
  unfold sizeCSK. induction v as [|x v IH] using rev_ind; intros Hlen Hwf.
  - cbn. split; [done|]. split; [done|]. intros i x Hi. done.
  - rewrite length_app in Hlen. cbn [length] in Hlen.
    apply Forall_app in Hwf as [Hwf Hx]. rewrite Forall_singleton in Hx.
    destruct Hx as (Ht & (Hr & Hg & Hb) & He).
    destruct IH as (IHl & IHh & IHv); [lia | done |].
    cbv zeta. rewrite foldl_imap_snoc.
    set (b := foldl _ b0 (imap putKeypointCS v)) in *.
    unfold putKeypointCS, sizeCSK. cbv zeta. split; [|split].
    + by rewrite !length_LittleEndian_PutUint32.
    + intros j Hj. rewrite !get_LittleEndian_PutUint32_ne by lia. by apply IHh.
    + intros i y Hi. destruct (decide (i = length v)) as [->|Hne].
      * rewrite lookup_app_r, Nat.sub_diag in Hi by lia. injection Hi as <-.
        repeat split; read_back32; done.
      * rewrite lookup_app_l in Hi.
        2:{ apply lookup_lt_Some in Hi. rewrite length_app in Hi. cbn in Hi. lia. }
        pose proof (lookup_lt_Some _ _ _ Hi).
        destruct (IHv i y Hi) as (H1 & H2 & H3 & H4 & H5).
        repeat split; read_back32; done.
Qed.

Lemma ValueColorSequence_Bytes_spec v :
  Forall wf_CSK v → (Z.of_nat (length v) < 2^32)%Z →
  length (ValueColorSequence_Bytes v) = 4 + length v * sizeCSK ∧
  LittleEndian_Uint32 (ValueColorSequence_Bytes v) 0 = Z.of_nat (length v) ∧
  ValueColorSequence_FromBytes (ValueColorSequence_Bytes v) = Ok v.
Proof.
  intros Hwf Hlen. unfold ValueColorSequence_Bytes. cbv zeta.
  set (b0 := LittleEndian_PutUint32 _ 0 _).
  assert (length b0 = 4 + length v * sizeCSK) as Hb0
    by (unfold b0; by rewrite length_LittleEndian_PutUint32, length_make).
  destruct (putKeypointCSs_spec v b0) as (Hl & Hh & Hv); [lia | done |].
  set (b := foldl _ b0 _) in *.
  assert (LittleEndian_Uint32 b 0 = Z.of_nat (length v)) as Hhdr.
  { unfold LittleEndian_Uint32. rewrite !Hh by lia.
    change (LittleEndian_Uint32 b0 0 = Z.of_nat (length v)). unfold b0.
    rewrite LittleEndian_Uint32_PutUint32;
      [| rewrite length_make; lia | apply to_u32_range].
    apply to_u32_small. unfold is_u32. lia. }
  split; [lia|]. split; [done|].
  unfold ValueColorSequence_FromBytes. rewrite Hl, Hb0.
  destruct (Nat.ltb_spec (4 + length v * sizeCSK) 4); [lia|].
  rewrite Hhdr, Nat2Z.id.
  rewrite slice_from_Ok by lia. cbn [mbind result_bind].
  rewrite length_drop, Hl, Hb0.
  replace (4 + length v * sizeCSK - 4) with (sizeCSK * length v) by lia.
  rewrite Nat.eqb_refl. cbn [negb]. f_equal.
  apply fmap_seq_eq. intros i [t [r g bl] e] Hi. cbv zeta.
  rewrite !LittleEndian_Uint32_drop.
  destruct (Hv i _ Hi) as (H1 & H2 & H3 & H4 & H5).
  cbn [CSK_Time CSK_Value CSK_Envelope Color3_R Color3_G Color3_B] in *.
  rewrite <- H1, <- H2, <- H3, <- H4, <- H5. f_equal; f_equal; f_equal; lia.
Qed.

End Variable_length.

(** ** Field-split arrays *)

(** ** Field slices as columns *)

Section Columns.
Local Close Scope Z_scope.

Lemma windows_nil o N : windows (offsets o [] N) = [].
Proof. reflexivity. Qed.

Lemma windows_cons o n ns N :
  windows (offsets o (n :: ns) N) = (o, o + n * N) :: windows (offsets (o + n * N) ns N).
Proof. unfold windows. cbn [offsets drop zip zip_with]. by destruct ns. Qed.

Lemma length_windows o ns N : length (windows (offsets o ns N)) = length ns.
Proof.
  revert o. induction ns as [|n ns IH]; intros o; [done|].
  rewrite windows_cons. cbn. by rewrite IH.
Qed.

Lemma at_nat_drop (NB : list nat) f0 n ns : drop f0 NB = n :: ns → at_nat NB f0 = n.
Proof.
  intros H. unfold at_nat.
  assert (NB !! (f0 + 0) = Some n) as Hl.
  { rewrite <- lookup_drop, H. done. }
  rewrite Nat.add_0_r in Hl. by rewrite Hl.
Qed.

Lemma drop_S_tail {A} (l : list A) f0 x xs : drop f0 l = x :: xs → drop (S f0) l = xs.
Proof.
  intros H. replace (S f0) with (f0 + 1) by lia.
  rewrite <- (drop_drop l 1 f0), H. done.
Qed.

Lemma transpose_length rows cols (bytes : list byte) :
  length bytes = rows * cols → length (transpose rows cols bytes) = length bytes.
Proof.
  intros H. unfold transpose. destruct (Nat.eqb_spec rows cols) as [->|].
  - by apply transposeSquare_spec.
  - by apply transposeRect_spec.
Qed.

Lemma interleave_transpose (bytes : list byte) rows cols :
  length bytes = rows * cols → 0 < cols →
  interleave bytes (Z.of_nat cols) = Ok (transpose rows cols bytes).
Proof. apply interleave_eq. Qed.

Lemma deinterleave_transpose (bytes : list byte) rows cols :
  length bytes = rows * cols → 0 < cols → 0 < rows →
  deinterleave (transpose rows cols bytes) (Z.of_nat cols) = Ok bytes.
Proof.
  intros Hlen Hc Hr.
  destruct (deinterleave_interleave bytes rows cols Hlen Hc Hr) as (mid & H1 & _ & H2).
  rewrite (interleave_transpose bytes rows cols) in H1 by done. by injection H1 as <-.
Qed.

Lemma on_window_middle (pre seg post : list byte) f seg' :
  f seg = Ok seg' →
  on_window (pre ++ seg ++ post) (length pre) (length pre + length seg) f
  = Ok (pre ++ seg' ++ post).
Proof.
  intros Hf. unfold on_window.
  replace (length pre + length seg - length pre) with (length seg) by lia.
  rewrite drop_app_length, !take_app_length, Hf. cbn [mbind result_bind].
  replace (length pre + length seg) with (length (pre ++ seg)) by (by rewrite length_app).
  by rewrite (app_assoc pre seg post), drop_app_length.
Qed.

(** The loop [for i, field := range fields { interleave(field, nbytes[i]) }],
    from field [f0] on, on the columns [cols] that follow [pre]. *)
Lemma interleave_windows (NB : list nat) N :
  ∀ (ns : list nat) (cols : list (list byte)) (pre : list byte) f0,
    drop f0 NB = ns →
    Forall2 (λ n col, length col = N * n ∧ 0 < n) ns cols →
    for_each_from f0 (windows (offsets (length pre) ns N))
      (λ i '(lo, hi) b,
         on_window b lo hi (λ field, interleave field (Z.of_nat (at_nat NB i))))
      (pre ++ concat cols)
    = Ok (pre ++ concat (zip_with (transpose N) ns cols)).
Proof.
  induction ns as [|n ns IH]; intros cols pre f0 Hdrop HF.
  - apply Forall2_nil_inv_l in HF as ->. done.
  - apply Forall2_cons_inv_l in HF as (col & cols' & [Hlen Hn] & HF & ->).
    rewrite windows_cons. cbn [for_each_from concat zip_with].
    rewrite (at_nat_drop NB f0 n ns Hdrop).
    replace (n * N) with (length col) by lia.
    rewrite (on_window_middle pre col (concat cols') _ (transpose N n col)).
    2:{ apply interleave_transpose; lia. }
    cbn [mbind result_bind].
    replace (length pre + length col) with (length (pre ++ transpose N n col)).
    2:{ rewrite length_app, transpose_length; lia. }
    rewrite app_assoc.
    rewrite (IH cols' (pre ++ transpose N n col) (S f0));
      [| by eapply drop_S_tail | done].
    by rewrite <- app_assoc.
Qed.

End Columns.

Section Columns2.
Local Close Scope Z_scope.

(** The loop [for i, field := range fields { deinterleave(field, nbytes[i]) }]
    of [deinterleaveFields], from field [f0] on. *)
Lemma deinterleave_windows (NB : list nat) N :
  0 < N →
  ∀ (ns : list nat) (cols : list (list byte)) (pre : list byte) f0,
    drop f0 NB = ns →
    Forall2 (λ n col, length col = N * n ∧ 0 < n) ns cols →
    foldl (λ '(err, b) '(i, (lo, hi)),
             match err with
             | Ok () =>
                 match on_window b lo hi
                         (λ field, deinterleave field (Z.of_nat (at_nat NB i))) with
                 | Ok b' => (Ok (), b')
                 | Err e => (Err e, b)
                 | Panic => (Panic, b)
                 end
             | _ => (err, b)
             end)
          (Ok (), pre ++ concat (zip_with (transpose N) ns cols))
          (zip (seq f0 (length ns)) (windows (offsets (length pre) ns N)))
    = (Ok (), pre ++ concat cols).
Proof.
  intros HN. induction ns as [|n ns IH]; intros cols pre f0 Hdrop HF.
  - apply Forall2_nil_inv_l in HF as ->. done.
  - apply Forall2_cons_inv_l in HF as (col & cols' & [Hlen Hn] & HF & ->).
    rewrite windows_cons. cbn [length seq zip zip_with foldl concat].
    rewrite (at_nat_drop NB f0 n ns Hdrop).
    replace (n * N) with (length (transpose N n col))
      by (rewrite transpose_length; lia).
    rewrite (on_window_middle pre (transpose N n col) _ _ col).
    2:{ apply deinterleave_transpose; lia. }
    replace (length pre + length (transpose N n col)) with (length (pre ++ col)).
    2:{ rewrite length_app, transpose_length; lia. }
    rewrite (app_assoc pre col).
    rewrite (IH cols' (pre ++ col) (S f0)); [| by eapply drop_S_tail | done].
    by rewrite <- app_assoc.
Qed.

(** *** Columns *)

Lemma length_column (a : list Value) f n :
  Forall (λ v, length (fieldGet v f) = n) a → length (column a f) = length a * n.
Proof.
  unfold column. induction 1 as [|v a Hv _ IH]; [done|].
  cbn. rewrite length_app, IH, Hv. lia.
Qed.

Lemma column_snoc (a : list Value) v f :
  column (a ++ [v]) f = column a f ++ fieldGet v f.
Proof. unfold column. rewrite fmap_app, concat_app. cbn. by rewrite app_nil_r. Qed.

Lemma copy_to_split (A Z R src : list byte) hi :
  length Z = length src → length A + length src ≤ hi →
  copy_to (A ++ Z ++ R) (length A) hi src = A ++ src ++ R.
Proof.
  intros HZ Hhi. unfold copy_to.
  replace ((hi - length A) `min` length src) with (length src) by lia.
  rewrite take_app_length, firstn_all. f_equal. f_equal.
  rewrite <- HZ. replace (length A + length Z) with (length (A ++ Z)) by (by rewrite length_app).
  by rewrite (app_assoc A Z R), drop_app_length.
Qed.

Section Write.
Variables (a : list Value) (NB : list nat).
Hypothesis Hfields :
  ∀ v f, v ∈ a → f < length NB → length (fieldGet v f) = at_nat NB f.

Let N := length a.

Lemma length_column_take i f :
  f < length NB → i ≤ N → length (column (take i a) f) = i * at_nat NB f.
Proof.
  intros Hf Hi. rewrite (length_column _ f (at_nat NB f)).
  - rewrite length_take. unfold N in Hi. by replace (i `min` length a) with i by lia.
  - apply Forall_take, Forall_lookup. intros j v Hv.
    apply Hfields; [by eapply list_elem_of_lookup_2 | done].
Qed.

Lemma length_column_upto i f :
  f < length NB → i ≤ N → length (column_upto a NB i f) = at_nat NB f * N.
Proof.
  intros Hf Hi. unfold column_upto.
  rewrite length_app, length_replicate, length_column_take by done.
  fold N. nia.
Qed.

(** The inner loop [for f, field := range fields { copy(field[i*nbytes[f]:], fb) }]
    for the value [v] of index [i], from field [f0] on. *)
Lemma write_fields i v :
  a !! i = Some v →
  ∀ (ns : list nat) (pre : list byte) f0,
    drop f0 NB = ns →
    for_each_from f0 (windows (offsets (length pre) ns N))
      (λ f '(lo, hi) b,
         let fb := fieldGet v f in
         if negb (length fb =? at_nat NB f) then Panic
         else Ok (copy_to b (lo + i * at_nat NB f) hi fb))
      (pre ++ concat (column_upto a NB i <$> seq f0 (length ns)))
    = Ok (pre ++ concat (column_upto a NB (S i) <$> seq f0 (length ns))).
Proof.
  intros Hi. pose proof (lookup_lt_Some _ _ _ Hi) as HiN. fold N in HiN.
  induction ns as [|n ns IH]; intros pre f0 Hdrop; [done|].
  assert (f0 < length NB) as Hf0.
  { destruct (decide (f0 < length NB)); [done|].
    rewrite drop_ge in Hdrop by lia. done. }
  pose proof (at_nat_drop NB f0 n ns Hdrop) as Hn.
  rewrite windows_cons. cbn [length seq fmap list_fmap concat for_each_from].
  cbv zeta. rewrite (Hfields v f0) by (done || by eapply list_elem_of_lookup_2).
  rewrite Nat.eqb_refl. cbn [negb mbind result_bind]. rewrite Hn.
  set (P := column (take i a) f0).
  assert (length P = i * n) as HP.
  { unfold P. rewrite length_column_take by (done || lia). by rewrite Hn. }
  assert (column_upto a NB i f0 =
          P ++ replicate n 0%Z ++ replicate (n * (N - S i)) 0%Z) as ->.
  { unfold column_upto. fold P. fold N. rewrite Hn. f_equal.
    rewrite <- replicate_add. f_equal.
    replace (N - i) with (S (N - S i)) by lia. lia. }
  assert (column_upto a NB (S i) f0 =
          P ++ fieldGet v f0 ++ replicate (n * (N - S i)) 0%Z) as Hnext.
  { unfold column_upto. fold N. rewrite Hn.
    rewrite (take_S_r _ _ _ Hi), column_snoc. fold P. by rewrite <- app_assoc. }
  assert (length (fieldGet v f0) = n) as Hfb.
  { rewrite <- Hn. apply Hfields; [|done]. by eapply list_elem_of_lookup_2. }
  replace (length pre + i * n) with (length (pre ++ P)) by (rewrite length_app; lia).
  rewrite <- !app_assoc. rewrite (app_assoc pre P).
  rewrite copy_to_split.
  2:{ by rewrite length_replicate. }
  2:{ rewrite length_app, HP, Hfb. nia. }
  replace (length pre + n * N) with
    (length (pre ++ column_upto a NB (S i) f0)).
  2:{ rewrite length_app, length_column_upto by (done || lia). by rewrite Hn. }
  specialize (IH (pre ++ column_upto a NB (S i) f0) (S f0) (drop_S_tail _ _ _ _ Hdrop)).
  rewrite Hnext in IH |- *.
  rewrite <- !app_assoc in IH. rewrite <- !app_assoc.
  exact IH.
Qed.

End Write.

End Columns2.

Section Columns3.
Local Close Scope Z_scope.

Lemma total_bytes_acc acc ns :
  foldl (λ tbytes n, tbytes + n) acc ns = acc + total_bytes ns.
Proof.
  unfold total_bytes. revert acc. induction ns as [|n ns IH]; intros acc; cbn.
  - lia.
  - rewrite IH, (IH n). lia.
Qed.

Lemma total_bytes_cons n ns : total_bytes (n :: ns) = n + total_bytes ns.
Proof. unfold total_bytes at 1. cbn. apply total_bytes_acc. Qed.

Lemma column_upto_all (a : list Value) NB f :
  column_upto a NB (length a) f = column a f.
Proof.
  unfold column_upto. rewrite firstn_all, Nat.sub_diag, Nat.mul_0_r. cbn.
  by rewrite app_nil_r.
Qed.

Lemma column_upto_zero (a : list Value) NB :
  ∀ ns f0, drop f0 NB = ns →
    concat (column_upto a NB 0 <$> seq f0 (length ns))
    = replicate (total_bytes ns * length a) 0%Z.
Proof.
  induction ns as [|n ns IH]; intros f0 Hdrop; [done|].
  cbn [length seq fmap list_fmap concat].
  rewrite (IH (S f0)) by (by eapply drop_S_tail).
  unfold column_upto. rewrite take_0. cbn [column fmap list_fmap concat app].
  rewrite (at_nat_drop NB f0 n ns Hdrop), Nat.sub_0_r, total_bytes_cons.
  rewrite <- replicate_add. f_equal. lia.
Qed.

Lemma columns_Forall2 (a : list Value) NB :
  (∀ v f, v ∈ a → f < length NB → length (fieldGet v f) = at_nat NB f) →
  Forall (λ n, 0 < n) NB →
  ∀ ns f0, drop f0 NB = ns →
    Forall2 (λ n col, length col = length a * n ∧ 0 < n) ns
            (column a <$> seq f0 (length ns)).
Proof.
  intros Hfields Hpos. induction ns as [|n ns IH]; intros f0 Hdrop.
  - constructor.
  - cbn [length seq fmap list_fmap].
    assert (f0 < length NB) as Hf0.
    { destruct (decide (f0 < length NB)); [done|].
      rewrite drop_ge in Hdrop by lia. done. }
    pose proof (at_nat_drop NB f0 n ns Hdrop) as Hn.
    constructor; [|by eapply IH, drop_S_tail].
    split.
    + apply length_column. apply Forall_lookup. intros j v Hv.
      rewrite <- Hn. apply Hfields; [by eapply list_elem_of_lookup_2 | done].
    + rewrite Forall_lookup in Hpos. apply (Hpos f0).
      unfold at_nat in Hn. destruct (NB !! f0) as [x|] eqn:E; [by subst|].
      apply lookup_ge_None in E. lia.
Qed.

Lemma fielder_check_ok id (a : list Value) :
  Forall (λ v, is_fielder v = true ∧ Type_of v = id) a →
  for_each a (λ i v (_ : unit),
    if negb (is_fielder v) then Panic
    else if negb (Type_of v =? id)%Z
    then Err (ErrElementType i (Type_of v) id)
    else Ok ()) () = Ok ().
Proof.
  intros Ha.
  destruct (for_each_inv (λ _ _, True) a
    (λ i v (_ : unit),
      if negb (is_fielder v) then Panic
      else if negb (Type_of v =? id)%Z
      then Err (ErrElementType i (Type_of v) id)
      else Ok ()) ()) as ([] & H & _); [done | | done].
  intros i x [] Hi _. exists (). split; [|done].
  rewrite Forall_lookup in Ha. destruct (Ha i x Hi) as [-> ->].
  by rewrite Z.eqb_refl.
Qed.

(** What [interleaveFields] returns: the columns, each interleaved. *)
Lemma interleaveFields_columns id (a : list Value) (NB : list nat) v0 a' :
  a = v0 :: a' →
  Forall (λ v, is_fielder v = true ∧ Type_of v = id ∧ fieldLen v = NB) a →
  (∀ v f, v ∈ a → f < length NB → length (fieldGet v f) = at_nat NB f) →
  Forall (λ n, 0 < n) NB →
  interleaveFields id a =
  Ok (concat (zip_with (transpose (length a)) NB
                (column a <$> seq 0 (length NB)))).
Proof.
  intros Ha HF Hfields Hpos. unfold interleaveFields.
  subst a. cbv iota. set (a := v0 :: a') in *. rewrite fielder_check_ok.
  2:{ eapply Forall_impl; [|exact HF]. by intros v (? & ? & ?). }
  cbn [mbind result_bind].
  assert (fieldLen v0 = NB) as ->.
  { rewrite Forall_lookup in HF. by apply (HF 0 v0). }
  set (N := length a).
  destruct (for_each_inv
    (λ i b, b = concat (column_upto a NB i <$> seq 0 (length NB))) a
    (λ i v b,
       for_each (windows (offsets 0 NB N))
         (λ f '(lo, hi) b,
            if negb (length (fieldGet v f) =? at_nat NB f) then Panic
            else Ok (copy_to b (lo + i * at_nat NB f) hi (fieldGet v f))) b)
    (make (total_bytes NB * N))) as (b1 & Hb1 & HP).
  - symmetry. by apply column_upto_zero.
  - intros i v b Hi ->. eexists. split; [|reflexivity].
    pose proof (write_fields a NB Hfields i v Hi NB [] 0 eq_refl) as Hw.
    cbn [length app] in Hw. cbv zeta in Hw. exact Hw.
  - rewrite Hb1. cbn [mbind result_bind]. rewrite HP.
    assert (column_upto a NB (length a) <$> seq 0 (length NB)
            = column a <$> seq 0 (length NB)) as ->.
    { apply list_fmap_ext. intros j f _. apply (column_upto_all a NB). }
    pose proof (interleave_windows NB N NB (column a <$> seq 0 (length NB)) [] 0
                  eq_refl) as Hi.
    cbn [length app] in Hi. apply Hi.
    by apply (columns_Forall2 a NB).
Qed.

End Columns3.

Section Columns4.
Local Close Scope Z_scope.

Lemma for_each_from_ext {A B St} f0 (l : list A) (l' : list B)
    (body : nat → A → St → result St) (body' : nat → B → St → result St) s :
  length l = length l' →
  (∀ j x x' s, l !! j = Some x → l' !! j = Some x' →
     body (f0 + j) x s = body' (f0 + j) x' s) →
  for_each_from f0 l body s = for_each_from f0 l' body' s.
Proof.
  revert l' f0 s. induction l as [|x l IH]; intros [|x' l'] f0 s Hlen Hb;
    try done.
  cbn [for_each_from].
  pose proof (Hb 0 x x' s eq_refl eq_refl) as H0. rewrite Nat.add_0_r in H0.
  rewrite H0. destruct (body' f0 x' s) as [s'| |]; cbn; [|done|done].
  apply IH; [cbn in Hlen; lia|].
  intros j y y' s0 Hy Hy'. replace (S f0 + j) with (f0 + S j) by lia.
  by apply Hb.
Qed.

Lemma length_transposed_columns N :
  ∀ ns cols, Forall2 (λ n (col : list byte), length col = N * n ∧ 0 < n) ns cols →
    length (concat (zip_with (transpose N) ns cols)) = total_bytes ns * N.
Proof.
  induction 1 as [|n col ns cols [Hl Hn] _ IH]; [done|].
  cbn [zip_with concat]. rewrite length_app, IH, total_bytes_cons.
  rewrite transpose_length by lia. lia.
Qed.

Lemma total_bytes_pos ns : ns ≠ [] → Forall (λ n, 0 < n) ns → 0 < total_bytes ns.
Proof.
  intros Hne Hpos. destruct Hpos as [|n ns Hn _]; [done|].
  rewrite total_bytes_cons. lia.
Qed.

Section Read.
Variables (a : list Value) (NB : list nat).
Hypothesis Hfields :
  ∀ v f, v ∈ a → f < length NB → length (fieldGet v f) = at_nat NB f.

Let N := length a.

(** After the field slices are deinterleaved, the bytes of field [f] of the
    value of index [i] are at [fields[f][i*n : i*n+n]]. *)
Lemma window_slice i v :
  a !! i = Some v →
  ∀ (ns : list nat) (pre : list byte) f0,
    drop f0 NB = ns →
    ∀ j lo hi,
      windows (offsets (length pre) ns N) !! j = Some (lo, hi) →
      slice (pre ++ concat (column a <$> seq f0 (length ns)))
            (lo + i * at_nat NB (f0 + j))
            (lo + i * at_nat NB (f0 + j) + at_nat NB (f0 + j))
      = Ok (fieldGet v (f0 + j)).
Proof.
  intros Hi. pose proof (lookup_lt_Some _ _ _ Hi) as HiN. fold N in HiN.
  induction ns as [|n ns IH]; intros pre f0 Hdrop j lo hi Hw; [done|].
  assert (f0 < length NB) as Hf0.
  { destruct (decide (f0 < length NB)); [done|].
    rewrite drop_ge in Hdrop by lia. done. }
  pose proof (at_nat_drop NB f0 n ns Hdrop) as Hn.
  rewrite windows_cons in Hw. cbn [length seq fmap list_fmap concat].
  destruct j as [|j].
  - injection Hw as <- <-. rewrite Nat.add_0_r, Hn.
    assert (column a f0 =
            column (take i a) f0 ++ fieldGet v f0 ++ column (drop (S i) a) f0) as ->.
    { rewrite <- (take_drop_middle a i v Hi) at 1.
      unfold column. rewrite fmap_app, concat_app. cbn. done. }
    assert (length (fieldGet v f0) = n) as Hfb.
    { rewrite <- Hn. apply Hfields; [|done]. by eapply list_elem_of_lookup_2. }
    assert (length (column (take i a) f0) = i * n) as HP.
    { rewrite (length_column_take a NB Hfields) by (done || lia). by rewrite Hn. }
    replace (length pre + i * n) with (length (pre ++ column (take i a) f0))
      by (rewrite length_app; lia).
    rewrite <- !app_assoc. rewrite (app_assoc pre).
    set (A := pre ++ column (take i a) f0).
    replace (length A + n) with (length A + length (fieldGet v f0)) by lia.
    apply slice_middle.
  - cbn [lookup list_lookup] in Hw.
    replace (f0 + S j) with (S f0 + j) by lia.
    replace (length pre + n * N) with (length (pre ++ column a f0)) in Hw.
    2:{ rewrite length_app. f_equal.
        rewrite <- (column_upto_all a NB f0).
        rewrite (length_column_upto a NB Hfields) by (done || lia).
        by rewrite Hn. }
    rewrite app_assoc.
    apply (IH (pre ++ column a f0) (S f0) (drop_S_tail _ _ _ _ Hdrop) j lo hi Hw).
Qed.

End Read.

(** [deinterleaveFields] on what [interleaveFields] returned: it returns the
    values and leaves the plain columns in the buffer. *)
Lemma deinterleaveFields_columns id (a : list Value) (NB : list nat) zero :
  a ≠ [] → NB ≠ [] →
  (∀ v f, v ∈ a → f < length NB → length (fieldGet v f) = at_nat NB f) →
  Forall (λ n, 0 < n) NB →
  newValue id = Some zero → is_fielder zero = true → fieldLen zero = NB →
  (∀ v, v ∈ a → rebuild zero v = Ok v) →
  deinterleaveFields_run id
    (concat (zip_with (transpose (length a)) NB (column a <$> seq 0 (length NB))))
  = (Ok a, concat (column a <$> seq 0 (length NB))).
Proof.
  intros Ha HNB Hfields Hpos Hzero Hfz Hfl Hrebuild.
  set (N := length a).
  assert (0 < N) as HN by (unfold N; destruct a; [done | cbn; lia]).
  pose proof (columns_Forall2 a NB Hfields Hpos NB 0 eq_refl) as HF2.
  fold N in HF2.
  pose proof (length_transposed_columns N _ _ HF2) as Hlen.
  pose proof (total_bytes_pos NB HNB Hpos) as Htb.
  unfold deinterleaveFields_run.
  set (b := concat (zip_with (transpose N) NB _)) in *.
  destruct (Nat.eqb_spec (length b) 0) as [H0|_]; [nia|].
  rewrite Hzero, Hfz, Hfl. cbn [negb].
  destruct (Nat.eqb_spec (total_bytes NB) 0) as [H0|_]; [lia|].
  rewrite Hlen. replace (total_bytes NB * N) with (N * total_bytes NB) by lia.
  rewrite Nat.Div0.mod_mul. cbn [Nat.eqb negb].
  rewrite Nat.div_mul by lia.
  rewrite length_windows.
  pose proof (deinterleave_windows NB N HN NB (column a <$> seq 0 (length NB)) [] 0
                eq_refl HF2) as Hd.
  cbn [length app] in Hd. fold b in Hd. rewrite Hd. clear Hd.
  f_equal.
  destruct (for_each_inv (λ i acc, acc = take i a) (seq 0 N)
    (λ (_ i : nat) a0,
       (for_each (windows (offsets 0 NB N))
          (λ f '(lo, hi) v,
             let n := at_nat NB f in
             slice (concat (column a <$> seq 0 (length NB)))
               (lo + i * n) (lo + i * n + n)
             ≫= λ fb, ignore_err v (fieldSet v f fb)) zero)
       ≫= λ v, Ok (a0 ++ [v])) []) as (r & Hr & HP).
  - done.
  - intros k i acc Hk ->. apply lookup_seq in Hk as [-> HkN]. cbn [Nat.add].
    destruct (lookup_lt_is_Some_2 a k HkN) as [v Hv].
    exists (take (S k) a). split; [|done]. cbv zeta.
    assert (for_each (windows (offsets 0 NB N))
              (λ f '(lo, hi) u,
                 slice (concat (column a <$> seq 0 (length NB)))
                   (lo + k * at_nat NB f) (lo + k * at_nat NB f + at_nat NB f)
                 ≫= λ fb, ignore_err u (fieldSet u f fb)) zero = Ok v) as ->.
    { rewrite <- (Hrebuild v) by (by eapply list_elem_of_lookup_2).
      unfold rebuild, for_each. rewrite Hfl.
      apply for_each_from_ext; [by rewrite length_windows|].
      intros j [lo hi] n u Hw Hn.
      pose proof (window_slice a NB Hfields k v Hv NB [] 0 eq_refl j lo hi Hw) as Hs.
      cbn [app Nat.add] in Hs. cbn [Nat.add]. rewrite Hs. done. }
    cbn [mbind result_bind]. by rewrite (take_S_r _ _ _ Hv).
  - cbv zeta in Hr. rewrite Hr, HP, length_seq. unfold N. by rewrite firstn_all.
Qed.

End Columns4.

(** ** Kinds read by appendByteValues and fielder kinds *)

(** ** The seven fielder kinds *)

Section Fielders.
Local Close Scope Z_scope.

Lemma fieldGet_length (v : Value) f :
  is_fielder v = true → f < length (fieldLen v) →
  length (fieldGet v f) = at_nat (fieldLen v) f.
Proof.
  intros Hf Hlt. destruct v; try discriminate;
    cbn [fieldLen length ValueUDim_fieldLen ValueUDim2_fieldLen ValueColor3_fieldLen
         ValueVector2_fieldLen ValueVector3_fieldLen ValueRect2D_fieldLen
         ValueColor3uint8_fieldLen] in Hlt |- *;
    repeat (destruct f as [|f];
      [cbn [fieldGet ValueUDim_fieldGet ValueUDim2_fieldGet ValueColor3_fieldGet
            ValueVector2_fieldGet ValueVector3_fieldGet ValueRect2D_fieldGet
            ValueColor3uint8_fieldGet];
       lazymatch goal with
       | |- length (ValueFloat_Bytes _) = _ => exact (length_ValueFloat_Bytes _)
       | |- length (ValueInt_Bytes _) = _ => exact (length_ValueInt_Bytes _)
       | |- length [_] = _ => reflexivity
       end|]);
    lia.
Qed.

Lemma fieldLen_pos (v : Value) :
  is_fielder v = true → fieldLen v ≠ [] ∧ Forall (λ n, 0 < n) (fieldLen v).
Proof.
  intros Hf. destruct v; try discriminate; (split; [done|]);
    repeat constructor.
Qed.

Lemma newValue_fielder (v zero : Value) :
  is_fielder v = true → newValue (Type_of v) = Some zero →
  is_fielder zero = true ∧ fieldLen zero = fieldLen v.
Proof.
  intros Hf Hz. destruct v; try discriminate;
    vm_compute in Hz; injection Hz as <-; done.
Qed.

Ltac rebuild_step :=
  first
    [ rewrite ValueFloat_FromBytes_Bytes by assumption
    | rewrite ValueInt_FromBytes_Bytes by assumption
    | progress cbn [for_each_from mbind result_bind fmap result_fmap ignore_err
                    fieldSet fieldGet
                    ValueUDim_fieldSet ValueUDim_fieldGet
                    ValueUDim2_fieldSet ValueUDim2_fieldGet
                    ValueColor3_fieldSet ValueColor3_fieldGet
                    ValueVector2_fieldSet ValueVector2_fieldGet
                    ValueVector3_fieldSet ValueVector3_fieldGet
                    ValueRect2D_fieldSet ValueRect2D_fieldGet
                    ValueColor3uint8_fieldSet ValueColor3uint8_fieldGet
                    UDim_Scale UDim_Offset
                    UDim2_ScaleX UDim2_ScaleY UDim2_OffsetX UDim2_OffsetY
                    Color3_R Color3_G Color3_B
                    Vector2_X Vector2_Y Vector3_X Vector3_Y Vector3_Z
                    Rect2D_Min Rect2D_Max
                    Color3uint8_R Color3uint8_G Color3uint8_B] ].

Lemma rebuild_fielder (v zero : Value) :
  is_fielder v = true → wf_Value v → newValue (Type_of v) = Some zero →
  rebuild zero v = Ok v.
Proof.
  intros Hf Hwf Hz. destruct v as [| | | | |v|v| | | | |v|v|v| | | | | | | | |v| |v| |];
    try discriminate;
    vm_compute in Hz; injection Hz as <-;
    unfold rebuild, for_each;
    cbn [fieldLen];
    unfold ValueUDim_fieldLen, ValueUDim2_fieldLen, ValueColor3_fieldLen,
           ValueVector2_fieldLen, ValueVector3_fieldLen, ValueRect2D_fieldLen,
           ValueColor3uint8_fieldLen.
  - destruct v as [s o]. destruct Hwf as [Hs Ho]. cbn in Hs, Ho.
    repeat rebuild_step. done.
  - destruct v as [sx sy ox oy]. destruct Hwf as (H1 & H2 & H3 & H4).
    cbn in H1, H2, H3, H4. repeat rebuild_step. done.
  - destruct v as [r g b]. destruct Hwf as (H1 & H2 & H3).
    cbn in H1, H2, H3. repeat rebuild_step. done.
  - destruct v as [x y]. destruct Hwf as (H1 & H2).
    cbn in H1, H2. repeat rebuild_step. done.
  - destruct v as [x y z]. destruct Hwf as (H1 & H2 & H3).
    cbn in H1, H2, H3. repeat rebuild_step. done.
  - destruct v as [[x1 y1] [x2 y2]]. destruct Hwf as ((H1 & H2) & (H3 & H4)).
    cbn in H1, H2, H3, H4. repeat rebuild_step. done.
  - destruct v as [r g b]. repeat rebuild_step. done.
Qed.

End Fielders.

(** ** Arrays of the kinds that are read by [appendByteValues] *)

Section Simple.
Local Close Scope Z_scope.

Lemma newValue_Type_of (v : Value) : ∃ zero, newValue (Type_of v) = Some zero.
Proof. destruct v; eexists; reflexivity. Qed.

(** The kinds with values of a fixed size that [FromBytes] reads back. *)
Lemma fixed_size_value (v zero : Value) (size : nat) :
  wf_Value v → newValue (Type_of v) = Some zero →
  match v with
  | VBool _ | VFaces _ | VAxes _ => size = 1
  | VVector3int16 _ => size = 6
  | VDouble _ | VNumberRange _ | VInt64 _ => size = 8
  | VRay _ => size = 24
  | VInt _ | VFloat _ | VBrickColor _ | VToken _ | VSharedString _ => size = 4
  | _ => False
  end →
  length (Bytes v) = size ∧ FromBytes zero (Bytes v) = Ok v.
Proof.
  intros Hwf Hz Hsize.
  destruct v; try (exfalso; exact Hsize);
    vm_compute in Hz; injection Hz as <-; subst size;
    cbn [Bytes FromBytes wf_Value fmap result_fmap] in *.
  - split; [by destruct v|]. rewrite ValueBool_FromBytes_Bytes. reflexivity.
  - split; [apply length_ValueInt_Bytes|]. rewrite ValueInt_FromBytes_Bytes by assumption. reflexivity.
  - split; [apply length_ValueFloat_Bytes|]. rewrite ValueFloat_FromBytes_Bytes by assumption. reflexivity.
  - split; [apply length_ValueDouble_Bytes|]. rewrite ValueDouble_FromBytes_Bytes by assumption. reflexivity.
  - split; [apply length_ValueRay_Bytes|]. rewrite ValueRay_FromBytes_Bytes by assumption. reflexivity.
  - split; [reflexivity|]. rewrite ValueFaces_FromBytes_Bytes. reflexivity.
  - split; [reflexivity|]. rewrite ValueAxes_FromBytes_Bytes. reflexivity.
  - split; [apply length_ValueBrickColor_Bytes|].
    rewrite ValueBrickColor_FromBytes_Bytes by assumption. reflexivity.
  - split; [apply length_ValueBrickColor_Bytes|].
    change (ValueToken_FromBytes (ValueToken_Bytes v))
      with (ValueBrickColor_FromBytes (ValueBrickColor_Bytes v)).
    rewrite ValueBrickColor_FromBytes_Bytes by assumption. reflexivity.
  - split; [apply length_ValueVector3int16_Bytes|].
    rewrite ValueVector3int16_FromBytes_Bytes by assumption. reflexivity.
  - split; [apply length_ValueNumberRange_Bytes|].
    rewrite ValueNumberRange_FromBytes_Bytes by assumption. reflexivity.
  - split; [apply length_ValueInt64_Bytes|]. rewrite ValueInt64_FromBytes_Bytes by assumption. reflexivity.
  - split; [apply length_ValueBrickColor_Bytes|].
    change (ValueSharedString_FromBytes (ValueSharedString_Bytes v))
      with (ValueBrickColor_FromBytes (ValueBrickColor_Bytes v)).
    rewrite ValueBrickColor_FromBytes_Bytes by assumption. reflexivity.
Qed.

(** The kinds with a length prefix. *)
Lemma variable_size_value (v zero : Value) (field : nat) :
  wf_Value v → newValue (Type_of v) = Some zero →
  match v with
  | VString _ => field = 1
  | VNumberSequence _ => field = sizeNSK
  | VColorSequence _ => field = sizeCSK
  | _ => False
  end →
  4 ≤ length (Bytes v) ∧
  length (Bytes v) = 4 + Z.to_nat (LittleEndian_Uint32 (Bytes v) 0) * field ∧
  FromBytes zero (Bytes v) = Ok v.
Proof.
  intros Hwf Hz Hfield.
  destruct v; try (exfalso; exact Hfield);
    vm_compute in Hz; injection Hz as <-; subst field;
    cbn [Bytes FromBytes wf_Value fmap result_fmap] in *; destruct Hwf as [Hwf Hlen].
  - rewrite length_ValueString_Bytes, ValueString_header by done.
    rewrite ValueString_FromBytes_Bytes by done.
    rewrite Nat2Z.id. repeat split; lia.
  - destruct (ValueNumberSequence_Bytes_spec v Hwf Hlen) as (H1 & H2 & H3).
    rewrite H1, H2, H3, Nat2Z.id. repeat split; lia.
  - destruct (ValueColorSequence_Bytes_spec v Hwf Hlen) as (H1 & H2 & H3).
    rewrite H1, H2, H3, Nat2Z.id. repeat split; lia.
Qed.

Lemma Forall2_fmap_l_same {A B} (f : A → B) (P : B → A → Prop) (l : list A) :
  Forall (λ x, P (f x) x) l → Forall2 P (f <$> l) l.
Proof. induction 1; constructor; done. Qed.

Lemma fixed_array t (size : nat) (xs : list Value) zero :
  0 < size → newValue t = Some zero →
  Forall (λ v, Type_of v = t ∧
               length (Bytes v) = size ∧ FromBytes zero (Bytes v) = Ok v) xs →
  appendValueBytes t xs = Ok (concat (Bytes <$> xs)) ∧
  appendByteValues t (concat (Bytes <$> xs)) (Z.of_nat size) 0 = Ok xs.
Proof.
  intros Hsize Hz Hxs. split.
  - apply appendValueBytes_concat.
    eapply Forall_impl; [|exact Hxs]. by intros v (? & _).
  - apply (appendByteValues_fixed t size zero); [done | done |].
    apply Forall2_fmap_l_same.
    eapply Forall_impl; [|exact Hxs]. by intros v (_ & ? & ?).
Qed.

Lemma variable_array t (field : nat) (xs : list Value) zero :
  newValue t = Some zero →
  Forall (λ v, Type_of v = t ∧
               4 ≤ length (Bytes v) ∧
               length (Bytes v) = 4 + Z.to_nat (LittleEndian_Uint32 (Bytes v) 0) * field ∧
               FromBytes zero (Bytes v) = Ok v) xs →
  appendValueBytes t xs = Ok (concat (Bytes <$> xs)) ∧
  appendByteValues t (concat (Bytes <$> xs)) (-1) field = Ok xs.
Proof.
  intros Hz Hxs. split.
  - apply appendValueBytes_concat.
    eapply Forall_impl; [|exact Hxs]. by intros v (? & _).
  - apply (appendByteValues_variable t field zero); [done |].
    apply Forall2_fmap_l_same.
    eapply Forall_impl; [|exact Hxs]. by intros v (_ & ? & ? & ?).
Qed.

Lemma length_concat_fixed (chunks : list (list byte)) n :
  Forall (λ c, length c = n) chunks → length (concat chunks) = length chunks * n.
Proof.
  induction 1 as [|c chunks Hc _ IH]; [done|].
  cbn. rewrite length_app, IH, Hc. lia.
Qed.

(** The scalar kinds whose concatenated bytes are interleaved as a whole. *)
Lemma interleaved_array t (size : nat) (xs : list Value) zero :
  0 < size → xs ≠ [] → newValue t = Some zero →
  Forall (λ v, Type_of v = t ∧
               length (Bytes v) = size ∧ FromBytes zero (Bytes v) = Ok v) xs →
  ∃ b,
    (b0 ← appendValueBytes t xs; interleave b0 (Z.of_nat size)) = Ok b ∧
    (let bc := copy_at (make (length b)) 0 b in
     bc ← deinterleave bc (Z.of_nat size);
     appendByteValues t bc (Z.of_nat size) 0) = Ok xs.
Proof.
  intros Hsize Hne Hz Hxs.
  destruct (fixed_array t size xs zero Hsize Hz Hxs) as [He Hd].
  set (b0 := concat (Bytes <$> xs)) in *.
  assert (length b0 = length xs * size) as Hlen.
  { unfold b0. rewrite (length_concat_fixed _ size), length_fmap; [done|].
    apply Forall_fmap. eapply Forall_impl; [|exact Hxs]. by intros v (_ & ? & _). }
  assert (0 < length xs) by (destruct xs; [done | cbn; lia]).
  destruct (deinterleave_interleave b0 (length xs) size Hlen Hsize)
    as (mid & H1 & H2 & H3); [done|].
  exists mid. rewrite He. cbn [mbind result_bind]. split; [done|].
  cbv zeta. rewrite copy_at_make, H3. cbn [mbind result_bind]. done.
Qed.

End Simple.

(** ** Arrays: dispatch on the type tag and round trips *)

Lemma case_of_In t l : case_of t l = true → In t l.
Proof.
  unfold case_of. intros H. apply existsb_exists in H as (x & Hx & Heq).
  apply Z.eqb_eq in Heq. by subst.
Qed.

(** Replace [Valid t] and [case_of t l] on closed arguments by their value. *)
Ltac eval_tags :=
  repeat match goal with
    | |- context [Valid ?t] =>
        let b := eval vm_compute in (Valid t) in change (Valid t) with b
    | |- context [case_of ?t ?l] =>
        let b := eval vm_compute in (case_of t l) in change (case_of t l) with b
    end;
  cbv iota; cbn [negb].

(** Split [case_of t l = true] into one goal for every tag of [l]. *)
Ltac split_tag H :=
  apply case_of_In in H; cbn [In] in H;
  repeat (destruct H as [H|H]; [symmetry in H; subst|]); [..|contradiction].

Lemma Forall_Type_of t (xs : list Value) :
  Forall (λ v, Type_of v = t ∧ wf_Value v) xs → Forall (λ v, Type_of v = t) xs.
Proof. apply Forall_impl. by intros v [? _]. Qed.

Ltac enter_ValuesToBytes Hxs :=
  unfold ValuesToBytes; eval_tags;
  rewrite (type_check_ok _ _ (Forall_Type_of _ _ Hxs));
  cbn [mbind result_bind]; eval_tags.

Section Round_trips.
Local Close Scope Z_scope.

(** The kinds whose arrays are plain concatenations. *)
Theorem plain_array_roundtrip (t : Z) (xs : list Value) :
  case_of t [TypeString; TypeBool; TypeDouble; TypeRay; TypeFaces; TypeAxes;
             TypeVector3int16; TypeNumberSequence; TypeColorSequence;
             TypeNumberRange] = true →
  Forall (λ v, Type_of v = t ∧ wf_Value v) xs →
  ValuesToBytes t xs = Ok (concat (Bytes <$> xs)) ∧
  ValuesFromBytes t (concat (Bytes <$> xs)) = Ok xs ∧
  ValuesFromBytes_buffer t (concat (Bytes <$> xs)) = concat (Bytes <$> xs).
Proof.
  intros Ht Hxs.
  destruct (newValue t) as [zero|] eqn:Hz.
  2:{ split_tag Ht; vm_compute in Hz; discriminate. }
  assert (Hfix : ∀ size : nat,
    (0 < size)%nat →
    Forall (λ v, match v with
                 | VBool _ | VFaces _ | VAxes _ => size = 1%nat
                 | VVector3int16 _ => size = 6%nat
                 | VDouble _ | VNumberRange _ | VInt64 _ => size = 8%nat
                 | VRay _ => size = 24%nat
                 | VInt _ | VFloat _ | VBrickColor _ | VToken _
                 | VSharedString _ => size = 4%nat
                 | _ => False
                 end) xs →
    appendValueBytes t xs = Ok (concat (Bytes <$> xs)) ∧
    appendByteValues t (concat (Bytes <$> xs)) (Z.of_nat size) 0 = Ok xs).
  { intros size Hsize Hk. apply (fixed_array t size xs zero Hsize Hz).
    rewrite Forall_lookup in Hxs, Hk. apply Forall_lookup. intros i v Hi.
    destruct (Hxs i v Hi) as [Hty Hwf]. split; [done|].
    apply fixed_size_value; [done | by rewrite Hty | by apply (Hk i v Hi)]. }
  assert (Hvar : ∀ field : nat,
    Forall (λ v, match v with
                 | VString _ => field = 1%nat
                 | VNumberSequence _ => field = sizeNSK
                 | VColorSequence _ => field = sizeCSK
                 | _ => False
                 end) xs →
    appendValueBytes t xs = Ok (concat (Bytes <$> xs)) ∧
    appendByteValues t (concat (Bytes <$> xs)) (-1) field = Ok xs).
  { intros field Hk. apply (variable_array t field xs zero Hz).
    rewrite Forall_lookup in Hxs, Hk. apply Forall_lookup. intros i v Hi.
    destruct (Hxs i v Hi) as [Hty Hwf]. split; [done|].
    apply variable_size_value; [done | by rewrite Hty | by apply (Hk i v Hi)]. }
  assert (Hkind : ∀ (P : Value → Prop),
    (∀ v, Type_of v = t → P v) → Forall P xs).
  { intros P HP. eapply Forall_impl; [|exact Hxs]. intros v [Hty _]. by apply HP. }
  unfold ValuesFromBytes, ValuesFromBytes_buffer.
  split_tag Ht; enter_ValuesToBytes Hxs; unfold ValuesFromBytes_run; eval_tags;
    cbn [fst snd].
  - destruct (Hvar 1%nat) as [H1 H2]; [|by rewrite H1, H2].
    apply Hkind. intros v Hv. destruct v; try discriminate Hv. done.
  - destruct (Hfix 1%nat) as [H1 H2]; [lia | |
      change (Z.of_nat 1) with 1%Z in H2; by rewrite H1, H2].
    apply Hkind. intros v Hv. destruct v; try discriminate Hv. done.
  - destruct (Hfix 8%nat) as [H1 H2]; [lia | |
      change (Z.of_nat 8) with 8%Z in H2; by rewrite H1, H2].
    apply Hkind. intros v Hv. destruct v; try discriminate Hv. done.
  - destruct (Hfix 24%nat) as [H1 H2]; [lia | |
      change (Z.of_nat 24) with 24%Z in H2; by rewrite H1, H2].
    apply Hkind. intros v Hv. destruct v; try discriminate Hv. done.
  - destruct (Hfix 1%nat) as [H1 H2]; [lia | |
      change (Z.of_nat 1) with 1%Z in H2; by rewrite H1, H2].
    apply Hkind. intros v Hv. destruct v; try discriminate Hv. done.
  - destruct (Hfix 1%nat) as [H1 H2]; [lia | |
      change (Z.of_nat 1) with 1%Z in H2; by rewrite H1, H2].
    apply Hkind. intros v Hv. destruct v; try discriminate Hv. done.
  - destruct (Hfix 6%nat) as [H1 H2]; [lia | |
      change (Z.of_nat 6) with 6%Z in H2; by rewrite H1, H2].
    apply Hkind. intros v Hv. destruct v; try discriminate Hv. done.
  - destruct (Hvar sizeNSK) as [H1 H2]; [|by rewrite H1, H2].
    apply Hkind. intros v Hv. destruct v; try discriminate Hv. done.
  - destruct (Hvar sizeCSK) as [H1 H2]; [|by rewrite H1, H2].
    apply Hkind. intros v Hv. destruct v; try discriminate Hv. done.
  - destruct (Hfix 8%nat) as [H1 H2]; [lia | |
      change (Z.of_nat 8) with 8%Z in H2; by rewrite H1, H2].
    apply Hkind. intros v Hv. destruct v; try discriminate Hv. done.
Qed.

(** The scalar kinds whose concatenation is interleaved with stride 4 or 8. *)
Theorem interleaved_array_roundtrip (t : Z) (xs : list Value) :
  stride_interleaved t = true → xs ≠ [] →
  Forall (λ v, Type_of v = t ∧ wf_Value v) xs →
  ∃ b, ValuesToBytes t xs = Ok b ∧
       length b = length (concat (Bytes <$> xs)) ∧
       ValuesFromBytes t b = Ok xs ∧
       ValuesFromBytes_buffer t b = b.
Proof.
  intros Ht Hne Hxs. unfold stride_interleaved in Ht.
  destruct (newValue t) as [zero|] eqn:Hz.
  2:{ split_tag Ht; vm_compute in Hz; discriminate. }
  assert (Hfix : ∀ size : nat,
    (0 < size)%nat →
    Forall (λ v, match v with
                 | VBool _ | VFaces _ | VAxes _ => size = 1%nat
                 | VVector3int16 _ => size = 6%nat
                 | VDouble _ | VNumberRange _ | VInt64 _ => size = 8%nat
                 | VRay _ => size = 24%nat
                 | VInt _ | VFloat _ | VBrickColor _ | VToken _
                 | VSharedString _ => size = 4%nat
                 | _ => False
                 end) xs →
    ∃ b,
      (b0 ← appendValueBytes t xs; interleave b0 (Z.of_nat size)) = Ok b ∧
      length b = length (concat (Bytes <$> xs)) ∧
      (let bc := copy_at (make (length b)) 0 b in
       bc ← deinterleave bc (Z.of_nat size);
       appendByteValues t bc (Z.of_nat size) 0) = Ok xs).
  { intros size Hsize Hk.
    assert (Forall (λ v, Type_of v = t ∧ length (Bytes v) = size ∧
                         FromBytes zero (Bytes v) = Ok v) xs) as HF.
    { rewrite Forall_lookup in Hxs, Hk. apply Forall_lookup. intros i v Hi.
      destruct (Hxs i v Hi) as [Hty Hwf]. split; [done|].
      apply fixed_size_value; [done | by rewrite Hty | by apply (Hk i v Hi)]. }
    destruct (interleaved_array t size xs zero Hsize Hne Hz HF) as (b & H1 & H2).
    exists b. split; [done|]. split; [|done].
    destruct (fixed_array t size xs zero Hsize Hz HF) as [He _].
    rewrite He in H1. cbn [mbind result_bind] in H1.
    set (b0 := concat (Bytes <$> xs)) in *.
    assert (length b0 = length xs * size)%nat as Hlen.
    { unfold b0. rewrite (length_concat_fixed _ size), length_fmap; [done|].
      apply Forall_fmap. eapply Forall_impl; [|exact HF]. by intros v (_ & ? & _). }
    destruct (interleave_spec b0 (length xs) size Hlen Hsize) as (o & Ho & Hl & _).
    rewrite Ho in H1. injection H1 as <-. done. }
  assert (Hkind : ∀ (P : Value → Prop),
    (∀ v, Type_of v = t → P v) → Forall P xs).
  { intros P HP. eapply Forall_impl; [|exact Hxs]. intros v [Hty _]. by apply HP. }
  unfold ValuesFromBytes, ValuesFromBytes_buffer.
  split_tag Ht; enter_ValuesToBytes Hxs.
  1-5: destruct (Hfix 4%nat) as (b & H1 & Hl & H2);
    [lia | apply Hkind; intros v Hv; destruct v; try discriminate Hv; done |].
  6: destruct (Hfix 8%nat) as (b & H1 & Hl & H2);
    [lia | apply Hkind; intros v Hv; destruct v; try discriminate Hv; done |].
  all: exists b; unfold ValuesFromBytes_run; eval_tags; cbn [fst snd].
  1-5: change (Z.of_nat 4) with 4%Z in H1, H2.
  6: change (Z.of_nat 8) with 8%Z in H1, H2.
  all: cbv zeta in H2; rewrite H1, H2; done.
Qed.

(** The empty array of these kinds is encoded, and its encoding is not
    decoded: [deinterleave] rejects the empty buffer. *)
Theorem interleaved_array_empty (t : Z) :
  stride_interleaved t = true →
  ValuesToBytes t [] = Ok [] ∧ ValuesFromBytes t [] = Err ErrLengthNotPositive.
Proof.
  intros Ht. unfold stride_interleaved in Ht. split_tag Ht; split; reflexivity.
Qed.

Lemma fielder_of_type (t : Z) (v : Value) :
  case_of t [TypeUDim; TypeUDim2; TypeColor3; TypeVector2; TypeVector3;
             TypeRect2D; TypeColor3uint8] = true →
  Type_of v = t → is_fielder v = true.
Proof.
  intros Ht Hv. split_tag Ht; destruct v; try discriminate Hv; reflexivity.
Qed.

(** What [interleaveFields] and [deinterleaveFields] do on the arrays of one
    fielder kind. *)
Lemma fields_roundtrip (t : Z) (xs : list Value) :
  case_of t [TypeUDim; TypeUDim2; TypeColor3; TypeVector2; TypeVector3;
             TypeRect2D; TypeColor3uint8] = true →
  Forall (λ v, Type_of v = t ∧ wf_Value v) xs →
  ∃ b, interleaveFields t xs = Ok b ∧
       length b = total_bytes (fieldLen (default (VBool false) (head xs))) * length xs ∧
       deinterleaveFields_run t b
       = (Ok xs, concat (column xs <$> seq 0 (length (fieldLen (default (VBool false) (head xs)))))).
Proof.
  intros Ht Hxs. destruct xs as [|v0 xs'] eqn:Exs.
  { exists []. split; [done|]. split; [cbn; lia | reflexivity]. }
  rewrite <- Exs in *. cbn [head default].
  assert (Hhead : head xs = Some v0) by (by rewrite Exs).
  replace (default (VBool false) (head xs)) with v0 by (by rewrite Hhead).
  assert (Hv0 : Type_of v0 = t ∧ wf_Value v0).
  { rewrite Forall_lookup in Hxs. apply (Hxs 0%nat). by rewrite Exs. }
  destruct Hv0 as [Hty0 Hwf0].
  pose proof (fielder_of_type t v0 Ht Hty0) as Hf0.
  destruct (newValue_Type_of v0) as [zero Hz].
  destruct (newValue_fielder v0 zero Hf0 Hz) as [Hfz Hfl].
  set (NB := fieldLen v0) in *.
  assert (Hall : Forall (λ v, is_fielder v = true ∧ Type_of v = t ∧ fieldLen v = NB) xs).
  { eapply Forall_impl; [|exact Hxs]. intros v [Hty Hwf].
    pose proof (fielder_of_type t v Ht Hty) as Hf.
    split; [done|]. split; [done|].
    destruct (newValue_fielder v zero Hf) as [_ <-]; [by rewrite Hty, <- Hty0|].
    done. }
  assert (Hfields : ∀ v f, v ∈ xs → (f < length NB)%nat →
                           length (fieldGet v f) = at_nat NB f).
  { intros v f Hv Hlt. rewrite Forall_forall in Hall.
    apply list_elem_of_In in Hv.
    destruct (Hall v Hv) as (Hf & _ & Hl). rewrite <- Hl.
    apply fieldGet_length; [done | by rewrite Hl]. }
  destruct (fieldLen_pos v0 Hf0) as [HNB Hpos]. fold NB in HNB, Hpos.
  eexists. split; [|split].
  - by apply (interleaveFields_columns t xs NB v0 xs').
  - exact (length_transposed_columns (length xs) NB _
             (columns_Forall2 xs NB Hfields Hpos NB 0 eq_refl)).
  - apply (deinterleaveFields_columns t xs NB zero); try done.
    + by rewrite Exs.
    + by rewrite <- Hty0.
    + intros v Hv. rewrite Forall_forall in Hxs, Hall.
      apply list_elem_of_In in Hv.
      destruct (Hxs v Hv) as [Hty Hwf]. destruct (Hall v Hv) as (Hf & _).
      apply rebuild_fielder; [done | done | by rewrite Hty, <- Hty0].
Qed.

(** The field-split kinds. *)
Theorem field_array_roundtrip (t : Z) (xs : list Value) :
  case_of t [TypeUDim; TypeUDim2; TypeColor3; TypeVector2; TypeVector3;
             TypeRect2D; TypeColor3uint8] = true →
  Forall (λ v, Type_of v = t ∧ wf_Value v) xs →
  ∃ b, ValuesToBytes t xs = Ok b ∧ ValuesFromBytes t b = Ok xs.
Proof.
  intros Ht Hxs. destruct (fields_roundtrip t xs Ht Hxs) as (b & H1 & _ & H2).
  exists b. unfold ValuesFromBytes.
  split_tag Ht; enter_ValuesToBytes Hxs; unfold ValuesFromBytes_run; eval_tags;
    rewrite H2; done.
Qed.

End Round_trips.

(** ** Arrays of PhysicalProperties, references and CFrames *)

Section PhysicalProperties_arrays.
Local Close Scope Z_scope.

(** The five [PutUint32] overwrite all of [q]: what the array encoder
    appends after the discriminator is what [Bytes] writes after it. *)
Lemma PhysicalProperties_overwrite (q : list Z) (pp : ValuePhysicalProperties) :
  length q = 20 → PP_CustomPhysics pp ≠ 0%Z →
  [PP_CustomPhysics pp] ++
    LittleEndian_PutUint32 (LittleEndian_PutUint32 (LittleEndian_PutUint32
      (LittleEndian_PutUint32 (LittleEndian_PutUint32 q (0 * 4) (PP_Density pp))
         (1 * 4) (PP_Friction pp)) (2 * 4) (PP_Elasticity pp))
         (3 * 4) (PP_FrictionWeight pp)) (4 * 4) (PP_ElasticityWeight pp)
  = ValuePhysicalProperties_Bytes pp.
Proof.
  intros Hq Hc. unfold ValuePhysicalProperties_Bytes.
  destruct (Z.eqb_spec (PP_CustomPhysics pp) 0) as [|_]; [done|]. cbn [negb].
  do 20 (destruct q as [|? q]; [discriminate Hq|]).
  destruct q; [|discriminate Hq].
  cbv [LittleEndian_PutUint32 make replicate insert list_insert Nat.mul Nat.add app].
  reflexivity.
Qed.

Lemma PhysicalProperties_Bytes_zero (pp : ValuePhysicalProperties) :
  PP_CustomPhysics pp = 0%Z → ValuePhysicalProperties_Bytes pp = [PP_CustomPhysics pp].
Proof.
  intros Hc. unfold ValuePhysicalProperties_Bytes. rewrite Hc. reflexivity.
Qed.

(** The layout of an encoded value with [CustomPhysics != 0]. *)
Lemma PhysicalProperties_Bytes_fields (pp : ValuePhysicalProperties) :
  PP_CustomPhysics pp ≠ 0%Z → wf_Value (VPhysicalProperties pp) →
  ∃ tail, ValuePhysicalProperties_Bytes pp = PP_CustomPhysics pp :: tail ∧
          length tail = 20 ∧
          LittleEndian_Uint32 tail 0 = PP_Density pp ∧
          LittleEndian_Uint32 tail 4 = PP_Friction pp ∧
          LittleEndian_Uint32 tail 8 = PP_Elasticity pp ∧
          LittleEndian_Uint32 tail 12 = PP_FrictionWeight pp ∧
          LittleEndian_Uint32 tail 16 = PP_ElasticityWeight pp.
Proof.
  intros Hc (_ & H1 & H2 & H3 & H4 & H5).
  eexists. split.
  { rewrite <- (PhysicalProperties_overwrite (make 20)); [|done|done]. reflexivity. }
  change (0 * 4) with 0. change (1 * 4) with 4. change (2 * 4) with 8.
  change (3 * 4) with 12. change (4 * 4) with 16.
  split; [rewrite !length_LittleEndian_PutUint32; apply length_make|].
  repeat split.
  - rewrite !(LittleEndian_Uint32_PutUint32_ne _ _ 0) by lia.
    apply LittleEndian_Uint32_PutUint32; [cbn; lia | done].
  - rewrite !(LittleEndian_Uint32_PutUint32_ne _ _ 4) by lia.
    apply LittleEndian_Uint32_PutUint32; [|done].
    rewrite !length_LittleEndian_PutUint32. cbn. lia.
  - rewrite !(LittleEndian_Uint32_PutUint32_ne _ _ 8) by lia.
    apply LittleEndian_Uint32_PutUint32; [|done].
    rewrite !length_LittleEndian_PutUint32. cbn. lia.
  - rewrite !(LittleEndian_Uint32_PutUint32_ne _ _ 12) by lia.
    apply LittleEndian_Uint32_PutUint32; [|done].
    rewrite !length_LittleEndian_PutUint32. cbn. lia.
  - apply LittleEndian_Uint32_PutUint32; [|done].
    rewrite !length_LittleEndian_PutUint32. cbn. lia.
Qed.

(** The loop of the [TypePhysicalProperties] case of [ValuesToBytes]. *)
Lemma PhysicalProperties_encode_loop (xs : list Value) :
  Forall (λ v, Type_of v = TypePhysicalProperties) xs →
  ∀ i b q, length q = 20 →
  ∃ q', for_each_from i xs (λ _ pp '(b, q),
          match pp with
          | VPhysicalProperties pp =>
            let b := b ++ [PP_CustomPhysics pp] in
            if negb (PP_CustomPhysics pp =? 0)%Z then
              let q := LittleEndian_PutUint32 q (0 * 4) (PP_Density pp) in
              let q := LittleEndian_PutUint32 q (1 * 4) (PP_Friction pp) in
              let q := LittleEndian_PutUint32 q (2 * 4) (PP_Elasticity pp) in
              let q := LittleEndian_PutUint32 q (3 * 4) (PP_FrictionWeight pp) in
              let q := LittleEndian_PutUint32 q (4 * 4) (PP_ElasticityWeight pp) in
              Ok (b ++ q, q)
            else Ok (b, q)
          | _ => Panic
          end) (b, q) = Ok (b ++ concat (Bytes <$> xs), q') ∧ length q' = 20.
Proof.
  match goal with |- context [for_each_from _ _ ?f _] => set (body := f) end.
  induction 1 as [|v xs Hv _ IH]; intros i b q Hq.
  - exists q. cbn. by rewrite app_nil_r.
  - destruct v; try discriminate Hv. rename v into pp.
    cbn [for_each_from fmap list_fmap concat Bytes].
    destruct (Z.eqb_spec (PP_CustomPhysics pp) 0) as [Hc|Hc].
    + assert (body i (VPhysicalProperties pp) (b, q)
              = Ok (b ++ [PP_CustomPhysics pp], q)) as ->.
      { unfold body. cbv zeta. by rewrite Hc. }
      cbn [mbind result_bind].
      destruct (IH (S i) (b ++ [PP_CustomPhysics pp]) q Hq) as (q' & H1 & H2).
      exists q'. rewrite H1. split; [|done].
      rewrite (PhysicalProperties_Bytes_zero pp Hc). by rewrite <- !app_assoc.
    + pose proof (PhysicalProperties_overwrite q pp Hq Hc) as Hover.
      match type of Hover with _ ++ ?q5 = _ => set (q1 := q5) in * end.
      assert (body i (VPhysicalProperties pp) (b, q)
              = Ok ((b ++ [PP_CustomPhysics pp]) ++ q1, q1)) as ->.
      { unfold body. cbv zeta.
        destruct (Z.eqb_spec (PP_CustomPhysics pp) 0) as [|_]; [done|]. reflexivity. }
      cbn [mbind result_bind].
      assert (length q1 = 20) as Hq1.
      { unfold q1. by rewrite !length_LittleEndian_PutUint32. }
      destruct (IH (S i) ((b ++ [PP_CustomPhysics pp]) ++ q1) q1 Hq1) as (q' & H1 & H2).
      exists q'. rewrite H1. split; [|done].
      rewrite <- Hover. by rewrite <- !app_assoc.
Qed.

(** The loop of the [TypePhysicalProperties] case of [ValuesFromBytes]. *)
Lemma PhysicalProperties_decode_loop (b : list byte) (xs : list Value) :
  Forall (λ v, Type_of v = TypePhysicalProperties ∧ wf_Value v) xs →
  ∀ pre a fuel,
    b = pre ++ concat (Bytes <$> xs) → length xs < fuel →
    loop fuel (λ '(i, a),
       if (i <? length b)%nat then
         match b !! i with
         | None => Panic
         | Some custom =>
           let i := S i in
           if negb (custom =? 0)%Z then
             let size := (5 * 4)%nat in
             p ← slice_from b i;
             if (length p <? size)%nat then Err (ErrExpectedMore (Z.of_nat size))
             else
               Ok (inl ((i + size)%nat,
                        a ++ [VPhysicalProperties
                                (mkPhysicalProperties custom
                                   (LittleEndian_Uint32 p (0 * 4))
                                   (LittleEndian_Uint32 p (1 * 4))
                                   (LittleEndian_Uint32 p (2 * 4))
                                   (LittleEndian_Uint32 p (3 * 4))
                                   (LittleEndian_Uint32 p (4 * 4)))]))
           else
             Ok (inl (i, a ++ [VPhysicalProperties
                                 (mkPhysicalProperties custom 0 0 0 0 0)]))
         end
       else Ok (inr a)) (length pre, a) = Ok (a ++ (normalize <$> xs)).
Proof.
  induction 1 as [|v xs [Hv Hwf] _ IH]; intros pre a fuel Hb Hfuel.
  - destruct fuel as [|fuel]; [cbn in Hfuel; lia|].
    rewrite loop_unfold. cbn [concat fmap list_fmap] in Hb. rewrite app_nil_r in Hb.
    subst b. rewrite Nat.ltb_irrefl. cbn. by rewrite app_nil_r.
  - destruct fuel as [|fuel]; [cbn in Hfuel; lia|]. cbn [length] in Hfuel.
    destruct v; try discriminate Hv. rename v into pp.
    cbn [fmap list_fmap concat Bytes] in Hb.
    remember (λ '(i, a), _) as step eqn:Hstep.
    rewrite loop_unfold.
    destruct (Z.eqb_spec (PP_CustomPhysics pp) 0) as [Hc|Hc].
    + rewrite (PhysicalProperties_Bytes_zero pp Hc) in Hb.
      assert (step (length pre, a)
              = Ok (inl (S (length pre), a ++ [normalize (VPhysicalProperties pp)]))) as Hs.
      { rewrite Hstep.
        assert (length pre < length b) as Hlt by (rewrite Hb, !length_app; cbn; lia).
        destruct (Nat.ltb_spec (length pre) (length b)); [|lia].
        assert (b !! length pre = Some (PP_CustomPhysics pp)) as ->.
        { rewrite Hb. rewrite lookup_app_r by lia. by rewrite Nat.sub_diag. }
        cbn [normalize]. rewrite Hc. reflexivity. }
      rewrite Hs. cbn [mbind result_bind].
      rewrite Hstep in IH |- *.
      replace (S (length pre)) with (length (pre ++ [PP_CustomPhysics pp]))
        by (rewrite length_app; cbn; lia).
      rewrite (IH (pre ++ [PP_CustomPhysics pp])); [| by rewrite <- app_assoc | lia].
      by rewrite <- app_assoc.
    + destruct (PhysicalProperties_Bytes_fields pp Hc Hwf)
        as (tail & HB & Hl & F0 & F1 & F2 & F3 & F4).
      rewrite HB in Hb.
      assert (step (length pre, a)
              = Ok (inl (S (length pre) + 20, a ++ [normalize (VPhysicalProperties pp)]))) as Hs.
      { rewrite Hstep.
        assert (length pre < length b) as Hlt by (rewrite Hb, !length_app; cbn; lia).
        destruct (Nat.ltb_spec (length pre) (length b)); [|lia].
        assert (b !! length pre = Some (PP_CustomPhysics pp)) as ->.
        { rewrite Hb. rewrite lookup_app_r by lia. by rewrite Nat.sub_diag. }
        cbv zeta.
        destruct (Z.eqb_spec (PP_CustomPhysics pp) 0) as [|_]; [done|]. cbn [negb].
        rewrite slice_from_Ok by lia. cbn [mbind result_bind].
        assert (drop (S (length pre)) b = tail ++ concat (Bytes <$> xs)) as ->.
        { rewrite Hb. rewrite drop_app_ge by lia.
          replace (S (length pre) - length pre) with 1 by lia. reflexivity. }
        change (5 * 4) with 20.
        destruct (Nat.ltb_spec (length (tail ++ concat (Bytes <$> xs))) 20) as [Hlt'|_].
        { rewrite length_app in Hlt'. lia. }
        change (0 * 4) with 0. change (1 * 4) with 4. change (2 * 4) with 8.
        change (3 * 4) with 12. change (4 * 4) with 16.
        rewrite !LittleEndian_Uint32_app_l by lia.
        rewrite F0, F1, F2, F3, F4.
        cbn [normalize].
        destruct (Z.eqb_spec (PP_CustomPhysics pp) 0) as [|_]; [done|].
        by destruct pp. }
      rewrite Hs. cbn [mbind result_bind].
      rewrite Hstep in IH |- *.
      replace (S (length pre) + 20) with (length (pre ++ PP_CustomPhysics pp :: tail))
        by (rewrite length_app; cbn; lia).
      rewrite (IH (pre ++ PP_CustomPhysics pp :: tail));
        [| rewrite Hb, <- app_assoc; reflexivity | lia].
      by rewrite <- app_assoc.
Qed.

Lemma length_concat_Bytes_ge (xs : list Value) :
  Forall (λ v, Type_of v = TypePhysicalProperties) xs →
  length xs ≤ length (concat (Bytes <$> xs)).
Proof.
  induction 1 as [|v xs Hv _ IH]; [done|].
  cbn [fmap list_fmap concat length]. rewrite length_app.
  destruct v; try discriminate Hv. cbn [Bytes].
  assert (1 ≤ length (ValuePhysicalProperties_Bytes v)); [|lia].
  unfold ValuePhysicalProperties_Bytes.
  destruct (negb _); [|done].
  rewrite !length_LittleEndian_PutUint32, length_insert. cbn. lia.
Qed.

End PhysicalProperties_arrays.

(** Rewrite with an equation about a loop whose body the goal shows in a
    convertible form. *)
Ltac rewrite_for_each H :=
  lazymatch type of H with
  | for_each_from ?i ?xs _ ?s = ?r =>
      lazymatch goal with
      | |- context [for_each_from i xs ?f s] =>
          replace (for_each_from i xs f s) with r by (symmetry; exact H)
      end
  end.

Section PhysicalProperties_arrays2.
Local Close Scope Z_scope.

(** Arrays of PhysicalProperties are the concatenation of the values'
    [Bytes], and are read back up to [normalize]. *)
Theorem PhysicalProperties_array_roundtrip (xs : list Value) :
  Forall (λ v, Type_of v = TypePhysicalProperties ∧ wf_Value v) xs →
  ValuesToBytes TypePhysicalProperties xs = Ok (concat (Bytes <$> xs)) ∧
  ValuesFromBytes TypePhysicalProperties (concat (Bytes <$> xs))
    = Ok (normalize <$> xs) ∧
  ValuesFromBytes_buffer TypePhysicalProperties (concat (Bytes <$> xs))
    = concat (Bytes <$> xs).
Proof.
  intros Hxs. pose proof (Forall_Type_of _ _ Hxs) as Hty.
  split; [|split].
  - enter_ValuesToBytes Hxs. unfold for_each.
    destruct (PhysicalProperties_encode_loop xs Hty 0 [] (make 20)) as (q' & H & _);
      [apply length_make|].
    rewrite_for_each H. reflexivity.
  - unfold ValuesFromBytes, ValuesFromBytes_run. eval_tags. cbn [fst].
    apply (PhysicalProperties_decode_loop _ xs Hxs [] []); [done|].
    pose proof (length_concat_Bytes_ge xs Hty). lia.
  - unfold ValuesFromBytes_buffer, ValuesFromBytes_run. eval_tags. reflexivity.
Qed.

End PhysicalProperties_arrays2.

(** ** Arrays of references *)

Section Reference_arrays.
Local Close Scope Z_scope.

Lemma to_i32_small n : is_i32 n → to_i32 n = n.
Proof.
  intros H. unfold to_i32. apply to_signed_small; [lia | exact H].
Qed.

Lemma slice_chunk (chunks : list (list byte)) (n i : nat) c :
  Forall (λ c, length c = n) chunks → chunks !! i = Some c →
  slice (concat chunks) (i * n) (i * n + n) = Ok c.
Proof.
  intros Hall Hi.
  pose proof (take_drop_middle _ _ _ Hi) as Hsplit.
  assert (length c = n) as Hc.
  { rewrite Forall_lookup in Hall. by apply (Hall i c). }
  assert (length (concat (take i chunks)) = i * n) as Hpre.
  { rewrite (length_concat_fixed _ n) by (by apply Forall_take).
    rewrite length_take. apply lookup_lt_Some in Hi. f_equal. lia. }
  rewrite <- Hsplit at 1. rewrite concat_app. cbn [concat].
  replace (i * n + n) with (length (concat (take i chunks)) + length c) by lia.
  replace (i * n) with (length (concat (take i chunks))) by lia.
  apply slice_middle.
Qed.

(** The differences that the array encoder stores. *)
Lemma deltas_lookup (refs : list Z) prev i r :
  refs !! i = Some r →
  zip_with (λ r p, to_i32 (r - p)) refs (prev :: refs) !! i
  = Some (to_i32 (r - default prev ((prev :: refs) !! i))).
Proof.
  intros Hi. rewrite lookup_zip_with, Hi. cbn [mbind option_bind].
  destruct ((prev :: refs) !! i) as [p|] eqn:Hp; [done|].
  apply lookup_ge_None in Hp. apply lookup_lt_Some in Hi. cbn in Hp. lia.
Qed.

(** The loop of the [TypeReference] case of [ValuesToBytes]. *)
Lemma Reference_encode_loop (rest : list Z) :
  Forall is_i32 rest →
  ∀ (chunks : list (list byte)) prev i,
    Forall (λ c, length c = 4) chunks → i = length chunks → (i = 0 → prev = 0%Z) →
    ∃ last,
      for_each_from i (VReference <$> rest) (λ i ref '(b, prev),
          match ref with
          | VReference ref =>
            let b :=
              if (i =? 0)%nat
              then copy_to b (i * 4) (i * 4 + 4) (ValueReference_Bytes ref)
              else copy_to b (i * 4) (i * 4 + 4)
                     (ValueReference_Bytes (to_i32 (ref - prev))) in
            Ok (b, ref)
          | _ => Panic
          end) (concat chunks ++ make (length rest * 4), prev)
      = Ok (concat chunks ++
            concat (ValueReference_Bytes <$>
                    zip_with (λ r p, to_i32 (r - p)) rest (prev :: rest)), last).
Proof.
  match goal with |- context [for_each_from _ _ ?f _] => set (body := f) end.
  induction 1 as [|r rest Hr _ IH]; intros chunks prev i Hall Hi H0.
  - exists prev. reflexivity.
  - cbn [fmap list_fmap for_each_from zip_with concat length].
    set (d := to_i32 (r - prev)).
    assert (length (concat chunks) = i * 4) as Hpre.
    { rewrite (length_concat_fixed _ 4) by done. by rewrite Hi. }
    assert (body i (VReference r)
              (concat chunks ++ make (S (length rest) * 4), prev)
            = Ok ((concat chunks ++ ValueReference_Bytes d)
                    ++ make (length rest * 4), r)) as ->.
    { unfold body. cbv zeta.
      assert ((if (i =? 0)%nat then ValueReference_Bytes r
               else ValueReference_Bytes (to_i32 (r - prev)))
              = ValueReference_Bytes d) as Hd.
      { destruct (Nat.eqb_spec i 0) as [Hz|_]; [|done].
        unfold d. rewrite (H0 Hz), Z.sub_0_r. by rewrite to_i32_small. }
      assert (∀ c, length c = 4 →
                copy_to (concat chunks ++ make (S (length rest) * 4)) (i * 4) (i * 4 + 4) c
                = (concat chunks ++ c) ++ make (length rest * 4)) as Hcopy.
      { intros c Hc. rewrite copy_to_exact;
          [| lia | rewrite length_app, length_make; lia].
        rewrite <- Hpre. rewrite take_app_length.
        rewrite drop_app_ge by lia.
        replace (length (concat chunks) + 4 - length (concat chunks)) with 4 by lia.
        change (S (length rest) * 4) with (4 + length rest * 4).
        unfold make. rewrite replicate_add, drop_app_length'; [|done].
        by rewrite <- app_assoc. }
      destruct (i =? 0)%nat.
      - rewrite <- Hd. by rewrite Hcopy by apply length_ValueReference_Bytes.
      - rewrite <- Hd. by rewrite Hcopy by apply length_ValueReference_Bytes. }
    cbn [mbind result_bind].
    destruct (IH (chunks ++ [ValueReference_Bytes d]) r (S i)) as (last & Hlast).
    { apply Forall_app. split; [done|]. apply Forall_singleton.
      apply length_ValueReference_Bytes. }
    { rewrite length_app. cbn. lia. }
    { lia. }
    exists last. rewrite concat_app in Hlast. cbn [concat] in Hlast.
    rewrite app_nil_r in Hlast. rewrite Hlast. by rewrite <- app_assoc.
Qed.

Lemma bind_Ok_eq {A B} (m : result A) (k : A → result B) a r :
  m = Ok a → k a = r → (m ≫= k) = r.
Proof. intros -> <-. reflexivity. Qed.

Lemma Reference_chunk (refs : list Z) i r :
  refs !! i = Some r →
  slice (concat (ValueReference_Bytes <$>
                 zip_with (λ r p, to_i32 (r - p)) refs (0%Z :: refs))) (i * 4) (i * 4 + 4)
  = Ok (ValueReference_Bytes (to_i32 (r - default 0%Z ((0%Z :: refs) !! i)))).
Proof.
  intros Hr. apply slice_chunk.
  - apply Forall_fmap, Forall_true. intros ?. apply length_ValueReference_Bytes.
  - rewrite list_lookup_fmap, (deltas_lookup refs 0%Z i r Hr). reflexivity.
Qed.

Lemma Reference_absolute (refs : list Z) i r :
  Forall is_i32 refs → refs !! i = Some r →
  (if (0 <? i)%nat then
     match (VReference <$> take i refs) !! (i - 1)%nat with
     | Some (VReference p) =>
         Ok (to_i32 (p + to_i32 (r - default 0%Z ((0%Z :: refs) !! i))))
     | _ => Panic
     end
   else Ok (to_i32 (r - default 0%Z ((0%Z :: refs) !! i)))) = Ok r.
Proof.
  intros Hrefs Hr.
  assert (is_i32 r) as Hi32.
  { rewrite Forall_lookup in Hrefs. by apply (Hrefs i). }
  destruct i as [|j].
  - cbn [Nat.ltb Nat.leb]. change ((0%Z :: refs) !! 0) with (Some 0%Z).
    cbn [default]. rewrite Z.sub_0_r. f_equal. by apply to_i32_small.
  - change (0 <? S j) with true. cbv iota.
    change ((0%Z :: refs) !! S j) with (refs !! j).
    replace (S j - 1) with j by lia.
    apply lookup_lt_Some in Hr.
    destruct (lookup_lt_is_Some_2 refs j ltac:(lia)) as [p Hp].
    rewrite list_lookup_fmap, lookup_take_lt by lia. rewrite Hp.
    cbn [fmap option_fmap option_map default]. f_equal.
    by apply to_i32_add_sub.
Qed.

(** The loop of the [TypeReference] case of [ValuesFromBytes]. *)
Lemma Reference_decode_loop (refs : list Z) :
  Forall is_i32 refs →
  let bc := concat (ValueReference_Bytes <$>
                    zip_with (λ r p, to_i32 (r - p)) refs (0%Z :: refs)) in
  for_each (seq 0 (length refs)) (λ _ i a,
     chunk ← slice bc (i * 4) (i * 4 + 4);
     ref ← ignore_err 0%Z (ValueReference_FromBytes chunk);
     ref ← (if (0 <? i)%nat then
              match a !! (i - 1)%nat with
              | Some (VReference r) => Ok (to_i32 (r + ref))
              | _ => Panic
              end
            else Ok ref);
     Ok (a ++ [VReference ref])) [] = Ok (VReference <$> refs).
Proof.
  intros Hrefs bc.
  match goal with |- for_each _ ?f _ = _ => set (body := f) end.
  destruct (for_each_inv (λ k a, a = VReference <$> take k refs)
              (seq 0 (length refs)) body []) as (a & Ha & HP); [done | |].
  2:{ rewrite Ha, HP, length_seq, firstn_all. done. }
  intros i x a Hi ->. apply lookup_seq in Hi as [-> Hlt]. cbn [Nat.add] in *.
  destruct (lookup_lt_is_Some_2 refs i Hlt) as [r Hr].
  exists (VReference <$> take (S i) refs). split; [|done].
  unfold body, bc.
  eapply bind_Ok_eq; [exact (Reference_chunk refs i r Hr)|]. cbv beta.
  eapply bind_Ok_eq.
  { rewrite ValueReference_FromBytes_Bytes by apply to_i32_range. reflexivity. }
  cbv beta.
  eapply bind_Ok_eq; [exact (Reference_absolute refs i r Hrefs Hr)|]. cbv beta.
  by rewrite (take_S_r _ _ _ Hr), fmap_app.
Qed.

End Reference_arrays.

Section Reference_arrays2.
Local Close Scope Z_scope.

Lemma References_of (xs : list Value) :
  Forall (λ v, Type_of v = TypeReference ∧ wf_Value v) xs →
  ∃ refs, xs = VReference <$> refs ∧ Forall is_i32 refs.
Proof.
  induction 1 as [|v xs [Hv Hwf] _ (refs & -> & Hrefs)].
  - by exists [].
  - destruct v; try discriminate Hv. exists (v :: refs). split; [done|].
    by constructor.
Qed.

(** Arrays of references: the differences are stored, interleaved with
    stride 4, and summed up again. *)
Lemma Reference_array (refs : list Z) :
  Forall is_i32 refs →
  ∃ b, interleave (concat (ValueReference_Bytes <$>
                           zip_with (λ r p, to_i32 (r - p)) refs (0%Z :: refs))) 4
       = Ok b ∧
       ValuesToBytes TypeReference (VReference <$> refs) = Ok b ∧
       length b = length refs * 4 ∧
       ValuesFromBytes_run TypeReference b = (Ok (VReference <$> refs), b).
Proof.
  intros Hrefs.
  assert (Hxs : Forall (λ v, Type_of v = TypeReference ∧ wf_Value v)
                       (VReference <$> refs)).
  { apply Forall_fmap. eapply Forall_impl; [|exact Hrefs]. by intros r Hr. }
  destruct refs as [|r0 refs'] eqn:Erefs.
  { exists []. repeat split; reflexivity. }
  rewrite <- Erefs in *.
  assert (length refs ≠ 0) as Hlen by (rewrite Erefs; done).
  set (bytes := concat (ValueReference_Bytes <$>
                        zip_with (λ r p, to_i32 (r - p)) refs (0%Z :: refs))).
  assert (length bytes = length refs * 4) as Hbytes.
  { unfold bytes. rewrite (length_concat_fixed _ 4).
    - rewrite length_fmap, length_zip_with. cbn [length]. lia.
    - apply Forall_fmap, Forall_true. intros ?. apply length_ValueReference_Bytes. }
  destruct (deinterleave_interleave bytes (length refs) 4 Hbytes)
    as (mid & Hmid & Hmidlen & Hde); [lia | lia |].
  exists mid. split; [exact Hmid|]. split; [|split; [lia|]].
  - enter_ValuesToBytes Hxs. rewrite length_fmap.
    destruct (Nat.eqb_spec (length refs) 0) as [|_]; [done|].
    destruct (Reference_encode_loop refs Hrefs [] 0%Z 0) as (last & Hloop);
      [done | done | done |].
    cbn [concat app] in Hloop. unfold for_each. cbv zeta.
    rewrite_for_each Hloop.
    cbn [mbind result_bind]. exact Hmid.
  - unfold ValuesFromBytes_run. eval_tags.
    destruct (Nat.eqb_spec (length mid) 0) as [|_]; [lia|].
    cbv zeta. rewrite Hmidlen, Hbytes, Nat.Div0.mod_mul. cbn [Nat.eqb negb].
    rewrite <- Hbytes, <- Hmidlen, copy_at_make. f_equal.
    rewrite Hde. cbn [mbind result_bind].
    rewrite Hbytes, Nat.div_mul by lia.
    exact (Reference_decode_loop refs Hrefs).
Qed.

End Reference_arrays2.

(** ** Arrays of CFrames *)

Section CFrame_arrays.
Local Close Scope Z_scope.

(** The nine floats of a rotation, as written by [ValuesToBytes] and read by
    [ValuesFromBytes]. *)
Lemma CFrame_rotation_read (rot : list Z) (rest : list byte) :
  length rot = 9 → Forall is_u32 rot →
  let r := for_range 9 (λ i r, LittleEndian_PutUint32 r (i * 4) (get rot i))
                     (make (9 * 4)) in
  length r = 36 ∧
  for_range 9 (λ k rot', <[k := LittleEndian_Uint32 (r ++ rest) (k * 4)]> rot')
            (replicate 9 0%Z) = rot.
Proof.
  intros Hlen Hrot.
  do 9 (destruct rot as [|? rot]; [discriminate Hlen|]).
  destruct rot; [|discriminate Hlen]. clear Hlen.
  repeat match goal with
         | H : Forall _ (_ :: _) |- _ => inversion_clear H
         end.
  unfold for_range. cbn [seq foldl]. unfold get. cbn [lookup list_lookup default].
  cbv zeta. split.
  - rewrite !length_LittleEndian_PutUint32. reflexivity.
  - change (replicate 9 0%Z) with [0; 0; 0; 0; 0; 0; 0; 0; 0]%Z.
    cbn [insert list_insert].
    rewrite !LittleEndian_Uint32_app_l
      by (rewrite !length_LittleEndian_PutUint32; cbn; lia).
    repeat f_equal.
    all: rewrite ?LittleEndian_Uint32_PutUint32_ne by lia;
         apply LittleEndian_Uint32_PutUint32;
           [rewrite ?length_LittleEndian_PutUint32; cbn; lia | assumption].
Qed.

(** The first loop of the [TypeCFrame] case of [ValuesToBytes]. *)
Lemma CFrame_encode_loop (cfs : list ValueCFrame) :
  ∀ i b p,
    for_each_from i (VCFrame <$> cfs) (λ i cf '(b, p),
        match cf with
        | VCFrame cf =>
          let b := b ++ [CFrame_Special cf] in
          let b :=
            if (CFrame_Special cf =? 0)%Z then
              let r := make (9 * 4) in
              let r := for_range 9 (λ i r,
                LittleEndian_PutUint32 r (i * 4) (get (CFrame_Rotation cf) i)) r in
              b ++ r
            else b in
          Ok (b, p ++ [VVector3 (CFrame_Position cf)])
        | _ => Panic
        end) (b, p)
    = Ok (b ++ concat (CFrame_matrix <$> cfs),
          p ++ ((λ cf, VVector3 (CFrame_Position cf)) <$> cfs)).
Proof.
  match goal with |- context [for_each_from _ _ ?f _] => set (body := f) end.
  induction cfs as [|cf cfs IH]; intros i b p.
  - cbn. by rewrite !app_nil_r.
  - cbn [fmap list_fmap for_each_from concat].
    assert (body i (VCFrame cf) (b, p)
            = Ok (b ++ CFrame_matrix cf, p ++ [VVector3 (CFrame_Position cf)])) as ->.
    { unfold body, CFrame_matrix. cbv zeta.
      destruct (CFrame_Special cf =? 0)%Z.
      - by rewrite <- app_assoc.
      - reflexivity. }
    cbn [mbind result_bind]. rewrite IH. by rewrite <- !app_assoc.
Qed.

Lemma length_CFrame_matrix (cf : ValueCFrame) :
  length (CFrame_matrix cf) = if (CFrame_Special cf =? 0)%Z then 37 else 1.
Proof.
  unfold CFrame_matrix. destruct (CFrame_Special cf =? 0)%Z; [|done].
  cbn [length]. unfold for_range. cbn [seq foldl].
  rewrite !length_LittleEndian_PutUint32. reflexivity.
Qed.

(** The loop of [readMatrices] on the matrices of [rest] followed by the
    position data [pb]. *)
Lemma readMatrices_loop (b pb : list byte) (rest : list ValueCFrame) :
  Forall (λ cf, length (CFrame_Rotation cf) = 9 ∧
                Forall is_u32 (CFrame_Rotation cf)) rest →
  ∀ pre acc n fuel,
    b = pre ++ concat (CFrame_matrix <$> rest) ++ pb →
    length pb = n + 12 * length rest →
    length rest < fuel →
    loop fuel (λ '(i, n, cfs),
      if (n <? length b - i)%nat then
        match b !! i with
        | None => Panic
        | Some special =>
          let i := S i in
          if (special =? 0)%Z then
            let q := (9 * 4)%nat in
            r ← slice_from b i;
            if (length r <? q)%nat then Err (ErrExpectedMore (Z.of_nat q))
            else
              let rotation := for_range 9 (λ k rot,
                <[k := LittleEndian_Uint32 r (k * 4)]> rot) (replicate 9 0%Z) in
              Ok (inl ((i + q)%nat, (n + 12)%nat,
                       cfs ++ [mkCFrame special rotation (mkVector3 0 0 0)]))
          else
            Ok (inl (i, (n + 12)%nat,
                     cfs ++ [mkCFrame special (replicate 9 0%Z) (mkVector3 0 0 0)]))
        end
      else Ok (inr (i, cfs))) (length pre, n, acc)
    = Ok (length pre + length (concat (CFrame_matrix <$> rest)),
          acc ++ (CFrame_read <$> rest)).
Proof.
  induction 1 as [|cf rest [Hlen Hrot] _ IH]; intros pre acc n fuel Hb Hpb Hfuel.
  - destruct fuel as [|fuel]; [cbn in Hfuel; lia|].
    rewrite loop_unfold. cbn [fmap list_fmap concat app length] in *.
    assert (length b - length pre = n) as ->.
    { rewrite Hb, length_app. lia. }
    rewrite Nat.ltb_irrefl. cbn [mbind result_bind].
    by rewrite Nat.add_0_r, app_nil_r.
  - destruct fuel as [|fuel]; [cbn in Hfuel; lia|]. cbn [length] in Hfuel, Hpb.
    cbn [fmap list_fmap concat] in Hb |- *.
    remember (λ '(i, n, cfs), _) as step eqn:Hstep.
    rewrite loop_unfold.
    pose proof (length_CFrame_matrix cf) as Hm.
    assert (step (length pre, n, acc)
            = Ok (inl (length (pre ++ CFrame_matrix cf), n + 12,
                       acc ++ [CFrame_read cf]))) as Hs.
    { rewrite Hstep.
      assert (n < length b - length pre) as Hlt.
      { rewrite Hb, !length_app. destruct (CFrame_Special cf =? 0)%Z; lia. }
      destruct (Nat.ltb_spec n (length b - length pre)) as [_|]; [|lia].
      assert (b !! length pre = Some (CFrame_Special cf)) as ->.
      { rewrite Hb. rewrite lookup_app_r by lia. by rewrite Nat.sub_diag. }
      cbv zeta. unfold CFrame_read.
      destruct (CFrame_Special cf =? 0)%Z eqn:E.
      - destruct (CFrame_rotation_read (CFrame_Rotation cf)
                    (concat (CFrame_matrix <$> rest) ++ pb) Hlen Hrot) as [Hr36 Hread].
        cbv zeta in Hr36, Hread.
        rewrite slice_from_Ok by (rewrite Hb, !length_app; lia).
        cbn [mbind result_bind].
        assert (drop (S (length pre)) b
                = for_range 9 (λ i r,
                    LittleEndian_PutUint32 r (i * 4) (get (CFrame_Rotation cf) i))
                    (make (9 * 4))
                  ++ concat (CFrame_matrix <$> rest) ++ pb) as ->.
        { rewrite Hb. rewrite drop_app_ge by lia.
          replace (S (length pre) - length pre) with 1 by lia.
          unfold CFrame_matrix. rewrite E. cbn [app drop]. by rewrite <- app_assoc. }
        match goal with |- context [(length ?l <? ?q)%nat] =>
          destruct (Nat.ltb_spec (length l) q) as [Hshort|_] end.
        { rewrite length_app, Hr36 in Hshort. cbn in Hshort. lia. }
        rewrite Hread. rewrite length_app, Hm. change (9 * 4) with 36.
        replace (S (length pre) + 36) with (length pre + 37) by lia. reflexivity.
      - rewrite length_app, Hm.
        replace (S (length pre)) with (length pre + 1) by lia. reflexivity. }
    rewrite Hs. cbn [mbind result_bind].
    rewrite Hstep in IH |- *.
    rewrite (IH (pre ++ CFrame_matrix cf) (acc ++ [CFrame_read cf]) (n + 12) fuel);
      [| rewrite Hb, <- !app_assoc; reflexivity | lia | lia].
    rewrite <- !app_assoc, !length_app, Nat.add_assoc. reflexivity.
Qed.

End CFrame_arrays.

Section CFrame_arrays2.
Local Close Scope Z_scope.

Lemma normalize_CFrame (cf : ValueCFrame) :
  VCFrame (mkCFrame (CFrame_Special (CFrame_read cf)) (CFrame_Rotation (CFrame_read cf))
                    (CFrame_Position cf))
  = normalize (VCFrame cf).
Proof.
  unfold CFrame_read, normalize. cbn [CFrame_Special CFrame_Rotation].
  destruct (CFrame_Special cf =? 0)%Z; [by destruct cf | done].
Qed.

(** The last loop of the [TypeCFrame] case of [ValuesFromBytes]. *)
Lemma CFrame_positions_loop (cfs : list ValueCFrame) :
  for_each ((λ cf, VVector3 (CFrame_Position cf)) <$> cfs) (λ i p a',
     match p, (CFrame_read <$> cfs) !! i with
     | VVector3 p, Some cf =>
         Ok (a' ++ [VCFrame (mkCFrame (CFrame_Special cf) (CFrame_Rotation cf) p)])
     | _, _ => Panic
     end) [] = Ok (normalize <$> (VCFrame <$> cfs)).
Proof.
  match goal with |- for_each _ ?f _ = _ => set (body := f) end.
  destruct (for_each_inv (λ k a, a = normalize <$> (VCFrame <$> take k cfs))
              ((λ cf, VVector3 (CFrame_Position cf)) <$> cfs) body [])
    as (a & Ha & HP); [done | |].
  2:{ rewrite Ha, HP, length_fmap, firstn_all. done. }
  intros i x a Hi ->.
  rewrite list_lookup_fmap in Hi.
  destruct (cfs !! i) as [cf|] eqn:Hcf; [|discriminate Hi].
  injection Hi as <-.
  exists (normalize <$> (VCFrame <$> take (S i) cfs)). split; [|done].
  unfold body. rewrite list_lookup_fmap, Hcf. cbn [fmap option_fmap option_map].
  rewrite normalize_CFrame.
  by rewrite (take_S_r _ _ _ Hcf), !fmap_app.
Qed.

Lemma CFrames_of (xs : list Value) :
  Forall (λ v, Type_of v = TypeCFrame ∧ wf_Value v) xs →
  ∃ cfs, xs = VCFrame <$> cfs ∧ Forall (λ cf, wf_Value (VCFrame cf)) cfs.
Proof.
  induction 1 as [|v xs [Hv Hwf] _ (cfs & -> & Hcfs)].
  - by exists [].
  - destruct v; try discriminate Hv. exists (v :: cfs). split; [done|].
    by constructor.
Qed.

(** Arrays of CFrames: the matrices, then the positions as an array of
    [Vector3]. *)
Lemma CFrame_array (cfs : list ValueCFrame) :
  Forall (λ cf, wf_Value (VCFrame cf)) cfs →
  ∃ pb,
    interleaveFields TypeVector3 ((λ cf, VVector3 (CFrame_Position cf)) <$> cfs) = Ok pb ∧
    length pb = 12 * length cfs ∧
    ValuesToBytes TypeCFrame (VCFrame <$> cfs)
    = Ok (concat (CFrame_matrix <$> cfs) ++ pb) ∧
    ValuesFromBytes TypeCFrame (concat (CFrame_matrix <$> cfs) ++ pb)
    = Ok (normalize <$> (VCFrame <$> cfs)).
Proof.
  intros Hcfs.
  assert (Hxs : Forall (λ v, Type_of v = TypeCFrame ∧ wf_Value v) (VCFrame <$> cfs)).
  { apply Forall_fmap. eapply Forall_impl; [|exact Hcfs]. by intros cf Hcf. }
  set (p := (λ cf, VVector3 (CFrame_Position cf)) <$> cfs).
  assert (Hp : Forall (λ v, Type_of v = TypeVector3 ∧ wf_Value v) p).
  { apply Forall_fmap. eapply Forall_impl; [|exact Hcfs].
    intros cf (_ & _ & _ & Hpos). by split. }
  destruct (fields_roundtrip TypeVector3 p eq_refl Hp) as (pb & Hpb & Hlen & Hde).
  assert (length pb = 12 * length cfs) as Hlen'.
  { rewrite Hlen. unfold p. rewrite length_fmap.
    destruct cfs as [|cf cfs']; [cbn; lia|]. cbn [fmap list_fmap head default fieldLen].
    cbn. lia. }
  set (M := concat (CFrame_matrix <$> cfs)).
  exists pb. split; [done|]. split; [done|]. split.
  - enter_ValuesToBytes Hxs. unfold for_each.
    pose proof (CFrame_encode_loop cfs 0 [] []) as Hloop.
    cbn [app] in Hloop. rewrite_for_each Hloop.
    cbn [mbind result_bind]. fold p. rewrite Hpb. reflexivity.
  - unfold ValuesFromBytes, ValuesFromBytes_run. eval_tags.
    assert (readMatrices (M ++ pb) = Ok (length M, CFrame_read <$> cfs)) as ->.
    { unfold readMatrices.
      rewrite (readMatrices_loop (M ++ pb) pb cfs) with (pre := []) (n := 0);
        [reflexivity | | reflexivity | lia |].
      - eapply Forall_impl; [|exact Hcfs]. by intros cf (_ & ? & ? & _).
      - rewrite length_app. lia. }
    rewrite drop_app_length, Hde. cbn [fst snd].
    unfold p at 1. rewrite !length_fmap, Nat.eqb_refl. cbn [negb fst].
    exact (CFrame_positions_loop cfs).
Qed.

End CFrame_arrays2.

(** ** Arrays of every kind *)

Section All_kinds.
Local Close Scope Z_scope.

Lemma Valid_cases (t : Z) :
  Valid t = true → t ≠ TypeVector2int16 →
  case_of t [TypeString; TypeBool; TypeDouble; TypeRay; TypeFaces; TypeAxes;
             TypeVector3int16; TypeNumberSequence; TypeColorSequence;
             TypeNumberRange;
             TypeInt; TypeFloat; TypeBrickColor; TypeToken; TypeSharedString;
             TypeInt64;
             TypeUDim; TypeUDim2; TypeColor3; TypeVector2; TypeVector3;
             TypeRect2D; TypeColor3uint8;
             TypeCFrame; TypeReference; TypePhysicalProperties] = true.
Proof.
  unfold Valid. intros Hv Hne.
  apply andb_prop in Hv as [Hv H17]. apply andb_prop in Hv as [Hlo Hhi].
  apply Z.leb_le in Hlo, Hhi. apply negb_true_iff, Z.eqb_neq in H17.
  unfold TypeString in Hlo. unfold TypeSharedString in Hhi.
  unfold TypeVector2int16 in Hne.
  assert (∃ n : nat, (n < 29)%nat ∧ t = Z.of_nat n) as (n & Hn & ->).
  { exists (Z.to_nat t). lia. }
  do 29 (destruct n as [|n]; [first [reflexivity | lia]|]). lia.
Qed.

Lemma normalize_other (t : Z) (xs : list Value) :
  t ≠ TypeCFrame → t ≠ TypePhysicalProperties →
  Forall (λ v, Type_of v = t ∧ wf_Value v) xs → normalize <$> xs = xs.
Proof.
  intros H1 H2 Hxs. induction Hxs as [|v xs [Hv _] _ IH]; [done|].
  cbn [fmap list_fmap]. rewrite IH. f_equal.
  destruct v; try reflexivity; by subst t.
Qed.

(** For every kind but [Vector2int16], an array that was written is read
    back up to [normalize]; the arrays of the six scalar kinds that are
    interleaved as a whole must not be empty. *)
Lemma array_roundtrip (t : Z) (xs : list Value) :
  Valid t = true → t ≠ TypeVector2int16 →
  Forall (λ v, Type_of v = t ∧ wf_Value v) xs →
  (stride_interleaved t = false ∨ xs ≠ []) →
  ∃ b, ValuesToBytes t xs = Ok b ∧ ValuesFromBytes t b = Ok (normalize <$> xs).
Proof.
  intros Hv Hne Hxs Hempty.
  pose proof (Valid_cases t Hv Hne) as Ht.
  destruct (case_of t [TypeString; TypeBool; TypeDouble; TypeRay; TypeFaces; TypeAxes;
                       TypeVector3int16; TypeNumberSequence; TypeColorSequence;
                       TypeNumberRange]) eqn:Hplain.
  { destruct (plain_array_roundtrip t xs Hplain Hxs) as (H1 & H2 & _).
    eexists. split; [exact H1|]. rewrite H2. f_equal. symmetry.
    apply (normalize_other t); [| |done]; intros ->; discriminate Hplain. }
  destruct (stride_interleaved t) eqn:Hstride.
  { destruct Hempty as [|Hnil]; [done|].
    destruct (interleaved_array_roundtrip t xs Hstride Hnil Hxs) as (b & H1 & _ & H2 & _).
    exists b. split; [exact H1|]. rewrite H2. f_equal. symmetry.
    apply (normalize_other t); [| |done]; intros ->; discriminate Hstride. }
  destruct (case_of t [TypeUDim; TypeUDim2; TypeColor3; TypeVector2; TypeVector3;
                       TypeRect2D; TypeColor3uint8]) eqn:Hfield.
  { destruct (field_array_roundtrip t xs Hfield Hxs) as (b & H1 & H2).
    exists b. split; [exact H1|]. rewrite H2. f_equal. symmetry.
    apply (normalize_other t); [| |done]; intros ->; discriminate Hfield. }
  unfold stride_interleaved in Hstride.
  split_tag Ht; try discriminate Hplain; try discriminate Hstride;
    try discriminate Hfield.
  - destruct (CFrames_of xs Hxs) as (cfs & -> & Hcfs).
    destruct (CFrame_array cfs Hcfs) as (pb & _ & _ & H1 & H2).
    eexists. split; [exact H1 | exact H2].
  - destruct (References_of xs Hxs) as (refs & -> & Hrefs).
    destruct (Reference_array refs Hrefs) as (b & _ & H1 & _ & H2).
    exists b. split; [exact H1|]. unfold ValuesFromBytes. rewrite H2. cbn [fst].
    f_equal. symmetry. clear. induction refs as [|r refs IH]; [done|].
    cbn [fmap list_fmap] in *. by rewrite IH.
  - destruct (PhysicalProperties_array_roundtrip xs Hxs) as (H1 & H2 & _).
    eexists. split; [exact H1 | exact H2].
Qed.

Lemma empty_array (t : Z) :
  Valid t = true → t ≠ TypeVector2int16 →
  ValuesToBytes t [] = Ok [] ∧
  (stride_interleaved t = false → ValuesFromBytes t [] = Ok []).
Proof.
  intros Hv Hne. pose proof (Valid_cases t Hv Hne) as Ht.
  split_tag Ht; (split; [reflexivity|]); intros Hs;
    first [discriminate Hs | reflexivity].
Qed.

End All_kinds.

(** ** Arrays: the round trip of every kind *)

Section Array_claims.
Local Close Scope Z_scope.

Lemma normalize_visible (xs : list Value) :
  Forall (λ v, match v with
               | VCFrame cf => CFrame_Special cf = 0%Z
               | VPhysicalProperties pp => PP_CustomPhysics pp ≠ 0%Z
               | _ => True
               end) xs →
  normalize <$> xs = xs.
Proof.
  induction 1 as [|v xs Hv _ IH]; [done|].
  cbn [fmap list_fmap]. rewrite IH. f_equal.
  destruct v; try reflexivity; cbn [normalize].
  - by rewrite Hv.
  - by destruct (Z.eqb_spec (PP_CustomPhysics v) 0).
Qed.

(** C1, as stated, fails on a [CFrame] with [Special != 0] and a rotation
    that is not zero: the rotation is not written, and is read back as
    zero. *)
Lemma C1_counterexample :
  let xs := [VCFrame (mkCFrame 2 [0x3F800000; 0; 0; 0; 0x3F800000; 0; 0; 0; 0x3F800000]
                               (mkVector3 0x3F800000 0x40000000 0x40400000))]%Z in
  Valid TypeCFrame = true ∧
  Forall (λ v, Type_of v = TypeCFrame ∧ wf_Value v) xs ∧
  ¬ (∃ b, ValuesToBytes TypeCFrame xs = Ok b ∧ ValuesFromBytes TypeCFrame b = Ok xs).
Proof.
  split; [reflexivity|]. split.
  - repeat constructor; cbn; unfold is_u32; lia.
  - intros (b & H1 & H2). vm_compute in H1. injection H1 as <-.
    vm_compute in H2. discriminate H2.
Qed.

(** C1 (amended): for every kind [t] but [Vector2int16] and every array [xs]
    of values of kind [t], not empty when [t] is one of [Int], [Float],
    [BrickColor], [Token], [SharedString] and [Int64],
    [ValuesFromBytes(t, ValuesToBytes(t, xs))] returns, without an error,
    [xs] with the rotation of every [CFrame] with [Special != 0] and the
    five floats of every [PhysicalProperties] with [CustomPhysics == 0] set
    to zero, which is [xs] itself when no value has such a discriminator.
    The empty array of every such kind is written as the empty byte
    sequence, and for the kinds other than those six the empty byte
    sequence is read as the empty array. *)
Theorem C1_array_roundtrip (t : Z) (xs : list Value) :
  Valid t = true → t ≠ TypeVector2int16 →
  Forall (λ v, Type_of v = t ∧ wf_Value v) xs →
  ((stride_interleaved t = false ∨ xs ≠ []) →
   ∃ b, ValuesToBytes t xs = Ok b ∧ ValuesFromBytes t b = Ok (normalize <$> xs)) ∧
  (Forall (λ v, match v with
                | VCFrame cf => CFrame_Special cf = 0%Z
                | VPhysicalProperties pp => PP_CustomPhysics pp ≠ 0%Z
                | _ => True
                end) xs → normalize <$> xs = xs) ∧
  ValuesToBytes t [] = Ok [] ∧
  (stride_interleaved t = false → ValuesFromBytes t [] = Ok []).
Proof.
  intros Hv Hne Hxs. split; [|split].
  - by apply array_roundtrip.
  - apply normalize_visible.
  - by apply empty_array.
Qed.

Lemma C1_array_roundtrip_witness :
  let xs := [VCFrame (mkCFrame 0 [0x3F800000; 0; 0; 0; 0x3F800000; 0; 0; 0; 0x3F800000]
                               (mkVector3 0x3F800000 0x40000000 0x40400000));
             VCFrame (mkCFrame 2 [0; 0; 0; 0; 0; 0; 0; 0; 0]
                               (mkVector3 0 0 0x40400000))]%Z in
  (∃ b, ValuesToBytes TypeCFrame xs = Ok b ∧ ValuesFromBytes TypeCFrame b = Ok xs) ∧
  ValuesToBytes TypeCFrame [] = Ok [] ∧ ValuesFromBytes TypeCFrame [] = Ok [].
Proof.
  intros xs.
  destruct (C1_array_roundtrip TypeCFrame xs) as (H1 & _ & H3 & H4).
  - reflexivity.
  - discriminate.
  - repeat constructor; cbn; unfold is_u32, is_byte; lia.
  - split; [|split; [exact H3 | by apply H4]].
    destruct H1 as (b & Hb1 & Hb2); [by left|]. exists b. split; [exact Hb1|].
    rewrite Hb2. reflexivity.
Defined.

End Array_claims.


(** ** Further properties of the codec *)

Section More_properties.
Local Close Scope Z_scope.

(** *** Type tags and generators *)

(** [NewValue] has a generator exactly for the valid types, and the value it
    makes has the type that was asked for. *)
Theorem newValue_Valid (t : Z) :
  (is_Some (newValue t) ↔ Valid t = true) ∧
  (∀ v, newValue t = Some v → Type_of v = t).
Proof.
  assert (Hcases : (1 ≤ t ≤ 28)%Z ∨ ¬ (1 ≤ t ≤ 28)%Z) by lia.
  destruct Hcases as [Hin|Hout].
  - assert (∃ n : nat, (n < 29)%nat ∧ t = Z.of_nat n) as (n & Hn & ->).
    { exists (Z.to_nat t). lia. }
    do 29 (destruct n as [|n]; [first [lia | split;
      [split; [reflexivity | intros _; eexists; reflexivity]
      | intros v Hv; vm_compute in Hv; injection Hv as <-; reflexivity]
      | split; [split; [intros [v Hv]; discriminate Hv | discriminate]
               | intros v Hv; discriminate Hv]]|]).
    lia.
  - assert (newValue t = None) as Hnone.
    { unfold newValue.
      repeat match goal with
             | |- context [(t =? ?c)%Z] =>
                 destruct (Z.eqb_spec t c) as [->|_];
                   [exfalso; apply Hout; split; by vm_compute|]
             end.
      reflexivity. }
    assert (Valid t = false) as Hinv.
    { unfold Valid, TypeString, TypeSharedString.
      destruct (Z.leb_spec 1 t), (Z.leb_spec t 28); try reflexivity. lia. }
    rewrite Hnone, Hinv. split.
    + split; [intros [v Hv]; discriminate Hv | discriminate].
    + intros v Hv. discriminate Hv.
Qed.

(** *** Errors of [ValuesToBytes] *)

(** The first value whose type is not [t] is reported with its index. *)
Theorem ValuesToBytes_type_mismatch (t : Z) (good rest : list Value) (bad : Value) :
  Valid t = true →
  Forall (λ v, Type_of v = t) good → Type_of bad ≠ t →
  ValuesToBytes t (good ++ bad :: rest)
  = Err (ErrElementType (length good) (Type_of bad) t).
Proof.
  intros Hv Hgood Hbad. unfold ValuesToBytes. rewrite Hv. cbn [negb].
  match goal with
  | |- context [for_each ?l ?f ()] =>
      assert (for_each l f () = Err (ErrElementType (length good) (Type_of bad) t)) as ->
  end; [|reflexivity].
  unfold for_each. rewrite for_each_from_app.
  pose proof (type_check_ok t good Hgood) as Hok. unfold for_each in Hok.
  rewrite Hok. cbn [mbind result_bind for_each_from Nat.add].
  destruct (Z.eqb_spec (Type_of bad) t) as [|_]; [done|]. reflexivity.
Qed.

Lemma ValuesToBytes_type_mismatch_witness :
  ValuesToBytes TypeInt ([VInt 1; VInt 2] ++ VBool true :: [VInt 3])
  = Err (ErrElementType 2 TypeBool TypeInt).
Proof.
  apply (ValuesToBytes_type_mismatch TypeInt [VInt 1; VInt 2] [VInt 3] (VBool true)).
  - reflexivity.
  - repeat constructor.
  - discriminate.
Defined.

End More_properties.

Section More_properties2.
Local Close Scope Z_scope.

(** *** Bytes that [ValuesFromBytes] leaves unread *)

(** For the kinds read by the fixed-size loop of [appendByteValues], bytes
    after the last whole value are dropped without an error, whatever they
    are. *)
Theorem trailing_bytes_dropped (t : Z) (xs : list Value) (post : list byte) :
  case_of t [TypeVector3int16; TypeDouble; TypeNumberRange; TypeRay] = true →
  Forall (λ v, Type_of v = t ∧ wf_Value v) xs →
  length post < (if (t =? TypeVector3int16)%Z then 6
                 else if (t =? TypeRay)%Z then 24 else 8) →
  ValuesFromBytes t (concat (Bytes <$> xs) ++ post) = Ok xs.
Proof.
  intros Ht Hxs Hpost.
  destruct (newValue t) as [zero|] eqn:Hz.
  2:{ split_tag Ht; vm_compute in Hz; discriminate. }
  assert (Hfix : ∀ size : nat,
    (0 < size)%nat → length post < size →
    Forall (λ v, match v with
                 | VBool _ | VFaces _ | VAxes _ => size = 1%nat
                 | VVector3int16 _ => size = 6%nat
                 | VDouble _ | VNumberRange _ | VInt64 _ => size = 8%nat
                 | VRay _ => size = 24%nat
                 | VInt _ | VFloat _ | VBrickColor _ | VToken _
                 | VSharedString _ => size = 4%nat
                 | _ => False
                 end) xs →
    appendByteValues t (concat (Bytes <$> xs) ++ post) (Z.of_nat size) 0 = Ok xs).
  { intros size Hsize Hlt Hk.
    apply (appendByteValues_fixed_trailing t size zero); [done | done | done |].
    apply Forall2_fmap_l_same.
    rewrite Forall_lookup in Hxs, Hk. apply Forall_lookup. intros i v Hi.
    destruct (Hxs i v Hi) as [Hty Hwf].
    apply fixed_size_value; [done | by rewrite Hty | by apply (Hk i v Hi)]. }
  assert (Hkind : ∀ (P : Value → Prop),
    (∀ v, Type_of v = t → P v) → Forall P xs).
  { intros P HP. eapply Forall_impl; [|exact Hxs]. intros v [Hty _]. by apply HP. }
  unfold ValuesFromBytes.
  split_tag Ht; unfold ValuesFromBytes_run; eval_tags; cbn [fst];
    change (TypeVector3int16 =? TypeVector3int16)%Z with true in Hpost;
    change (TypeDouble =? TypeVector3int16)%Z with false in Hpost;
    change (TypeNumberRange =? TypeVector3int16)%Z with false in Hpost;
    change (TypeRay =? TypeVector3int16)%Z with false in Hpost;
    change (TypeDouble =? TypeRay)%Z with false in Hpost;
    change (TypeNumberRange =? TypeRay)%Z with false in Hpost;
    change (TypeRay =? TypeRay)%Z with true in Hpost;
    cbv iota in Hpost.
  - apply (Hfix 6); [lia | done |].
    apply Hkind. intros v Hv. destruct v; try discriminate Hv. done.
  - apply (Hfix 8); [lia | done |].
    apply Hkind. intros v Hv. destruct v; try discriminate Hv. done.
  - apply (Hfix 8); [lia | done |].
    apply Hkind. intros v Hv. destruct v; try discriminate Hv. done.
  - apply (Hfix 24); [lia | done |].
    apply Hkind. intros v Hv. destruct v; try discriminate Hv. done.
Qed.

Lemma trailing_bytes_dropped_witness :
  ValuesFromBytes TypeDouble
    (concat (Bytes <$> [VDouble 1; VDouble 2]) ++ [1; 2; 3; 4; 5; 6; 7]%Z)
  = Ok [VDouble 1; VDouble 2].
Proof.
  apply (trailing_bytes_dropped TypeDouble [VDouble 1; VDouble 2] [1; 2; 3; 4; 5; 6; 7]%Z).
  - reflexivity.
  - repeat constructor; cbn; unfold is_u64; lia.
  - cbn. lia.
Defined.

(** *** [ValuePhysicalProperties.FromBytes] beyond the length of its input *)

(** On a one-byte slice with a non-zero first byte, [FromBytes] returns no
    error: it reads the five floats from the 20 bytes of the backing array
    that follow the slice, and panics when the capacity is short of them. *)
Theorem PhysicalProperties_FromBytes_reads_capacity (c : Z) (spare : list byte) :
  c ≠ 0%Z →
  ValuePhysicalProperties_FromBytes_cap [c] spare
  = if (20 <=? length spare)%nat
    then Ok (mkPhysicalProperties c
               (LittleEndian_Uint32 spare 0) (LittleEndian_Uint32 spare 4)
               (LittleEndian_Uint32 spare 8) (LittleEndian_Uint32 spare 12)
               (LittleEndian_Uint32 spare 16))
    else Panic.
Proof.
  intros Hc. unfold ValuePhysicalProperties_FromBytes_cap.
  destruct (Z.eqb_spec c 0) as [|_]; [done|].
  cbn [andb negb length Nat.eqb]. unfold slice_from.
  change (slice [c] 1 (length [c])) with (Ok (@nil Z)).
  cbn [mbind result_bind app]. cbv zeta.
  assert (Hslice : ∀ k, slice spare (k * 4) (k * 4 + 4)
                        = if (k * 4 + 4 <=? length spare)%nat
                          then Ok (take 4 (drop (k * 4) spare)) else Panic).
  { intros k. unfold slice.
    destruct (Nat.leb_spec (k * 4) (k * 4 + 4)) as [_|]; [|lia].
    destruct (Nat.leb_spec (k * 4 + 4) (length spare)); cbn [andb]; [|done].
    by replace (k * 4 + 4 - k * 4) with 4 by lia. }
  assert (Hread : ∀ k, LittleEndian_Uint32 (take 4 (drop k spare)) 0
                       = LittleEndian_Uint32 spare k).
  { intros k. rewrite LittleEndian_Uint32_take by lia.
    rewrite LittleEndian_Uint32_drop. by rewrite Nat.add_0_r. }
  rewrite !Hslice.
  destruct (Nat.leb_spec 20 (length spare)) as [Hlen|Hlen].
  - repeat match goal with
           | |- context [(?k * 4 + 4 <=? length spare)%nat] =>
               destruct (Nat.leb_spec (k * 4 + 4) (length spare)) as [_|]; [|cbn in *; lia]
           end.
    cbn [mbind result_bind]. by rewrite !Hread.
  - repeat match goal with
           | |- context [(?k * 4 + 4 <=? length spare)%nat] =>
               destruct (Nat.leb_spec (k * 4 + 4) (length spare)) as [?|];
               cbn [mbind result_bind]; [|reflexivity]
           end.
    cbn in *. lia.
Qed.

Lemma PhysicalProperties_FromBytes_reads_capacity_witness :
  ValuePhysicalProperties_FromBytes_cap [1]%Z
    [1; 0; 0; 0; 2; 0; 0; 0; 3; 0; 0; 0; 4; 0; 0; 0; 5; 0; 0; 0]%Z
  = Ok (mkPhysicalProperties 1 1 2 3 4 5) ∧
  ValuePhysicalProperties_FromBytes_cap [1]%Z [1; 0; 0; 0; 2; 0; 0]%Z = Panic.
Proof.
  split.
  - rewrite (PhysicalProperties_FromBytes_reads_capacity 1); [reflexivity | lia].
  - rewrite (PhysicalProperties_FromBytes_reads_capacity 1); [reflexivity | lia].
Defined.

End More_properties2.

(** *** Zigzag *)

Lemma zigzag_inverse (w : Z) (u : Z) :
  (1 ≤ w)%Z → (0 ≤ u < 2 ^ w)%Z →
  (- 2 ^ (w - 1) ≤ decodeZigzag w u < 2 ^ (w - 1))%Z ∧
  encodeZigzag w (decodeZigzag w u) = u.
Proof.
  intros Hw Hu.
  assert (2 ^ w = 2 * 2 ^ (w - 1))%Z as Hpow.
  { replace w with (1 + (w - 1))%Z at 1 by lia. by rewrite Z.pow_add_r by lia. }
  pose proof (decodeZigzag_eq w Hw u Hu) as Hd.
  pose proof (Z.div_mod u 2 ltac:(lia)) as Hdm.
  pose proof (Z.mod_pos_bound u 2 ltac:(lia)) as Hm.
  assert (Z.even u = (u mod 2 =? 0)%Z) as Hev.
  { rewrite Zmod_even. by destruct (Z.even u). }
  assert (- 2 ^ (w - 1) ≤ decodeZigzag w u < 2 ^ (w - 1))%Z as Hrange.
  { rewrite Hd, Hev. destruct (Z.eqb_spec (u mod 2) 0); lia. }
  split; [exact Hrange|].
  rewrite (encodeZigzag_eq w Hw) by exact Hrange.
  rewrite Hd, Hev.
  destruct (Z.eqb_spec (u mod 2) 0);
    match goal with |- context [(?x <? 0)%Z] => destruct (Z.ltb_spec x 0) end; lia.
Qed.

(** [encodeZigzag32] maps the non-negative [n] to [2n] and the negative [n]
    to [-2n - 1]; it is a bijection between [int32] and [uint32] whose
    inverse is [decodeZigzag32]. *)
Theorem zigzag32_bijection (n u : Z) :
  is_i32 n → is_u32 u →
  encodeZigzag32 n = (if n <? 0 then - 2 * n - 1 else 2 * n)%Z ∧
  is_u32 (encodeZigzag32 n) ∧
  decodeZigzag32 (encodeZigzag32 n) = n ∧
  is_i32 (decodeZigzag32 u) ∧
  encodeZigzag32 (decodeZigzag32 u) = u.
Proof.
  intros Hn Hu.
  split; [rewrite encodeZigzag32_generic; apply encodeZigzag_eq; [lia | exact Hn]|].
  split; [by apply encodeZigzag32_range|].
  split; [by apply decodeZigzag32_encodeZigzag32|].
  rewrite encodeZigzag32_generic, decodeZigzag32_generic.
  destruct (zigzag_inverse 32 u) as [H1 H2]; [lia | exact Hu |].
  split; [exact H1 | exact H2].
Qed.

Lemma zigzag32_bijection_witness :
  encodeZigzag32 (-3) = 5%Z ∧ decodeZigzag32 (encodeZigzag32 (-3)) = (-3)%Z ∧
  encodeZigzag32 (decodeZigzag32 4294967295) = 4294967295%Z.
Proof.
  destruct (zigzag32_bijection (-3) 4294967295) as (H1 & _ & H3 & _ & H5).
  - unfold is_i32. lia.
  - unfold is_u32. lia.
  - split; [rewrite H1; reflexivity|]. split; [exact H3 | exact H5].
Defined.

(** The same for [encodeZigzag64] and [decodeZigzag64], between [int64] and
    [uint64]. *)
Theorem zigzag64_bijection (n u : Z) :
  is_i64 n → is_u64 u →
  encodeZigzag64 n = (if n <? 0 then - 2 * n - 1 else 2 * n)%Z ∧
  is_u64 (encodeZigzag64 n) ∧
  decodeZigzag64 (encodeZigzag64 n) = n ∧
  is_i64 (decodeZigzag64 u) ∧
  encodeZigzag64 (decodeZigzag64 u) = u.
Proof.
  intros Hn Hu.
  split; [rewrite encodeZigzag64_generic; apply encodeZigzag_eq; [lia | exact Hn]|].
  split; [by apply encodeZigzag64_range|].
  split; [by apply decodeZigzag64_encodeZigzag64|].
  rewrite encodeZigzag64_generic, decodeZigzag64_generic.
  destruct (zigzag_inverse 64 u) as [H1 H2]; [lia | exact Hu |].
  split; [exact H1 | exact H2].
Qed.

Lemma zigzag64_bijection_witness :
  encodeZigzag64 (-3) = 5%Z ∧ decodeZigzag64 (encodeZigzag64 (-3)) = (-3)%Z ∧
  encodeZigzag64 (decodeZigzag64 7) = 7%Z.
Proof.
  destruct (zigzag64_bijection (-3) 7) as (H1 & _ & H3 & _ & H5).
  - unfold is_i64. lia.
  - unfold is_u64. lia.
  - split; [rewrite H1; reflexivity|]. split; [exact H3 | exact H5].
Defined.

Section More_properties3.
Local Close Scope Z_scope.

(** *** The index map of [interleave] *)

(** On a buffer of [rows * cols] bytes, [interleave(bytes, cols)] succeeds,
    keeps the length, and moves the byte at [r * cols + c] to
    [c * rows + r]; [deinterleave(bytes, cols)] moves it back from
    [c * rows + r] to [r * cols + c]. *)
Theorem interleave_index_map (bytes : list byte) (rows cols : nat) :
  length bytes = rows * cols → 0 < cols →
  (∃ out, interleave bytes (Z.of_nat cols) = Ok out ∧
          length out = length bytes ∧
          ∀ r c, r < rows → c < cols →
                 out !! (c * rows + r) = bytes !! (r * cols + c)) ∧
  (0 < rows →
   ∃ out, deinterleave bytes (Z.of_nat cols) = Ok out ∧
          length out = length bytes ∧
          ∀ r c, r < rows → c < cols →
                 out !! (r * cols + c) = bytes !! (c * rows + r)).
Proof.
  intros Hlen Hc. split.
  - destruct (interleave_spec bytes rows cols Hlen Hc) as (out & Hout & Hl & Hmap).
    exists out. done.
  - intros Hr.
    destruct (deinterleave_spec bytes rows cols Hlen Hc Hr) as (out & Hout & Hl & Hmap).
    exists out. split; [done|]. split; [done|].
    intros r c Hr' Hc'. by apply Hmap.
Qed.

Lemma interleave_index_map_witness :
  ∃ out, interleave [1; 2; 3; 4; 5; 6]%Z 3 = Ok out ∧
         out !! 1 = Some 4%Z ∧ out !! 2 = Some 2%Z.
Proof.
  destruct (interleave_index_map [1; 2; 3; 4; 5; 6]%Z 2 3) as [(out & H1 & _ & H3) _];
    [reflexivity | lia |].
  exists out. split; [exact H1|]. split.
  - apply (H3 1 0); lia.
  - apply (H3 0 1); lia.
Defined.

End More_properties3.

Section Array_layouts.
Local Close Scope Z_scope.

(** *** The layout of the arrays, kind by kind *)

(** An array of [String], [Bool], [Double], [Ray], [Faces], [Axes],
    [Vector3int16], [NumberSequence], [ColorSequence] or [NumberRange] is the
    concatenation of the values' [Bytes]; it is read back as it was, the
    empty array too, and reading leaves the buffer as it is. *)
Theorem plain_arrays_concatenate (t : Z) (xs : list Value) :
  case_of t [TypeString; TypeBool; TypeDouble; TypeRay; TypeFaces; TypeAxes;
             TypeVector3int16; TypeNumberSequence; TypeColorSequence;
             TypeNumberRange] = true →
  Forall (λ v, Type_of v = t ∧ wf_Value v) xs →
  ValuesToBytes t xs = Ok (concat (Bytes <$> xs)) ∧
  ValuesFromBytes t (concat (Bytes <$> xs)) = Ok xs ∧
  ValuesFromBytes_buffer t (concat (Bytes <$> xs)) = concat (Bytes <$> xs).
Proof. apply plain_array_roundtrip. Qed.

Lemma plain_arrays_concatenate_witness :
  let xs := [VString [104; 105]%Z; VString []; VString [33]%Z] in
  ValuesToBytes TypeString xs = Ok [2; 0; 0; 0; 104; 105; 0; 0; 0; 0; 1; 0; 0; 0; 33]%Z ∧
  ValuesFromBytes TypeString [2; 0; 0; 0; 104; 105; 0; 0; 0; 0; 1; 0; 0; 0; 33]%Z = Ok xs.
Proof.
  intros xs.
  destruct (plain_arrays_concatenate TypeString xs) as (H1 & H2 & _).
  - reflexivity.
  - repeat constructor; cbn; unfold is_byte; lia.
  - split; [exact H1 | exact H2].
Defined.

(** A non-empty array of [Int], [Float], [BrickColor], [Token],
    [SharedString] (stride 4) or [Int64] (stride 8) is the concatenation of
    the values' [Bytes] interleaved as a whole; it is read back as it was,
    from a copy of the buffer. *)
Theorem interleaved_arrays_roundtrip (t : Z) (xs : list Value) :
  stride_interleaved t = true → xs ≠ [] →
  Forall (λ v, Type_of v = t ∧ wf_Value v) xs →
  ∃ b, interleave (concat (Bytes <$> xs)) (if (t =? TypeInt64)%Z then 8 else 4) = Ok b ∧
       ValuesToBytes t xs = Ok b ∧
       length b = length (concat (Bytes <$> xs)) ∧
       ValuesFromBytes t b = Ok xs ∧
       ValuesFromBytes_buffer t b = b.
Proof.
  intros Ht Hne Hxs.
  destruct (interleaved_array_roundtrip t xs Ht Hne Hxs) as (b & H1 & H2 & H3 & H4).
  exists b. split; [|done].
  pose proof (Forall_Type_of _ _ Hxs) as Hty.
  unfold stride_interleaved in Ht.
  split_tag Ht; revert H1; enter_ValuesToBytes Hxs;
    rewrite (appendValueBytes_concat _ _ Hty); cbn [mbind result_bind];
    intros H1; exact H1.
Qed.

Lemma interleaved_arrays_roundtrip_witness :
  let xs := [VInt 1; VInt (-1); VInt 2] in
  ∃ b, interleave (concat (Bytes <$> xs)) 4 = Ok b ∧
       ValuesToBytes TypeInt xs = Ok b ∧ ValuesFromBytes TypeInt b = Ok xs.
Proof.
  intros xs.
  destruct (interleaved_arrays_roundtrip TypeInt xs) as (b & H1 & H2 & _ & H4 & _).
  - reflexivity.
  - discriminate.
  - repeat constructor; cbn; unfold is_i32; lia.
  - exists b. split; [exact H1|]. split; [exact H2 | exact H4].
Defined.

(** The empty array of these six kinds is written as the empty buffer, and
    the empty buffer is rejected when it is read. *)
Theorem interleaved_arrays_empty_rejected (t : Z) :
  stride_interleaved t = true →
  ValuesToBytes t [] = Ok [] ∧ ValuesFromBytes t [] = Err ErrLengthNotPositive.
Proof. apply interleaved_array_empty. Qed.

Lemma interleaved_arrays_empty_rejected_witness :
  ValuesToBytes TypeInt64 [] = Ok [] ∧
  ValuesFromBytes TypeInt64 [] = Err ErrLengthNotPositive.
Proof. apply (interleaved_arrays_empty_rejected TypeInt64). reflexivity. Defined.

(** An array of [UDim], [UDim2], [Color3], [Vector2], [Vector3], [Rect2D] or
    [Color3uint8] is read back as it was, the empty array too; reading
    leaves in the caller's buffer the fields one after the other, each
    holding the bytes of that field of every value in turn. *)
Theorem field_arrays_roundtrip (t : Z) (xs : list Value) :
  case_of t [TypeUDim; TypeUDim2; TypeColor3; TypeVector2; TypeVector3;
             TypeRect2D; TypeColor3uint8] = true →
  Forall (λ v, Type_of v = t ∧ wf_Value v) xs →
  ∃ b, ValuesToBytes t xs = Ok b ∧
       length b = length (concat (Bytes <$> xs)) ∧
       ValuesFromBytes t b = Ok xs ∧
       ValuesFromBytes_buffer t b
       = concat (column xs <$>
                 seq 0 (length (fieldLen (default (VBool false) (head xs))))).
Proof.
  intros Ht Hxs. destruct (fields_roundtrip t xs Ht Hxs) as (b & H1 & Hl & H2).
  exists b. unfold ValuesFromBytes, ValuesFromBytes_buffer.
  assert (length b = length (concat (Bytes <$> xs))) as Hlen.
  { rewrite Hl. clear H1 H2 Hl.
    destruct xs as [|v0 xs']; [done|]. change (default (VBool false) (head (v0 :: xs'))) with v0.
    assert (total_bytes (fieldLen v0) = length (Bytes v0) ∧
            Forall (λ v, length (Bytes v) = length (Bytes v0)) (v0 :: xs')) as [-> HB].
    { assert (Hv0 : Type_of v0 = t) by (by inversion Hxs as [|? ? [? _] _]).
      split.
      - split_tag Ht; destruct v0; try discriminate Hv0; reflexivity.
      - eapply Forall_impl; [|exact Hxs]. intros v [Hv _].
        split_tag Ht; destruct v; try discriminate Hv;
          destruct v0; try discriminate Hv0; reflexivity. }
    rewrite (length_concat_fixed _ (length (Bytes v0))), length_fmap; [lia|].
    by apply Forall_fmap. }
  split_tag Ht; enter_ValuesToBytes Hxs; unfold ValuesFromBytes_run; eval_tags;
    rewrite H2; done.
Qed.

Lemma field_arrays_roundtrip_witness :
  let xs := [VVector2 (mkVector2 0x3F800000 0x40000000);
             VVector2 (mkVector2 0x40400000 0x40800000)]%Z in
  ∃ b, ValuesToBytes TypeVector2 xs = Ok b ∧ length b = 16 ∧
       ValuesFromBytes TypeVector2 b = Ok xs.
Proof.
  intros xs.
  destruct (field_arrays_roundtrip TypeVector2 xs) as (b & H1 & H2 & H3 & _).
  - reflexivity.
  - repeat constructor; cbn; unfold is_u32; lia.
  - exists b. split; [exact H1|]. split; [exact H2 | exact H3].
Defined.

End Array_layouts.

Section Array_layouts2.
Local Close Scope Z_scope.

(** An array of references is stored as the zigzag bytes of the first
    reference and of the difference of every later reference to the one
    before it, interleaved with stride 4; the differences wrap around in 32
    bits and are summed up again when the array is read, so every array is
    read back as it was, from a copy of the buffer. *)
Theorem Reference_arrays_roundtrip (refs : list Z) :
  Forall is_i32 refs →
  ∃ b, interleave (concat (ValueReference_Bytes <$>
                           zip_with (λ r p, to_i32 (r - p)) refs (0%Z :: refs))) 4
       = Ok b ∧
       ValuesToBytes TypeReference (VReference <$> refs) = Ok b ∧
       length b = length refs * 4 ∧
       ValuesFromBytes TypeReference b = Ok (VReference <$> refs) ∧
       ValuesFromBytes_buffer TypeReference b = b.
Proof.
  intros Hrefs. destruct (Reference_array refs Hrefs) as (b & H0 & H1 & H2 & H3).
  exists b. unfold ValuesFromBytes, ValuesFromBytes_buffer. rewrite H3. done.
Qed.

Lemma Reference_arrays_roundtrip_witness :
  let refs := [2147483647; -2147483648; 0; 5]%Z in
  ∃ b, ValuesToBytes TypeReference (VReference <$> refs) = Ok b ∧
       length b = 16 ∧
       ValuesFromBytes TypeReference b = Ok (VReference <$> refs).
Proof.
  intros refs.
  destruct (Reference_arrays_roundtrip refs) as (b & _ & H1 & H2 & H3 & _).
  - repeat constructor; unfold is_i32; lia.
  - exists b. split; [exact H1|]. split; [exact H2 | exact H3].
Defined.

(** An array of CFrames is the matrix parts of the values, one after the
    other ([Special], and the nine floats of the rotation when
    [Special == 0]), followed by the positions as an array of [Vector3];
    it is read back with a zero rotation where [Special != 0]. *)
Theorem CFrame_arrays_layout (cfs : list ValueCFrame) :
  Forall (λ cf, wf_Value (VCFrame cf)) cfs →
  ∃ pb,
    ValuesToBytes TypeVector3 ((λ cf, VVector3 (CFrame_Position cf)) <$> cfs) = Ok pb ∧
    length pb = 12 * length cfs ∧
    ValuesToBytes TypeCFrame (VCFrame <$> cfs)
    = Ok (concat (CFrame_matrix <$> cfs) ++ pb) ∧
    readMatrices (concat (CFrame_matrix <$> cfs) ++ pb)
    = Ok (length (concat (CFrame_matrix <$> cfs)), CFrame_read <$> cfs) ∧
    ValuesFromBytes TypeCFrame (concat (CFrame_matrix <$> cfs) ++ pb)
    = Ok (normalize <$> (VCFrame <$> cfs)).
Proof.
  intros Hcfs. destruct (CFrame_array cfs Hcfs) as (pb & H1 & H2 & H3 & H4).
  exists pb. split; [|split; [done|split; [done|split; [|done]]]].
  - assert (Hp : Forall (λ v, Type_of v = TypeVector3 ∧ wf_Value v)
                        ((λ cf, VVector3 (CFrame_Position cf)) <$> cfs)).
    { apply Forall_fmap. eapply Forall_impl; [|exact Hcfs].
      intros cf (_ & _ & _ & Hpos). by split. }
    enter_ValuesToBytes Hp. exact H1.
  - unfold readMatrices.
    rewrite (readMatrices_loop (concat (CFrame_matrix <$> cfs) ++ pb) pb cfs)
      with (pre := []) (n := 0); [reflexivity | | reflexivity | lia |].
    + eapply Forall_impl; [|exact Hcfs]. by intros cf (_ & ? & ? & _).
    + rewrite length_app. lia.
Qed.

Lemma CFrame_arrays_layout_witness :
  let cfs := [mkCFrame 0 [1; 2; 3; 4; 5; 6; 7; 8; 9] (mkVector3 10 11 12);
              mkCFrame 3 [1; 2; 3; 4; 5; 6; 7; 8; 9] (mkVector3 13 14 15)]%Z in
  ∃ b, ValuesToBytes TypeCFrame (VCFrame <$> cfs) = Ok b ∧
       length b = 62 ∧
       ValuesFromBytes TypeCFrame b
       = Ok [VCFrame (mkCFrame 0 [1; 2; 3; 4; 5; 6; 7; 8; 9] (mkVector3 10 11 12));
             VCFrame (mkCFrame 3 [0; 0; 0; 0; 0; 0; 0; 0; 0] (mkVector3 13 14 15))]%Z.
Proof.
  intros cfs.
  destruct (CFrame_arrays_layout cfs) as (pb & _ & H2 & H3 & _ & H5).
  - repeat constructor; cbn; unfold is_u32, is_byte; lia.
  - eexists. split; [exact H3|]. split; [|exact H5].
    rewrite length_app, H2. reflexivity.
Defined.

(** An array of PhysicalProperties is the concatenation of the values'
    [Bytes] (one byte, or 21 when [CustomPhysics != 0]); unlike a single
    value it is read back, with zero floats where [CustomPhysics == 0]. *)
Theorem PhysicalProperties_arrays_roundtrip (xs : list Value) :
  Forall (λ v, Type_of v = TypePhysicalProperties ∧ wf_Value v) xs →
  ValuesToBytes TypePhysicalProperties xs = Ok (concat (Bytes <$> xs)) ∧
  ValuesFromBytes TypePhysicalProperties (concat (Bytes <$> xs))
    = Ok (normalize <$> xs) ∧
  ValuesFromBytes_buffer TypePhysicalProperties (concat (Bytes <$> xs))
    = concat (Bytes <$> xs).
Proof. apply PhysicalProperties_array_roundtrip. Qed.

Lemma PhysicalProperties_arrays_roundtrip_witness :
  let xs := [VPhysicalProperties (mkPhysicalProperties 1 2 3 4 5 6);
             VPhysicalProperties (mkPhysicalProperties 0 7 8 9 10 11)]%Z in
  ∃ b, ValuesToBytes TypePhysicalProperties xs = Ok b ∧ length b = 22 ∧
       ValuesFromBytes TypePhysicalProperties b
       = Ok [VPhysicalProperties (mkPhysicalProperties 1 2 3 4 5 6);
             VPhysicalProperties (mkPhysicalProperties 0 0 0 0 0 0)]%Z.
Proof.
  intros xs.
  destruct (PhysicalProperties_arrays_roundtrip xs) as (H1 & H2 & _).
  - repeat constructor; cbn; unfold is_u32, is_byte; lia.
  - eexists. split; [exact H1|]. split; [reflexivity | exact H2].
Defined.

End Array_layouts2.


(** ** Single values made of several fields *)

(** Replace a byte string [t] of known length by the list of its bytes. *)
Ltac shape t Hlen :=
  let HL := fresh "HL" in
  let E := fresh "E" in
  pose proof Hlen as HL; revert HL;
  destruct t as [|? [|? [|? [|? [|? [|? [|? [|? [|? [|? [|? [|? [|? ?]]]]]]]]]]]]] eqn:E;
  intros HL; try discriminate HL; clear HL.

Ltac slices :=
  cbv [copy_to copy_at make replicate take drop app length Nat.min Nat.sub Nat.add
       Nat.eqb Nat.leb negb andb slice slice_from mbind result_bind].

Section Composite_values.
Local Close Scope Z_scope.

Lemma length_ValueVector2_Bytes v : length (ValueVector2_Bytes v) = 8.
Proof.
  unfold ValueVector2_Bytes. cbv zeta.
  shape (ValueFloat_Bytes (Vector2_X v)) (length_ValueFloat_Bytes (Vector2_X v)).
  shape (ValueFloat_Bytes (Vector2_Y v)) (length_ValueFloat_Bytes (Vector2_Y v)).
  reflexivity.
Qed.

Lemma ValueVector2_FromBytes_Bytes v zero :
  wf_Vector2 v → ValueVector2_FromBytes zero (ValueVector2_Bytes v) = Ok v.
Proof.
  intros [Hx Hy]. destruct v as [x y]. cbn [Vector2_X Vector2_Y] in *.
  unfold ValueVector2_FromBytes, ValueVector2_Bytes. cbv zeta.
  cbn [Vector2_X Vector2_Y].
  pose proof (ValueFloat_FromBytes_Bytes x Hx) as Fx.
  pose proof (ValueFloat_FromBytes_Bytes y Hy) as Fy.
  revert Fx Fy.
  shape (ValueFloat_Bytes x) (length_ValueFloat_Bytes x).
  shape (ValueFloat_Bytes y) (length_ValueFloat_Bytes y).
  intros Fx Fy. slices. rewrite Fx, Fy. reflexivity.
Qed.

Lemma ValueVector3_FromBytes_Bytes v zero :
  wf_Vector3 v → ValueVector3_FromBytes zero (ValueVector3_Bytes v) = Ok v.
Proof.
  intros (Hx & Hy & Hz). destruct v as [x y z]. cbn [Vector3_X Vector3_Y Vector3_Z] in *.
  unfold ValueVector3_FromBytes, ValueVector3_Bytes. cbv zeta.
  cbn [Vector3_X Vector3_Y Vector3_Z].
  pose proof (ValueFloat_FromBytes_Bytes x Hx) as Fx.
  pose proof (ValueFloat_FromBytes_Bytes y Hy) as Fy.
  pose proof (ValueFloat_FromBytes_Bytes z Hz) as Fz.
  revert Fx Fy Fz.
  shape (ValueFloat_Bytes x) (length_ValueFloat_Bytes x).
  shape (ValueFloat_Bytes y) (length_ValueFloat_Bytes y).
  shape (ValueFloat_Bytes z) (length_ValueFloat_Bytes z).
  intros Fx Fy Fz. slices. rewrite Fx, Fy, Fz. reflexivity.
Qed.

Lemma length_ValueVector3_Bytes v : length (ValueVector3_Bytes v) = 12.
Proof.
  unfold ValueVector3_Bytes. cbv zeta.
  shape (ValueFloat_Bytes (Vector3_X v)) (length_ValueFloat_Bytes (Vector3_X v)).
  shape (ValueFloat_Bytes (Vector3_Y v)) (length_ValueFloat_Bytes (Vector3_Y v)).
  shape (ValueFloat_Bytes (Vector3_Z v)) (length_ValueFloat_Bytes (Vector3_Z v)).
  reflexivity.
Qed.

Lemma ValueColor3_FromBytes_Bytes v zero :
  wf_Color3 v → ValueColor3_FromBytes zero (ValueColor3_Bytes v) = Ok v.
Proof.
  intros (Hx & Hy & Hz). destruct v as [x y z]. cbn [Color3_R Color3_G Color3_B] in *.
  unfold ValueColor3_FromBytes, ValueColor3_Bytes. cbv zeta.
  cbn [Color3_R Color3_G Color3_B].
  pose proof (ValueFloat_FromBytes_Bytes x Hx) as Fx.
  pose proof (ValueFloat_FromBytes_Bytes y Hy) as Fy.
  pose proof (ValueFloat_FromBytes_Bytes z Hz) as Fz.
  revert Fx Fy Fz.
  shape (ValueFloat_Bytes x) (length_ValueFloat_Bytes x).
  shape (ValueFloat_Bytes y) (length_ValueFloat_Bytes y).
  shape (ValueFloat_Bytes z) (length_ValueFloat_Bytes z).
  intros Fx Fy Fz. slices. rewrite Fx, Fy, Fz. reflexivity.
Qed.

Lemma ValueUDim_FromBytes_Bytes v zero :
  is_u32 (UDim_Scale v) → is_i32 (UDim_Offset v) →
  ValueUDim_FromBytes zero (ValueUDim_Bytes v) = Ok v.
Proof.
  intros Hx Hy. destruct v as [x y]. cbn [UDim_Scale UDim_Offset] in *.
  unfold ValueUDim_FromBytes, ValueUDim_Bytes. cbv zeta.
  cbn [UDim_Scale UDim_Offset].
  pose proof (ValueFloat_FromBytes_Bytes x Hx) as Fx.
  pose proof (ValueInt_FromBytes_Bytes y Hy) as Fy.
  revert Fx Fy.
  shape (ValueFloat_Bytes x) (length_ValueFloat_Bytes x).
  shape (ValueInt_Bytes y) (length_ValueInt_Bytes y).
  intros Fx Fy. slices. rewrite Fx, Fy. reflexivity.
Qed.

Lemma ValueUDim2_FromBytes_Bytes v zero :
  is_u32 (UDim2_ScaleX v) → is_u32 (UDim2_ScaleY v) →
  is_i32 (UDim2_OffsetX v) → is_i32 (UDim2_OffsetY v) →
  ValueUDim2_FromBytes zero (ValueUDim2_Bytes v) = Ok v.
Proof.
  intros Hx Hy Hz Hw. destruct v as [x y z w].
  cbn [UDim2_ScaleX UDim2_ScaleY UDim2_OffsetX UDim2_OffsetY] in *.
  unfold ValueUDim2_FromBytes, ValueUDim2_Bytes. cbv zeta.
  cbn [UDim2_ScaleX UDim2_ScaleY UDim2_OffsetX UDim2_OffsetY].
  pose proof (ValueFloat_FromBytes_Bytes x Hx) as Fx.
  pose proof (ValueFloat_FromBytes_Bytes y Hy) as Fy.
  pose proof (ValueInt_FromBytes_Bytes z Hz) as Fz.
  pose proof (ValueInt_FromBytes_Bytes w Hw) as Fw.
  revert Fx Fy Fz Fw.
  shape (ValueFloat_Bytes x) (length_ValueFloat_Bytes x).
  shape (ValueFloat_Bytes y) (length_ValueFloat_Bytes y).
  shape (ValueInt_Bytes z) (length_ValueInt_Bytes z).
  shape (ValueInt_Bytes w) (length_ValueInt_Bytes w).
  intros Fx Fy Fz Fw. slices. rewrite Fx, Fy, Fz, Fw. reflexivity.
Qed.

Lemma ValueRect2D_FromBytes_Bytes v zero :
  wf_Vector2 (Rect2D_Min v) → wf_Vector2 (Rect2D_Max v) →
  ValueRect2D_FromBytes zero (ValueRect2D_Bytes v) = Ok v.
Proof.
  intros Hx Hy. destruct v as [x y]. cbn [Rect2D_Min Rect2D_Max] in *.
  unfold ValueRect2D_FromBytes, ValueRect2D_Bytes. cbv zeta.
  cbn [Rect2D_Min Rect2D_Max].
  pose proof (ValueVector2_FromBytes_Bytes x (Rect2D_Min zero) Hx) as Fx.
  pose proof (ValueVector2_FromBytes_Bytes y (Rect2D_Max zero) Hy) as Fy.
  revert Fx Fy.
  shape (ValueVector2_Bytes x) (length_ValueVector2_Bytes x).
  shape (ValueVector2_Bytes y) (length_ValueVector2_Bytes y).
  intros Fx Fy. slices. rewrite Fx, Fy. reflexivity.
Qed.

Lemma ValueColor3uint8_FromBytes_Bytes v :
  ValueColor3uint8_FromBytes (ValueColor3uint8_Bytes v) = Ok v.
Proof. by destruct v. Qed.

End Composite_values.

Section CFrame_value.
Local Close Scope Z_scope.

(** The rotation written by [ValueCFrame.Bytes] into [b[1:]] is the one
    written by the array encoder. *)
Lemma CFrame_Bytes_rotation (rot : list Z) :
  length rot = 9 →
  for_range 9 (λ i b, LittleEndian_PutUint32 b (1 + i * 4) (get rot i)) (make 49)
  = 0%Z :: for_range 9 (λ i r, LittleEndian_PutUint32 r (i * 4) (get rot i))
                     (make (9 * 4)) ++ make 12.
Proof.
  intros Hlen.
  do 9 (destruct rot as [|? rot]; [discriminate Hlen|]).
  destruct rot; [|discriminate Hlen].
  cbv [for_range seq foldl LittleEndian_PutUint32 insert list_insert make replicate
       Nat.add Nat.mul app get lookup list_lookup default].
  reflexivity.
Qed.

Lemma ValueCFrame_FromBytes_Bytes (v zero : ValueCFrame) :
  wf_Value (VCFrame v) → CFrame_Rotation zero = replicate 9 0%Z →
  VCFrame <$> ValueCFrame_FromBytes zero (ValueCFrame_Bytes v) = Ok (normalize (VCFrame v)).
Proof.
  intros (_ & Hlen & Hrot & Hpos) Hzero.
  pose proof (ValueVector3_FromBytes_Bytes (CFrame_Position v) (CFrame_Position zero) Hpos)
    as Fp.
  pose proof (length_ValueVector3_Bytes (CFrame_Position v)) as Lp.
  unfold ValueCFrame_Bytes, normalize. cbv zeta.
  destruct (Z.eqb_spec (CFrame_Special v) 0) as [Hs|Hs].
  - rewrite (CFrame_Bytes_rotation _ Hlen).
    destruct (CFrame_rotation_read (CFrame_Rotation v) (ValueVector3_Bytes (CFrame_Position v))
                Hlen Hrot) as [HR Hread].
    cbv zeta in HR, Hread.
    set (R := for_range 9 _ (make (9 * 4))) in *.
    set (pb := ValueVector3_Bytes (CFrame_Position v)) in *.
    assert (copy_at (0%Z :: R ++ make 12) (length (0%Z :: R ++ make 12) - 12) pb
            = 0%Z :: R ++ pb) as ->.
    { assert (length (0%Z :: R ++ make 12) = 49) as Hl0.
      { cbn [length]. rewrite length_app, HR, length_make. reflexivity. }
      rewrite Hl0. rewrite copy_at_tail by (rewrite Hl0, Lp; reflexivity).
      change (49 - 12) with (S 36). cbn [take]. rewrite <- HR.
      by rewrite take_app_length. }
    unfold ValueCFrame_FromBytes. cbn [Z.eqb andb negb].
    assert (length (0%Z :: R ++ pb) = 49) as Hl.
    { cbn [length]. rewrite length_app, HR, Lp. reflexivity. }
    rewrite Hl. cbn [Nat.eqb negb].
    assert (slice_from (0%Z :: R ++ pb) 1 = Ok (R ++ pb)) as ->.
    { rewrite slice_from_Ok by lia. reflexivity. }
    assert (slice_from (0%Z :: R ++ pb) (49 - 12) = Ok pb) as ->.
    { rewrite slice_from_Ok by lia.
      change (49 - 12) with (S 36). cbn [drop]. rewrite <- HR.
      by rewrite drop_app_length. }
    cbn [mbind result_bind]. rewrite Hzero, Hread, Fp.
    cbn [ignore_err fmap result_fmap]. rewrite <- Hs. by destruct v.
  - assert (<[0:=CFrame_Special v]> (make 13) = CFrame_Special v :: make 12) as ->
      by reflexivity.
    revert Fp.
    shape (ValueVector3_Bytes (CFrame_Position v)) Lp.
    intros Fp.
    unfold ValueCFrame_FromBytes. slices.
    destruct (Z.eqb_spec (CFrame_Special v) 0) as [|_]; [done|].
    cbn [andb negb]. rewrite Fp, Hzero.
    cbn [ignore_err fmap result_fmap]. reflexivity.
Qed.

End CFrame_value.

Section Every_value.
Local Close Scope Z_scope.

(** For every kind but [PhysicalProperties], [FromBytes] on a new value of
    the kind reads back what [Bytes] has written; the rotation of a [CFrame]
    with [Special != 0] is not written and is read as zero. *)
Theorem value_roundtrip (v zero : Value) :
  wf_Value v → newValue (Type_of v) = Some zero →
  Type_of v ≠ TypePhysicalProperties →
  FromBytes zero (Bytes v) = Ok (normalize v) ∧
  (match v with VCFrame cf => CFrame_Special cf = 0%Z | _ => True end →
   normalize v = v).
Proof.
  intros Hwf Hz Hpp. split.
  2:{ intros Hs. destruct v; try reflexivity.
      - cbn [normalize]. by rewrite Hs.
      - exfalso. by apply Hpp. }
  destruct v;
    try (apply (fixed_size_value _ zero 1); [done | done | done]);
    try (apply (fixed_size_value _ zero 4); [done | done | done]);
    try (apply (fixed_size_value _ zero 6); [done | done | done]);
    try (apply (fixed_size_value _ zero 8); [done | done | done]);
    try (apply (fixed_size_value _ zero 24); [done | done | done]);
    try (apply (variable_size_value _ zero 1); [done | done | done]);
    try (apply (variable_size_value _ zero sizeNSK); [done | done | done]);
    try (apply (variable_size_value _ zero sizeCSK); [done | done | done]);
    try (exfalso; apply Hpp; reflexivity);
    vm_compute in Hz; injection Hz as <-;
    cbn [Bytes FromBytes normalize wf_Value] in *.
  - destruct Hwf as [H1 H2]. rewrite ValueUDim_FromBytes_Bytes by assumption. reflexivity.
  - destruct Hwf as (H1 & H2 & H3 & H4).
    rewrite ValueUDim2_FromBytes_Bytes by assumption. reflexivity.
  - rewrite ValueColor3_FromBytes_Bytes by assumption. reflexivity.
  - rewrite ValueVector2_FromBytes_Bytes by assumption. reflexivity.
  - rewrite ValueVector3_FromBytes_Bytes by assumption. reflexivity.
  - rewrite ValueVector2int16_FromBytes_Bytes by assumption. reflexivity.
  - apply (ValueCFrame_FromBytes_Bytes v); [exact Hwf | reflexivity].
  - rewrite ValueReference_FromBytes_Bytes by assumption. reflexivity.
  - destruct Hwf as [H1 H2]. rewrite ValueRect2D_FromBytes_Bytes by assumption. reflexivity.
  - rewrite ValueColor3uint8_FromBytes_Bytes. reflexivity.
Qed.

Lemma value_roundtrip_witness :
  let v := VCFrame (mkCFrame 0 [1; 2; 3; 4; 5; 6; 7; 8; 9] (mkVector3 10 11 12))%Z in
  FromBytes (VCFrame (mkCFrame 0 (replicate 9 0%Z) (mkVector3 0 0 0))) (Bytes v) = Ok v.
Proof.
  intros v.
  assert (Hwf : wf_Value v).
  { repeat constructor; cbn; unfold is_u32, is_byte; lia. }
  assert (Hpp : Type_of v ≠ TypePhysicalProperties) by discriminate.
  destruct (value_roundtrip v (VCFrame (mkCFrame 0 (replicate 9 0%Z) (mkVector3 0 0 0)))
              Hwf eq_refl Hpp) as [H1 H2].
  rewrite H1. reflexivity.
Defined.

End Every_value.
